(** * lazyccg: session detection, status inference and the selection state machine

    A shallow embedding of [cmd/lazyccg/main.go] (the fingerprint-aware
    program) and, where a property is about it, of the earlier
    heuristic-only [inferStatus].

    Conventions.
    - A Go [string] is a sequence of bytes: Rocq's [string].
    - A Go [int] is modelled by [Z].  Every [int] the modelled code computes
      is an index, an index plus or minus one, or a length of a slice held in
      memory, so no operation below can leave the 64-bit range and the
      wrap-around never shows.
    - A [rune] is a Unicode code point, a [Z].
    - [map[int]string] is [gmap Z string].
    - [time.Now()] is an input of the function that reads the clock. *)

From Stdlib Require Import ZArith Zbitwise Ascii String List Lia.
From stdpp Require Import base list gmap strings sorting.

Local Open Scope Z_scope.

(** ** The functions of Go's [strings] package that the program calls

    They are modelled on bytes.  [ToLower] and [TrimSpace] are exact on ASCII
    text; bytes above 127 are left as they are (Go would also fold the
    upper-case letters and trim the white space of the rest of Unicode). *)

Module GoStrings.

Definition lower_byte (c : ascii) : ascii :=
  let n := N_of_ascii c in
  if ((65 <=? n) && (n <=? 90))%N then ascii_of_N (n + 32) else c.

Fixpoint ToLower (s : string) : string :=
  match s with
  | EmptyString => EmptyString
  | String c cs => String (lower_byte c) (ToLower cs)
  end.

Fixpoint HasPrefix (s prefix : string) : bool :=
  match prefix, s with
  | EmptyString, _ => true
  | String _ _, EmptyString => false
  | String p ps, String c cs => Ascii.eqb c p && HasPrefix cs ps
  end.

Fixpoint Contains (s substr : string) : bool :=
  HasPrefix s substr ||
  match s with
  | EmptyString => false
  | String _ cs => Contains cs substr
  end.

Fixpoint HasSuffix (s suffix : string) : bool :=
  String.eqb s suffix ||
  match s with
  | EmptyString => false
  | String _ cs => HasSuffix cs suffix
  end.

(** [strings.LastIndex(s, sep)] for a one-byte separator: the index of the
    last occurrence, [-1] when there is none. *)
Fixpoint LastIndexByte (s : string) (sep : ascii) : Z :=
  match s with
  | EmptyString => -1
  | String c cs =>
      let r := LastIndexByte cs sep in
      if 0 <=? r then r + 1
      else if Ascii.eqb c sep then 0 else -1
  end.

(** The slice expression [s[n:]]. *)
Fixpoint drop_bytes (n : nat) (s : string) : string :=
  match n, s with
  | O, _ => s
  | S _, EmptyString => EmptyString
  | S n', String _ cs => drop_bytes n' cs
  end.

Definition slice_from (s : string) (i : Z) : string :=
  drop_bytes (Z.to_nat i) s.

Fixpoint Join (elems : list string) (sep : string) : string :=
  match elems with
  | [] => EmptyString
  | [e] => e
  | e :: rest => e +:+ sep +:+ Join rest sep
  end.

(** White space in the sense of [unicode.IsSpace], ASCII part. *)
Definition is_space (c : ascii) : bool :=
  let n := N_of_ascii c in
  (((9 <=? n) && (n <=? 13)) || (n =? 32))%N.

Fixpoint trim_left (f : ascii -> bool) (s : string) : string :=
  match s with
  | EmptyString => EmptyString
  | String c cs => if f c then trim_left f cs else s
  end.

Fixpoint trim_right (f : ascii -> bool) (s : string) : string :=
  match s with
  | EmptyString => EmptyString
  | String c cs =>
      match trim_right f cs with
      | EmptyString => if f c then EmptyString else String c EmptyString
      | r => String c r
      end
  end.

Definition TrimSpace (s : string) : string :=
  trim_left is_space (trim_right is_space s).

(** [strings.TrimRight(s, cutset)]. *)
Definition in_cutset (cutset : string) (c : ascii) : bool :=
  existsb (Ascii.eqb c) (list_ascii_of_string cutset).

Definition TrimRight (s cutset : string) : string :=
  trim_right (in_cutset cutset) s.

(** [strings.ReplaceAll(s, old, new)] for a non-empty [old]: occurrences are
    replaced from left to right without overlap.  [skip] counts the bytes
    of a replaced occurrence still to pass over. *)
Fixpoint replace_from (skip : nat) (s old new : string) : string :=
  match s with
  | EmptyString => EmptyString
  | String c cs =>
      match skip with
      | S k => replace_from k cs old new
      | O =>
          if HasPrefix s old
          then new +:+ replace_from (Nat.pred (String.length old)) cs old new
          else String c (replace_from O cs old new)
      end
  end.

Definition ReplaceAll (s old new : string) : string := replace_from O s old new.

(** [strings.Split(s, sep)] for a one-byte separator. *)
Fixpoint SplitByte (s : string) (sep : ascii) : list string :=
  match s with
  | EmptyString => [EmptyString]
  | String c cs =>
      if Ascii.eqb c sep then EmptyString :: SplitByte cs sep
      else match SplitByte cs sep with
           | h :: t => String c h :: t
           | [] => [String c EmptyString]
           end
  end.

Definition LF : string := String "010"%char EmptyString.
Definition CR : string := String "013"%char EmptyString.
Definition TAB : string := String "009"%char EmptyString.

End GoStrings.
Import GoStrings.

(** ** Data of the terminal listing ([kitty @ ls]) *)

Record foregroundProcess := {
  proc_Pid : Z;
  proc_Cwd : string;
  proc_Cmdline : list string;
}.

Record kittyWindow := {
  win_ID : Z;
  win_Title : string;
  win_Cwd : string;
  win_ForegroundProcesses : list foregroundProcess;
}.

Record kittyTab := {
  tab_ID : Z;
  tab_Title : string;
  tab_Windows : list kittyWindow;
}.

Record kittyOSWindow := {
  osw_Tabs : list kittyTab;
}.

(** ** [extractAI]: which AI tool runs in a window *)

(** The path basename the loop body computes:
    [base := arg; if idx := strings.LastIndex(arg, "/"); idx >= 0 { base = arg[idx+1:] }]. *)
Definition basename (arg : string) : string :=
  let idx := LastIndexByte arg "/"%char in
  if 0 <=? idx then slice_from arg (idx + 1) else arg.

(** The two tests of the innermost loop body, for one token and one prefix. *)
Definition base_match (arg p : string) : bool :=
  String.eqb (ToLower (basename arg)) p.

Definition path_match (arg p : string) : bool :=
  Contains (ToLower arg) ("/" +:+ p +:+ "/") || Contains (ToLower arg) ("/" +:+ p).

Definition token_match (arg p : string) : bool :=
  base_match arg p || path_match arg p.

(** [for _, p := range prefixes { ... return p, true ... }] *)
Fixpoint scan_prefixes (arg : string) (prefixes : list string) : option string :=
  match prefixes with
  | [] => None
  | p :: ps =>
      if base_match arg p then Some p
      else if path_match arg p then Some p
      else scan_prefixes arg ps
  end.

(** [for _, arg := range proc.Cmdline { ... }] *)
Fixpoint scan_cmdline (cmdline : list string) (prefixes : list string) : option string :=
  match cmdline with
  | [] => None
  | arg :: rest =>
      match scan_prefixes arg prefixes with
      | Some p => Some p
      | None => scan_cmdline rest prefixes
      end
  end.

(** [for _, proc := range win.ForegroundProcesses { ... }] *)
Fixpoint scan_procs (procs : list foregroundProcess) (prefixes : list string) : option string :=
  match procs with
  | [] => None
  | proc :: rest =>
      match proc_Cmdline proc with
      | [] => scan_procs rest prefixes            (* len(proc.Cmdline) == 0: continue *)
      | cmdline =>
          match scan_cmdline cmdline prefixes with
          | Some p => Some p
          | None => scan_procs rest prefixes
          end
      end
  end.

Definition extractAI (win : kittyWindow) (prefixes : list string) : string * bool :=
  match scan_procs (win_ForegroundProcesses win) prefixes with
  | Some p => (p, true)
  | None => (EmptyString, false)
  end.

(** The match condition in the words of the specification: the lower-cased
    basename equals the prefix, or the lower-cased token contains
    [/<prefix>/] or ends with [/<prefix>]. *)
Definition spec_match (arg p : string) : bool :=
  String.eqb (ToLower (basename arg)) p
  || Contains (ToLower arg) ("/" +:+ p +:+ "/")
  || HasSuffix (ToLower arg) ("/" +:+ p).




Definition default_prefixes : list string := ["codex"; "claude"; "gemini"].

Definition window_of_cmdlines (cmdlines : list (list string)) : kittyWindow :=
  {| win_ID := 1; win_Title := ""; win_Cwd := "";
     win_ForegroundProcesses :=
       map (fun c => {| proc_Pid := 0; proc_Cwd := ""; proc_Cmdline := c |}) cmdlines |}.


(** ** Content lines and the status classifier *)

(** [l[len(l)-n:]] under the guard [len(l) > n]: the last [n] elements. *)
Definition last_lines {A} (n : nat) (l : list A) : list A :=
  if (n <? length l)%nat then drop (length l - n)%nat l else l.

Definition normalizeLines (text : string) (maxLines : Z) : list string :=
  let text := ReplaceAll text (CR +:+ LF) LF in
  let text := ReplaceAll text CR LF in
  let lines := SplitByte text "010"%char in
  let trimmed :=
    List.filter (fun line => negb (String.eqb line EmptyString))
                (map (fun line => TrimRight line (TAB +:+ " ")) lines) in
  if (0 <? maxLines) && (maxLines <? Z.of_nat (length trimmed))
  then drop (Z.to_nat (Z.of_nat (length trimmed) - maxLines)) trimmed
  else trimmed.

(** [lines[len(lines)-1]], read only after [len(lines) == 0] was excluded. *)
Definition last_line (lines : list string) : string :=
  List.last lines EmptyString.

(** [inferStatus] of [cmd/lazyccg/main.go]: the status from the content alone,
    called when the output has not changed. *)
Definition inferStatus (lines : list string) : string :=
  match lines with
  | [] => "IDLE"
  | _ =>
      let lastLine := TrimSpace (last_line lines) in
      let lastLineLower := ToLower lastLine in
      let recentLines := last_lines 10 lines in
      let recentText := ToLower (Join recentLines " ") in
      if Contains recentText "waiting"
         || Contains recentText "approval"
         || Contains recentText "confirm"
         || Contains recentText "press enter"
      then "WAITING"
      else if String.eqb lastLine ">" || String.eqb lastLine ">>"
         || HasPrefix lastLine "> "
         || HasPrefix lastLine "$ "
         || HasPrefix lastLine "% "
         || HasSuffix lastLine " >"
         || Contains lastLineLower "context left"
         || Contains lastLineLower "? for shortcuts"
         || Contains recentText "accept edits"
         || Contains recentText "crunched for"
         || Contains recentText "brewed for"
         || Contains recentText "worked for"
      then "IDLE"
      else "IDLE"
  end.

(** The earlier program, without fingerprints: its [inferStatus] is the whole
    classifier, and the one [TestInferStatus] was written for. *)
Module HeuristicOnly.

Definition prompt_rule (lines : list string) : bool :=
  let lastLine := TrimSpace (last_line lines) in
  let lastLineLower := ToLower lastLine in
  HasPrefix lastLine "> "
  || HasPrefix lastLine "$ "
  || HasPrefix lastLine "% "
  || HasSuffix lastLine "> "
  || HasSuffix lastLine "$ "
  || HasSuffix lastLine "% "
  || Contains lastLineLower "context left"
  || Contains lastLineLower "? for shortcuts".

(** [strings.ToLower(strings.Join(lines[start:], " "))] with [lookback := 20]. *)
Definition chunk (lines : list string) : string :=
  ToLower (Join (last_lines 20 lines) " ").

Definition waiting_rule (lines : list string) : bool :=
  Contains (chunk lines) "waiting"
  || Contains (chunk lines) "approval"
  || Contains (chunk lines) "confirm"
  || Contains (chunk lines) "press enter".

Definition done_rule (lines : list string) : bool :=
  Contains (chunk lines) "done"
  || Contains (chunk lines) "finished"
  || Contains (chunk lines) "complete".

Definition inferStatus (lines : list string) : string :=
  match lines with
  | [] => "IDLE"
  | _ =>
      if prompt_rule lines then "IDLE"
      else if waiting_rule lines then "WAITING"
      else if done_rule lines then "DONE"
      else "RUNNING"
  end.

End HeuristicOnly.

(** The fingerprint of a window: its last five content lines. *)
Definition hashLines (lines : list string) : list string := last_lines 5 lines.

Definition currentHash (lines : list string) : string := Join (hashLines lines) LF.

(** The block [// Determine status] of [loadSessions]. *)
Definition determineStatus (prevHashes : gmap Z string) (winID : Z)
    (lines : list string) : string :=
  let '(prevHash, hasPrev) :=
    match prevHashes !! winID with
    | Some h => (h, true)
    | None => (EmptyString, false)
    end in
  let outputChanged := hasPrev && negb (String.eqb (currentHash lines) prevHash) in
  let recentText := ToLower (Join (hashLines lines) " ") in
  let hasActiveIndicator := Contains recentText "ctrl+c to interrupt" in
  if outputChanged || hasActiveIndicator then "RUNNING" else inferStatus lines.

(** ** Sessions *)

Record session := {
  TabID : Z;
  WindowID : Z;
  Title : string;
  AI : string;
  Status : string;
  Lines : list string;
  Updated : Z;
  Cwd : string;
  OutputHash : string;
}.

Definition error := string.

Inductive result (A : Type) :=
| Ok (a : A)
| Err (e : error).
Arguments Ok {A} a.
Arguments Err {A} e.

(** What the terminal answers during one poll: the listing, and the text of
    each window. *)
Record transport := {
  kittyList : result (list kittyOSWindow);
  kittyGetText : Z -> result string;
}.

(** The body of the innermost loop of [loadSessions] for a window that
    [extractAI] accepted.  [text, _ := kittyGetText(win.ID)]: a failed read
    gives the empty text. *)
Definition sessionOfWindow (tr : transport) (maxLines : Z) (prevHashes : gmap Z string)
    (now : Z) (tab : kittyTab) (win : kittyWindow) (ai : string) : session :=
  let text := match kittyGetText tr (win_ID win) with Ok t => t | Err _ => EmptyString end in
  let lines := normalizeLines text maxLines in
  let title := win_Title win in
  let title := if String.eqb title EmptyString then tab_Title tab else title in
  let title := if String.eqb title EmptyString then win_Cwd win else title in
  {| TabID := tab_ID tab;
     WindowID := win_ID win;
     Title := title;
     AI := ai;
     Status := determineStatus prevHashes (win_ID win) lines;
     Lines := lines;
     Updated := now;
     Cwd := win_Cwd win;
     OutputHash := currentHash lines |}.

(** The windows in the order the three nested loops visit them. *)
Definition windows_in_order (osWindows : list kittyOSWindow) : list (kittyTab * kittyWindow) :=
  flat_map (fun ow =>
    flat_map (fun tab => map (fun win => (tab, win)) (tab_Windows tab)) (osw_Tabs ow))
    osWindows.

(** One pass through the body of the innermost loop of [loadSessions]. *)
Definition collect_step (tr : transport) (prefixes : list string) (maxLines : Z)
    (prevHashes : gmap Z string) (now : Z)
    (acc : list session * gmap Z string) (tw : kittyTab * kittyWindow)
    : list session * gmap Z string :=
  let '(sessions, newHashes) := acc in
  let '(tab, win) := tw in
  match extractAI win prefixes with
  | (ai, true) =>
      let s := sessionOfWindow tr maxLines prevHashes now tab win ai in
      (sessions ++ [s], <[win_ID win := OutputHash s]> newHashes)
  | (_, false) => (sessions, newHashes)                       (* continue *)
  end.

(** The loops of [loadSessions]: [sessions] and [newHashes] before sorting. *)
Definition collectSessions (tr : transport) (prefixes : list string) (maxLines : Z)
    (prevHashes : gmap Z string) (now : Z) (osWindows : list kittyOSWindow)
    : list session * gmap Z string :=
  fold_left (collect_step tr prefixes maxLines prevHashes now)
            (windows_in_order osWindows) ([], ∅).

(** ** The repository order *)

(** [sortSessions] hands the slice to [sort.Slice] with this [less]; [<] on Go
    strings compares them byte by byte. *)
Definition session_less (a b : session) : bool :=
  if String.eqb (AI a) (AI b) then String.ltb (Title a) (Title b)
  else String.ltb (AI a) (AI b).

(** [sort.Slice(x, less)] is library code.  Its documentation promises that
    the slice is sorted by [less] and adds: "The sort is not guaranteed to be
    stable".  [sort_Slice] is that contract: the result [ys] is a
    rearrangement of [xs] in which no element is less than its predecessor.
    What is stated for every poll result is stated for every result that the
    contract admits; the algorithm that the library runs is [GoSort.Slice]
    below, and it meets the contract ([Slice_sorts]). *)
Definition sort_Slice {A} (less : A -> A -> bool) (xs ys : list A) : Prop :=
  ys ≡ₚ xs /\ Sorted (fun a b => less b a = false) ys.

Definition sortSessions (sessions sorted : list session) : Prop :=
  sort_Slice session_less sessions sorted.

(** One sorter that meets the contract, the straight insertion sort that Go
    runs on short slices: [for j := i; j > a && less(data[j], data[j-1]); j--]
    moves the new element left while it is less than its left neighbour.
    [rev_sorted] is the sorted part of the slice read from right to left. *)
Fixpoint insert_left {A} (less : A -> A -> bool) (x : A) (rev_sorted : list A) : list A :=
  match rev_sorted with
  | [] => [x]
  | y :: rest => if less x y then y :: insert_left less x rest else x :: rev_sorted
  end.

Definition insertion_sort {A} (less : A -> A -> bool) (xs : list A) : list A :=
  reverse (fold_left (fun acc x => insert_left less x acc) xs []).

(** The sort key, and the order on keys that [session_less] induces. *)
Definition sort_key (s : session) : string * string := (AI s, Title s).

Definition key_lt (k1 k2 : string * string) : bool :=
  if String.eqb (fst k1) (fst k2) then String.ltb (snd k1) (snd k2)
  else String.ltb (fst k1) (fst k2).

Definition key_le (k1 k2 : string * string) : Prop := key_lt k2 k1 = false.

(** [a] may stand before [b]: its AI name is smaller, or the names are equal
    and its title is not greater. *)
Definition in_order (a b : session) : Prop :=
  String.ltb (AI a) (AI b) = true
  \/ (AI a = AI b /\ String.ltb (Title b) (Title a) = false).

(** Relative order of the sessions that carry one given key. *)
Definition with_key (k : string * string) (l : list session) : list session :=
  List.filter (fun s => String.eqb (AI s) (fst k) && String.eqb (Title s) (snd k)) l.

(** ** [sort.Slice] as the library runs it

    Since Go 1.19 [sort.Slice] is a pattern-defeating quicksort
    ([pdqsort_func] of the package [sort]): straight insertion for at most 12
    elements, heap sort when too many partitions were unbalanced, and
    otherwise a partition around a pivot chosen among three (or nine)
    elements.  The functions below follow the library function by function;
    the text of each is quoted above it.  [data] is the slice, [Less data i j]
    the call [less(i, j)] of the program's closure, which reads [data[i]] and
    [data[j]], and [Swap] the exchange of two elements.  Indices are natural
    numbers: the library keeps them between 0 and [len(data)], and every
    subtraction below is one whose result the library keeps non-negative.
    An index out of range would be a run-time panic; the library never
    produces one, and [Less] and [Swap] do nothing there.  Loops that the
    library leaves by a test take as [fuel] a number of iterations that the
    test cannot exceed.  [Next] is the step of the pseudo-random generator of
    [breakPatterns_func]. *)

Module GoSort.

Inductive sortedHint := unknownHint | increasingHint | decreasingHint.

Definition maxInsertion : nat := 12.

(** [xorshift.Next]: [r ^= r << 13; r ^= r >> 7; r ^= r << 17] on a [uint64]
    (the shift counts of Go 1.21 and later; they matter only after an
    unbalanced partition). *)
Definition xorshift_Next (r : Z) : Z :=
  let r := Z.lxor r (Z.shiftl r 13 mod 2 ^ 64) in
  let r := Z.lxor r (Z.shiftr r 7) in
  Z.lxor r (Z.shiftl r 17 mod 2 ^ 64).

(** [bits.Len(uint(n))]: the number of bits of [n]. *)
Definition bits_Len (n : nat) : nat :=
  match n with O => O | _ => S (Nat.log2 n) end.

(** [nextPowerOfTwo(length)]: [1 << bits.Len(uint(length))]. *)
Definition nextPowerOfTwo (length : nat) : Z := Z.shiftl 1 (Z.of_nat (bits_Len length)).

Section Sort.

Context {A : Type}.
Variable Next : Z -> Z.
Variable less : A -> A -> bool.

Definition Less (data : list A) (i j : nat) : bool :=
  match data !! i, data !! j with
  | Some x, Some y => less x y
  | _, _ => false
  end.

Definition Swap (data : list A) (i j : nat) : list A :=
  match data !! i, data !! j with
  | Some x, Some y => <[j := x]> (<[i := y]> data)
  | _, _ => data
  end.

(** [insertionSort_func(data, a, b)]:
    [for i := a + 1; i < b; i++ {
       for j := i; j > a && data.Less(j, j-1); j-- { data.Swap(j, j-1) } }].
    [insert_down] is the inner loop. *)
Fixpoint insert_down (data : list A) (a j : nat) : list A :=
  match j with
  | O => data
  | S j' =>
      if (a <? j)%nat && Less data j j' then insert_down (Swap data j j') a j' else data
  end.

Definition insertionSort_func (data : list A) (a b : nat) : list A :=
  fold_left (fun data i => insert_down data a i) (seq (a + 1) (b - (a + 1))) data.

(** [siftDown_func(data, lo, hi, first)]:
    [root := lo
     for { child := 2*root + 1
           if child >= hi { return }
           if child+1 < hi && data.Less(first+child, first+child+1) { child++ }
           if !data.Less(first+root, first+child) { return }
           data.Swap(first+root, first+child)
           root = child }]. *)
Fixpoint siftDown_loop (fuel : nat) (data : list A) (root hi first : nat) : list A :=
  match fuel with
  | O => data
  | S fuel =>
      let child := (2 * root + 1)%nat in
      if (hi <=? child)%nat then data
      else
        let child :=
          if (child + 1 <? hi)%nat && Less data (first + child) (first + child + 1)
          then (child + 1)%nat else child in
        if negb (Less data (first + root) (first + child)) then data
        else siftDown_loop fuel (Swap data (first + root) (first + child)) child hi first
  end.

Definition siftDown_func (data : list A) (lo hi first : nat) : list A :=
  siftDown_loop hi data lo hi first.

(** [heapSort_func(data, a, b)]:
    [first := a; lo := 0; hi := b - a
     for i := (hi - 1) / 2; i >= 0; i-- { siftDown_func(data, i, hi, first) }
     for i := hi - 1; i >= 0; i-- {
       data.Swap(first, first+i); siftDown_func(data, lo, i, first) }]. *)
Definition heapSort_func (data : list A) (a b : nat) : list A :=
  let first := a in
  let lo := O in
  let hi := (b - a)%nat in
  let data :=
    fold_left (fun data i => siftDown_func data i hi first)
              (reverse (seq 0 ((hi - 1) / 2 + 1))) data in
  fold_left (fun data i => siftDown_func (Swap data first (first + i)) lo i first)
            (reverse (seq 0 hi)) data.

(** [partition_func(data, a, b, pivot)]:
    [data.Swap(a, pivot)
     i, j := a+1, b-1
     for i <= j && data.Less(i, a) { i++ }
     for i <= j && !data.Less(j, a) { j-- }
     if i > j { data.Swap(j, a); return j, true }
     data.Swap(i, j); i++; j--
     for { for i <= j && data.Less(i, a) { i++ }
           for i <= j && !data.Less(j, a) { j-- }
           if i > j { break }
           data.Swap(i, j); i++; j-- }
     data.Swap(j, a)
     return j, false].
    [scan_up] and [scan_down] are the two inner loops, [partition_loop] the
    outer [for]. *)
Fixpoint scan_up (fuel : nat) (data : list A) (a i j : nat) : nat :=
  match fuel with
  | O => i
  | S fuel => if (i <=? j)%nat && Less data i a then scan_up fuel data a (i + 1) j else i
  end.

Fixpoint scan_down (fuel : nat) (data : list A) (a i j : nat) : nat :=
  match fuel with
  | O => j
  | S fuel => if (i <=? j)%nat && negb (Less data j a) then scan_down fuel data a i (j - 1) else j
  end.

Fixpoint partition_loop (fuel : nat) (data : list A) (a i j : nat) : list A * nat :=
  match fuel with
  | O => (data, j)
  | S fuel =>
      let i := scan_up (S j - i) data a i j in
      let j := scan_down (S j - i) data a i j in
      if (j <? i)%nat then (data, j)
      else partition_loop fuel (Swap data i j) a (i + 1) (j - 1)
  end.

Definition partition_func (data : list A) (a b pivot : nat) : list A * nat * bool :=
  let data := Swap data a pivot in
  let i := (a + 1)%nat in
  let j := (b - 1)%nat in
  let i := scan_up (S j - i) data a i j in
  let j := scan_down (S j - i) data a i j in
  if (j <? i)%nat then (Swap data j a, j, true)
  else
    let data := Swap data i j in
    let '(data, j) := partition_loop (b - a) data a (i + 1) (j - 1) in
    (Swap data j a, j, false).

(** [partitionEqual_func(data, a, b, pivot)]:
    [data.Swap(a, pivot)
     i, j := a+1, b-1
     for { for i <= j && !data.Less(a, i) { i++ }
           for i <= j && data.Less(a, j) { j-- }
           if i > j { break }
           data.Swap(i, j); i++; j-- }
     return i]. *)
Fixpoint scan_up_eq (fuel : nat) (data : list A) (a i j : nat) : nat :=
  match fuel with
  | O => i
  | S fuel => if (i <=? j)%nat && negb (Less data a i) then scan_up_eq fuel data a (i + 1) j else i
  end.

Fixpoint scan_down_eq (fuel : nat) (data : list A) (a i j : nat) : nat :=
  match fuel with
  | O => j
  | S fuel => if (i <=? j)%nat && Less data a j then scan_down_eq fuel data a i (j - 1) else j
  end.

Fixpoint partitionEqual_loop (fuel : nat) (data : list A) (a i j : nat) : list A * nat :=
  match fuel with
  | O => (data, i)
  | S fuel =>
      let i := scan_up_eq (S j - i) data a i j in
      let j := scan_down_eq (S j - i) data a i j in
      if (j <? i)%nat then (data, i)
      else partitionEqual_loop fuel (Swap data i j) a (i + 1) (j - 1)
  end.

Definition partitionEqual_func (data : list A) (a b pivot : nat) : list A * nat :=
  let data := Swap data a pivot in
  partitionEqual_loop (S (b - a)) data a (a + 1) (b - 1).

(** [partialInsertionSort_func(data, a, b)]:
    [i := a + 1
     for j := 0; j < maxSteps; j++ {
       for i < b && !data.Less(i, i-1) { i++ }
       if i == b { return true }
       if b-a < shortestShifting { return false }
       data.Swap(i, i-1)
       if i-a >= 2 {
         for j := i - 1; j >= 1; j-- {
           if !data.Less(j, j-1) { break }
           data.Swap(j, j-1) } }
       if b-i >= 2 {
         for j := i + 1; j < b; j++ {
           if !data.Less(j, j-1) { break }
           data.Swap(j, j-1) } } }
     return false].
    The loop that shifts to the left is [insert_down] with the bound 0: it
    runs while [j >= 1]. *)
Definition maxSteps : nat := 5.
Definition shortestShifting : nat := 50.

Fixpoint scan_sorted (fuel : nat) (data : list A) (i b : nat) : nat :=
  match fuel with
  | O => i
  | S fuel =>
      if (i <? b)%nat && negb (Less data i (i - 1)) then scan_sorted fuel data (i + 1) b else i
  end.

Fixpoint shift_right (fuel : nat) (data : list A) (j b : nat) : list A :=
  match fuel with
  | O => data
  | S fuel =>
      if (j <? b)%nat then
        if negb (Less data j (j - 1)) then data
        else shift_right fuel (Swap data j (j - 1)) (j + 1) b
      else data
  end.

Fixpoint partialInsertionSort_loop (steps : nat) (data : list A) (a b i : nat) : list A * bool :=
  match steps with
  | O => (data, false)
  | S steps =>
      let i := scan_sorted (b - i) data i b in
      if (i =? b)%nat then (data, true)
      else if (b - a <? shortestShifting)%nat then (data, false)
      else
        let data := Swap data i (i - 1) in
        let data := if (2 <=? i - a)%nat then insert_down data O (i - 1) else data in
        let data := if (2 <=? b - i)%nat then shift_right (b - i) data (i + 1) b else data in
        partialInsertionSort_loop steps data a b i
  end.

Definition partialInsertionSort_func (data : list A) (a b : nat) : list A * bool :=
  partialInsertionSort_loop maxSteps data a b (a + 1).

(** [breakPatterns_func(data, a, b)]:
    [length := b - a
     if length >= 8 {
       random := xorshift(length)
       modulus := nextPowerOfTwo(length)
       idx := a + (length/4)*2 - 1
       for i := 0; i < 3; i++ {
         other := int(uint(random.Next()) & (modulus - 1))
         if other >= length { other -= length }
         data.Swap(idx-1+i, a+other) } }]. *)
Definition breakPatterns_func (data : list A) (a b : nat) : list A :=
  let length := (b - a)%nat in
  if (8 <=? length)%nat then
    let modulus := nextPowerOfTwo length in
    let idx := (a + (length / 4) * 2 - 1)%nat in
    let step (st : list A * Z) (i : nat) : list A * Z :=
      let '(data, random) := st in
      let random := Next random in
      let other := Z.to_nat (Z.land random (modulus - 1)) in
      let other := if (length <=? other)%nat then (other - length)%nat else other in
      (Swap data (idx - 1 + i) (a + other), random) in
    fst (fold_left step (seq 0 3) (data, Z.of_nat length))
  else data.

(** [order2_func(data, a, b, swaps)]:
    [if data.Less(b, a) { *swaps++; return b, a }; return a, b];
    [median_func(data, a, b, c, swaps)]:
    [a, b = order2_func(data, a, b, swaps)
     b, c = order2_func(data, b, c, swaps)
     a, b = order2_func(data, a, b, swaps)
     return b];
    [medianAdjacent_func(data, a, swaps)]:
    [return median_func(data, a-1, a, a+1, swaps)]. *)
Definition order2_func (data : list A) (a b swaps : nat) : nat * nat * nat :=
  if Less data b a then (b, a, S swaps) else (a, b, swaps).

Definition median_func (data : list A) (a b c swaps : nat) : nat * nat :=
  let '(a, b, swaps) := order2_func data a b swaps in
  let '(b, c, swaps) := order2_func data b c swaps in
  let '(a, b, swaps) := order2_func data a b swaps in
  (b, swaps).

Definition medianAdjacent_func (data : list A) (a swaps : nat) : nat * nat :=
  median_func data (a - 1) a (a + 1) swaps.

(** [choosePivot_func(data, a, b)]:
    [l := b - a
     var ( swaps int; i = a + l/4*1; j = a + l/4*2; k = a + l/4*3 )
     if l >= 8 {
       if l >= shortestNinther {
         i = medianAdjacent_func(data, i, &swaps)
         j = medianAdjacent_func(data, j, &swaps)
         k = medianAdjacent_func(data, k, &swaps) }
       j = median_func(data, i, j, k, &swaps) }
     switch swaps {
     case 0: return j, increasingHint
     case maxSwaps: return j, decreasingHint
     default: return j, unknownHint }]. *)
Definition shortestNinther : nat := 50.
Definition maxSwaps : nat := 4 * 3.

Definition choosePivot_func (data : list A) (a b : nat) : nat * sortedHint :=
  let l := (b - a)%nat in
  let swaps := O in
  let i := (a + l / 4 * 1)%nat in
  let j := (a + l / 4 * 2)%nat in
  let k := (a + l / 4 * 3)%nat in
  let '(j, swaps) :=
    if (8 <=? l)%nat then
      let '(i, j, k, swaps) :=
        if (shortestNinther <=? l)%nat then
          let '(i, swaps) := medianAdjacent_func data i swaps in
          let '(j, swaps) := medianAdjacent_func data j swaps in
          let '(k, swaps) := medianAdjacent_func data k swaps in
          (i, j, k, swaps)
        else (i, j, k, swaps) in
      median_func data i j k swaps
    else (j, swaps) in
  if (swaps =? 0)%nat then (j, increasingHint)
  else if (swaps =? maxSwaps)%nat then (j, decreasingHint)
  else (j, unknownHint).

(** [reverseRange_func(data, a, b)]:
    [i := a; j := b - 1
     for i < j { data.Swap(i, j); i++; j-- }]. *)
Fixpoint reverseRange_loop (fuel : nat) (data : list A) (i j : nat) : list A :=
  match fuel with
  | O => data
  | S fuel => if (i <? j)%nat then reverseRange_loop fuel (Swap data i j) (i + 1) (j - 1) else data
  end.

Definition reverseRange_func (data : list A) (a b : nat) : list A :=
  reverseRange_loop (b - a) data a (b - 1).

Definition is_increasing (h : sortedHint) : bool :=
  match h with increasingHint => true | _ => false end.
Definition is_decreasing (h : sortedHint) : bool :=
  match h with decreasingHint => true | _ => false end.

(** [pdqsort_func(data, a, b, limit)]:
    [var ( wasBalanced = true; wasPartitioned = true )
     for {
       length := b - a
       if length <= maxInsertion { insertionSort_func(data, a, b); return }
       if limit == 0 { heapSort_func(data, a, b); return }
       if !wasBalanced { breakPatterns_func(data, a, b); limit-- }
       pivot, hint := choosePivot_func(data, a, b)
       if hint == decreasingHint {
         reverseRange_func(data, a, b)
         pivot = (b - 1) - (pivot - a)
         hint = increasingHint }
       if wasBalanced && wasPartitioned && hint == increasingHint {
         if partialInsertionSort_func(data, a, b) { return } }
       if a > 0 && !data.Less(a-1, pivot) {
         mid := partitionEqual_func(data, a, b, pivot)
         a = mid
         continue }
       mid, alreadyPartitioned := partition_func(data, a, b, pivot)
       wasPartitioned = alreadyPartitioned
       leftLen, rightLen := mid-a, b-mid
       balanceThreshold := length / 8
       if leftLen < rightLen {
         wasBalanced = leftLen >= balanceThreshold
         pdqsort_func(data, a, mid, limit)
         a = mid + 1
       } else {
         wasBalanced = rightLen >= balanceThreshold
         pdqsort_func(data, mid+1, b, limit)
         b = mid } }].
    A step of the loop and a recursive call both work on a shorter range:
    [fuel] above [b - a] is never used up (see [pdqsort_func_sorts]). *)
Fixpoint pdqsort_func (fuel : nat) (data : list A) (a b limit : nat)
    (wasBalanced wasPartitioned : bool) : list A :=
  match fuel with
  | O => data
  | S fuel =>
      let length := (b - a)%nat in
      if (length <=? maxInsertion)%nat then insertionSort_func data a b
      else if (limit =? 0)%nat then heapSort_func data a b
      else
        let data := if wasBalanced then data else breakPatterns_func data a b in
        let limit := if wasBalanced then limit else (limit - 1)%nat in
        let '(pivot, hint) := choosePivot_func data a b in
        let data' := if is_decreasing hint then reverseRange_func data a b else data in
        let pivot := if is_decreasing hint then (b - 1 - (pivot - a))%nat else pivot in
        let hint := if is_decreasing hint then increasingHint else hint in
        let '(data, sorted) :=
          if wasBalanced && wasPartitioned && is_increasing hint
          then partialInsertionSort_func data' a b else (data', false) in
        if sorted then data
        else if (0 <? a)%nat && negb (Less data (a - 1) pivot) then
          let '(data, mid) := partitionEqual_func data a b pivot in
          pdqsort_func fuel data mid b limit wasBalanced wasPartitioned
        else
          let '(data, mid, alreadyPartitioned) := partition_func data a b pivot in
          let wasPartitioned := alreadyPartitioned in
          let leftLen := (mid - a)%nat in
          let rightLen := (b - mid)%nat in
          let balanceThreshold := (length / 8)%nat in
          if (leftLen <? rightLen)%nat then
            let wasBalanced := (balanceThreshold <=? leftLen)%nat in
            let data := pdqsort_func fuel data a mid limit true true in
            pdqsort_func fuel data (mid + 1) b limit wasBalanced wasPartitioned
          else
            let wasBalanced := (balanceThreshold <=? rightLen)%nat in
            let data := pdqsort_func fuel data (mid + 1) b limit true true in
            pdqsort_func fuel data a mid limit wasBalanced wasPartitioned
  end.

(** [sort.Slice(x, less)]:
    [length := rv.Len()
     limit := bits.Len(uint(length))
     pdqsort_func(lessSwap{less, swap}, 0, length, limit)]. *)
Definition Slice (x : list A) : list A :=
  let length := List.length x in
  let limit := bits_Len length in
  pdqsort_func (S length) x O length limit true true.

End Sort.

(** Notions for the properties of the sort: a rearrangement inside the range
    [a..b) of the slice, the elements of a range, a range in order, and the
    conditions the partitions and the heap keep up. *)
Section SortNotions.

Context {A : Type}.
Variable less : A -> A -> bool.

Local Open Scope nat_scope.

Definition confined (a b : nat) (d d' : list A) : Prop :=
  d' ≡ₚ d /\ forall k, k < a \/ b <= k -> d' !! k = d !! k.

Definition seg (a b : nat) (d : list A) : list A := take (b - a) (drop a d).

Definition sorted_on (a b : nat) (d : list A) : Prop :=
  forall i j x y, a <= i -> i < j -> j < b ->
                  d !! i = Some x -> d !! j = Some y -> less y x = false.

Definition adjacent_on (a b : nat) (d : list A) : Prop :=
  forall i x y, a <= i -> S i < b ->
                d !! i = Some x -> d !! S i = Some y -> less y x = false.

Definition lower_bounded (a b : nat) (d : list A) : Prop :=
  a = 0 \/ exists q, d !! (a - 1) = Some q
                     /\ forall k x, a <= k < b -> d !! k = Some x -> less x q = false.

Definition part_inv (d : list A) (p : A) (a b : nat) (dk : list A) (i j : nat) : Prop :=
  confined a b d dk /\ dk !! a = Some p /\ a < i /\ i <= S j /\ j < b /\ b <= length dk
  /\ (forall k x, a < k < i -> dk !! k = Some x -> less x p = true)
  /\ (forall k x, j < k < b -> dk !! k = Some x -> less x p = false).

Definition partitioned (d : list A) (p : A) (a b : nat) (d' : list A) (mid : nat) : Prop :=
  a <= mid < b /\ confined a b d d' /\ d' !! mid = Some p
  /\ (forall k x, a <= k < mid -> d' !! k = Some x -> less x p = true)
  /\ (forall k x, mid < k < b -> d' !! k = Some x -> less x p = false).

Definition eq_inv (d : list A) (p : A) (a b : nat) (dk : list A) (i j : nat) : Prop :=
  confined a b d dk /\ dk !! a = Some p /\ a < i /\ i <= S j /\ j < b /\ b <= length dk
  /\ (forall k x, a < k < i -> dk !! k = Some x -> less p x = false)
  /\ (forall k x, j < k < b -> dk !! k = Some x -> less p x = true).

Definition partitioned_equal (d : list A) (p : A) (a b : nat) (d' : list A) (mid : nat)
    : Prop :=
  a < mid <= b /\ confined a b d d' /\ d' !! a = Some p
  /\ (forall k x, a <= k < mid -> d' !! k = Some x -> less p x = false)
  /\ (forall k x, mid <= k < b -> d' !! k = Some x -> less p x = true).

Definition heap_from (first lo hi : nat) (d : list A) : Prop :=
  forall r c x y, lo <= r -> c < hi -> c = 2 * r + 1 \/ c = 2 * r + 2 ->
                  d !! (first + r) = Some x -> d !! (first + c) = Some y -> less x y = false.

Definition sift_inv (first lo hi root : nat) (d : list A) : Prop :=
  (forall r c x y, lo <= r -> r <> root -> c < hi -> c = 2 * r + 1 \/ c = 2 * r + 2 ->
                   d !! (first + r) = Some x -> d !! (first + c) = Some y -> less x y = false)
  /\ (forall r c x y, lo <= r -> root = 2 * r + 1 \/ root = 2 * r + 2 -> c < hi ->
                      c = 2 * root + 1 \/ c = 2 * root + 2 ->
                      d !! (first + r) = Some x -> d !! (first + c) = Some y ->
                      less x y = false).

Definition pop_inv (first hi n : nat) (d : list A) : Prop :=
  heap_from first 0 n d /\ sorted_on (first + n) (first + hi) d
  /\ forall r k x y, r < n -> n <= k < hi ->
                     d !! (first + r) = Some x -> d !! (first + k) = Some y ->
                     less y x = false.

End SortNotions.

End GoSort.

(** [sortSessions] as it runs: [sort.Slice] with the comparison of the
    program. *)
Module Deterministic.

Definition sortSessions (sessions : list session) : list session :=
  GoSort.Slice GoSort.xorshift_Next session_less sessions.

End Deterministic.

(** [loadSessions]: the result of one poll. *)
Inductive loadSessions (tr : transport) (prefixes : list string) (maxLines : Z)
    (prevHashes : gmap Z string) (now : Z)
    : result (list session * gmap Z string) -> Prop :=
| loadSessions_err e :
    kittyList tr = Err e ->
    loadSessions tr prefixes maxLines prevHashes now (Err e)
| loadSessions_ok osWindows sorted :
    kittyList tr = Ok osWindows ->
    sortSessions (fst (collectSessions tr prefixes maxLines prevHashes now osWindows)) sorted ->
    loadSessions tr prefixes maxLines prevHashes now
      (Ok (sorted, snd (collectSessions tr prefixes maxLines prevHashes now osWindows))).

(** ** Runes and their conversions

    [string(runes)] encodes in UTF-8 and [[]rune(s)] decodes; a code point or
    a byte sequence that is not valid becomes U+FFFD. *)

Definition rune := Z.

Definition RuneError : rune := 0xFFFD.

Definition byte_of_Z (n : Z) : ascii := ascii_of_N (Z.to_N n).
Definition Z_of_byte (c : ascii) : Z := Z.of_N (N_of_ascii c).

Definition string_of_bytes (bs : list Z) : string :=
  string_of_list_ascii (map byte_of_Z bs).

Definition continuation (r : rune) (shift : Z) : Z :=
  Z.lor 0x80 (Z.land (Z.shiftr r shift) 0x3F).

Definition encode_rune (r : rune) : list Z :=
  let r := if (r <? 0) || (0x10FFFF <? r) || ((0xD800 <=? r) && (r <=? 0xDFFF))
           then RuneError else r in
  if r <? 0x80 then [r]
  else if r <? 0x800 then [Z.lor 0xC0 (Z.shiftr r 6); continuation r 0]
  else if r <? 0x10000 then
    [Z.lor 0xE0 (Z.shiftr r 12); continuation r 6; continuation r 0]
  else [Z.lor 0xF0 (Z.shiftr r 18); continuation r 12; continuation r 6; continuation r 0].

Definition string_of_runes (rs : list rune) : string :=
  string_of_bytes (flat_map encode_rune rs).

Definition in_range (lo hi b : Z) : bool := (lo <=? b) && (b <=? hi).

Definition low6 (b : Z) : Z := Z.land b 0x3F.

(** The first rune of a byte sequence and the number of bytes it takes. *)
Definition decode_first (b0 : Z) (rest : list Z) : rune * nat :=
  if b0 <? 0x80 then (b0, 1%nat)
  else if in_range 0xC2 0xDF b0 then
    match rest with
    | b1 :: _ =>
        if in_range 0x80 0xBF b1
        then (Z.lor (Z.shiftl (Z.land b0 0x1F) 6) (low6 b1), 2%nat)
        else (RuneError, 1%nat)
    | _ => (RuneError, 1%nat)
    end
  else if in_range 0xE0 0xEF b0 then
    match rest with
    | b1 :: b2 :: _ =>
        if in_range (if b0 =? 0xE0 then 0xA0 else 0x80) (if b0 =? 0xED then 0x9F else 0xBF) b1
           && in_range 0x80 0xBF b2
        then (Z.lor (Z.shiftl (Z.land b0 0x0F) 12) (Z.lor (Z.shiftl (low6 b1) 6) (low6 b2)),
              3%nat)
        else (RuneError, 1%nat)
    | _ => (RuneError, 1%nat)
    end
  else if in_range 0xF0 0xF4 b0 then
    match rest with
    | b1 :: b2 :: b3 :: _ =>
        if in_range (if b0 =? 0xF0 then 0x90 else 0x80) (if b0 =? 0xF4 then 0x8F else 0xBF) b1
           && in_range 0x80 0xBF b2 && in_range 0x80 0xBF b3
        then (Z.lor (Z.shiftl (Z.land b0 0x07) 18)
                (Z.lor (Z.shiftl (low6 b1) 12) (Z.lor (Z.shiftl (low6 b2) 6) (low6 b3))),
              4%nat)
        else (RuneError, 1%nat)
    | _ => (RuneError, 1%nat)
    end
  else (RuneError, 1%nat).

Fixpoint decode_from (skip : nat) (bs : list Z) : list rune :=
  match bs with
  | [] => []
  | b :: rest =>
      match skip with
      | S k => decode_from k rest
      | O => let '(r, w) := decode_first b rest in r :: decode_from (Nat.pred w) rest
      end
  end.

Definition runes_of_string (s : string) : list rune :=
  decode_from O (map Z_of_byte (list_ascii_of_string s)).

(** ** The model and its messages *)

Record model := {
  width : Z;
  height : Z;
  selected : Z;
  sessions : list session;
  err : option error;
  pollEvery : Z;
  prefixes : list string;
  maxLines : Z;
  lastUpdate : Z;
  renaming : bool;
  renameInput : list rune;
  focusedPanel : Z;
  statusFilter : string;
  statusSelected : Z;
  prevHashes : gmap Z string;
}.

(** Assignments to the fields of the receiver [m]. *)
Definition set_size (w h : Z) (m : model) : model :=
  {| width := w; height := h; selected := selected m; sessions := sessions m;
     err := err m; pollEvery := pollEvery m; prefixes := prefixes m;
     maxLines := maxLines m; lastUpdate := lastUpdate m; renaming := renaming m;
     renameInput := renameInput m; focusedPanel := focusedPanel m;
     statusFilter := statusFilter m; statusSelected := statusSelected m;
     prevHashes := prevHashes m |}.

Definition set_selected (v : Z) (m : model) : model :=
  {| width := width m; height := height m; selected := v; sessions := sessions m;
     err := err m; pollEvery := pollEvery m; prefixes := prefixes m;
     maxLines := maxLines m; lastUpdate := lastUpdate m; renaming := renaming m;
     renameInput := renameInput m; focusedPanel := focusedPanel m;
     statusFilter := statusFilter m; statusSelected := statusSelected m;
     prevHashes := prevHashes m |}.

Definition set_sessions (v : list session) (m : model) : model :=
  {| width := width m; height := height m; selected := selected m; sessions := v;
     err := err m; pollEvery := pollEvery m; prefixes := prefixes m;
     maxLines := maxLines m; lastUpdate := lastUpdate m; renaming := renaming m;
     renameInput := renameInput m; focusedPanel := focusedPanel m;
     statusFilter := statusFilter m; statusSelected := statusSelected m;
     prevHashes := prevHashes m |}.

Definition set_err (v : option error) (m : model) : model :=
  {| width := width m; height := height m; selected := selected m; sessions := sessions m;
     err := v; pollEvery := pollEvery m; prefixes := prefixes m;
     maxLines := maxLines m; lastUpdate := lastUpdate m; renaming := renaming m;
     renameInput := renameInput m; focusedPanel := focusedPanel m;
     statusFilter := statusFilter m; statusSelected := statusSelected m;
     prevHashes := prevHashes m |}.

Definition set_lastUpdate (v : Z) (m : model) : model :=
  {| width := width m; height := height m; selected := selected m; sessions := sessions m;
     err := err m; pollEvery := pollEvery m; prefixes := prefixes m;
     maxLines := maxLines m; lastUpdate := v; renaming := renaming m;
     renameInput := renameInput m; focusedPanel := focusedPanel m;
     statusFilter := statusFilter m; statusSelected := statusSelected m;
     prevHashes := prevHashes m |}.

Definition set_renaming (v : bool) (m : model) : model :=
  {| width := width m; height := height m; selected := selected m; sessions := sessions m;
     err := err m; pollEvery := pollEvery m; prefixes := prefixes m;
     maxLines := maxLines m; lastUpdate := lastUpdate m; renaming := v;
     renameInput := renameInput m; focusedPanel := focusedPanel m;
     statusFilter := statusFilter m; statusSelected := statusSelected m;
     prevHashes := prevHashes m |}.

Definition set_renameInput (v : list rune) (m : model) : model :=
  {| width := width m; height := height m; selected := selected m; sessions := sessions m;
     err := err m; pollEvery := pollEvery m; prefixes := prefixes m;
     maxLines := maxLines m; lastUpdate := lastUpdate m; renaming := renaming m;
     renameInput := v; focusedPanel := focusedPanel m;
     statusFilter := statusFilter m; statusSelected := statusSelected m;
     prevHashes := prevHashes m |}.

Definition set_focusedPanel (v : Z) (m : model) : model :=
  {| width := width m; height := height m; selected := selected m; sessions := sessions m;
     err := err m; pollEvery := pollEvery m; prefixes := prefixes m;
     maxLines := maxLines m; lastUpdate := lastUpdate m; renaming := renaming m;
     renameInput := renameInput m; focusedPanel := v;
     statusFilter := statusFilter m; statusSelected := statusSelected m;
     prevHashes := prevHashes m |}.

Definition set_statusFilter (v : string) (m : model) : model :=
  {| width := width m; height := height m; selected := selected m; sessions := sessions m;
     err := err m; pollEvery := pollEvery m; prefixes := prefixes m;
     maxLines := maxLines m; lastUpdate := lastUpdate m; renaming := renaming m;
     renameInput := renameInput m; focusedPanel := focusedPanel m;
     statusFilter := v; statusSelected := statusSelected m;
     prevHashes := prevHashes m |}.

Definition set_statusSelected (v : Z) (m : model) : model :=
  {| width := width m; height := height m; selected := selected m; sessions := sessions m;
     err := err m; pollEvery := pollEvery m; prefixes := prefixes m;
     maxLines := maxLines m; lastUpdate := lastUpdate m; renaming := renaming m;
     renameInput := renameInput m; focusedPanel := focusedPanel m;
     statusFilter := statusFilter m; statusSelected := v;
     prevHashes := prevHashes m |}.

Definition set_prevHashes (v : gmap Z string) (m : model) : model :=
  {| width := width m; height := height m; selected := selected m; sessions := sessions m;
     err := err m; pollEvery := pollEvery m; prefixes := prefixes m;
     maxLines := maxLines m; lastUpdate := lastUpdate m; renaming := renaming m;
     renameInput := renameInput m; focusedPanel := focusedPanel m;
     statusFilter := statusFilter m; statusSelected := statusSelected m;
     prevHashes := v |}.

(** The model [main] starts the program with. *)
Definition initial_model (poll : Z) (pfx : list string) (maxl : Z) : model :=
  {| width := 0; height := 0; selected := 0; sessions := []; err := None;
     pollEvery := poll; prefixes := pfx; maxLines := maxl; lastUpdate := 0;
     renaming := false; renameInput := []; focusedPanel := 0;
     statusFilter := EmptyString; statusSelected := 0; prevHashes := ∅ |}.

(** A key press as the terminal library reports it.  [KeyOther] stands for the
    key types the program never names, with the library's name of the key. *)
Inductive KeyType :=
| KeyEnter | KeyEsc | KeyBackspace | KeySpace | KeyRunes
| KeyTab | KeyUp | KeyDown | KeyCtrlC
| KeyOther (name : string).

Record Key := {
  key_Type : KeyType;
  key_Runes : list rune;
  key_Alt : bool;
  key_Paste : bool;
}.

(** [msg.String()]. *)
Definition key_String (k : Key) : string :=
  (if key_Alt k then "alt+" else "") +:+
  match key_Type k with
  | KeyRunes =>
      (if key_Paste k then "[" else "") +:+ string_of_runes (key_Runes k)
      +:+ (if key_Paste k then "]" else "")
  | KeyEnter => "enter"
  | KeyEsc => "esc"
  | KeyBackspace => "backspace"
  | KeySpace => " "
  | KeyTab => "tab"
  | KeyUp => "up"
  | KeyDown => "down"
  | KeyCtrlC => "ctrl+c"
  | KeyOther name => name
  end.

Inductive Msg :=
| KeyMsg (k : Key)
| WindowSizeMsg (w h : Z)
| tickMsg (t : Z)
| sessionsMsg (new_sessions : list session) (hashes : gmap Z string)
| renameResultMsg (e : option error)
| errorMsg (e : error)
| otherMsg.

(** The commands [Update] returns, as data: the runtime runs them later. *)
Inductive Cmd :=
| Quit
| focusCmd (windowID : Z)
| renameCmd (windowID : Z) (title : string)
| refreshCmd (pfx : list string) (maxl : Z) (prev : gmap Z string)
| tick (d : Z)
| Batch (c1 c2 : Cmd).

Definition len {A} (l : list A) : Z := Z.of_nat (length l).

Definition filteredSessions (m : model) : list session :=
  if String.eqb (statusFilter m) EmptyString then sessions m
  else List.filter (fun s => String.eqb (Status s) (statusFilter m)) (sessions m).

Definition statusOrder : list string := ["RUNNING"; "IDLE"; "WAITING"; "DONE"].

(** [statusCount[s.Status]++] for every session. *)
Definition statusCount (ss : list session) : gmap string Z :=
  fold_left (fun count s => <[Status s := default 0 (count !! Status s) + 1]> count) ss ∅.

Definition availableStatuses (m : model) : list string :=
  List.filter (fun status => 0 <? default 0 (statusCount (sessions m) !! status)) statusOrder.

(** [filtered[m.selected]] behind its guard
    [len(filtered) > 0 && m.selected >= 0 && m.selected < len(filtered)]. *)
Definition selectedSession (m : model) : option session :=
  let filtered := filteredSessions m in
  if (0 <? len filtered) && (0 <=? selected m) && (selected m <? len filtered)
  then filtered !! Z.to_nat (selected m)
  else None.

(** [statuses[m.statusSelected]] behind its guard. *)
Definition selectedStatus (m : model) : option string :=
  let statuses := availableStatuses m in
  if (0 <=? statusSelected m) && (statusSelected m <? len statuses)
  then statuses !! Z.to_nat (statusSelected m)
  else None.

Definition key_is (k : Key) (name : string) : bool := String.eqb (key_String k) name.

(** [Update], the branch of a key press while renaming. *)
Definition Update_renaming (m : model) (k : Key) : model * option Cmd :=
  match key_Type k with
  | KeyEnter =>
      match selectedSession m with
      | Some s =>
          let windowID := WindowID s in
          let newTitle := string_of_runes (renameInput m) in
          (set_renameInput [] (set_renaming false m), Some (renameCmd windowID newTitle))
      | None => (set_renameInput [] (set_renaming false m), None)
      end
  | KeyEsc => (set_renameInput [] (set_renaming false m), None)
  | KeyBackspace =>
      if 0 <? len (renameInput m)
      then (set_renameInput (take (Z.to_nat (len (renameInput m) - 1)) (renameInput m)) m, None)
      else (m, None)
  | KeySpace => (set_renameInput (renameInput m ++ [32]) m, None)
  | KeyRunes => (set_renameInput (renameInput m ++ key_Runes k) m, None)
  | _ => (m, None)
  end.

(** [Update], the branch of a key press while browsing. *)
Definition Update_browsing (m : model) (k : Key) : model * option Cmd :=
  if key_is k "q" || key_is k "ctrl+c" then (m, Some Quit)
  else if key_is k "tab" then
    (set_focusedPanel (Z.rem (focusedPanel m + 1) 2) m, None)
  else if key_is k "esc" then
    (set_focusedPanel 0 (set_statusFilter EmptyString m), None)
  else if key_is k "enter" then
    if focusedPanel m =? 0 then
      match selectedSession m with
      | Some s => (m, Some (focusCmd (WindowID s)))
      | None => (m, None)
      end
    else
      match selectedStatus m with
      | Some status =>
          let m := if String.eqb (statusFilter m) status
                   then set_statusFilter EmptyString m
                   else set_statusFilter status m in
          (set_focusedPanel 0 (set_selected 0 m), None)
      | None => (m, None)
      end
  else if key_is k "r" then
    if focusedPanel m =? 0 then
      match selectedSession m with
      | Some s => (set_renameInput (runes_of_string (Title s)) (set_renaming true m), None)
      | None => (m, None)
      end
    else (m, None)
  else if key_is k "up" || key_is k "k" then
    if focusedPanel m =? 0 then
      if 0 <? selected m then (set_selected (selected m - 1) m, None) else (m, None)
    else
      let statuses := availableStatuses m in
      if 0 <? statusSelected m then (set_statusSelected (statusSelected m - 1) m, None)
      else (set_statusSelected (len statuses - 1) m, None)
  else if key_is k "down" || key_is k "j" then
    if focusedPanel m =? 0 then
      let filtered := filteredSessions m in
      if selected m <? len filtered - 1 then (set_selected (selected m + 1) m, None)
      else (m, None)
    else
      let statuses := availableStatuses m in
      if statusSelected m <? len statuses - 1
      then (set_statusSelected (statusSelected m + 1) m, None)
      else (set_statusSelected 0 m, None)
  else (m, None).

(** [Update].  [now] is what [time.Now()] returns when the branch reads it. *)
Definition Update (now : Z) (m : model) (msg : Msg) : model * option Cmd :=
  match msg with
  | KeyMsg k => if renaming m then Update_renaming m k else Update_browsing m k
  | WindowSizeMsg w h => (set_size w h m, None)
  | tickMsg _ =>
      (m, Some (Batch (refreshCmd (prefixes m) (maxLines m) (prevHashes m)) (tick (pollEvery m))))
  | sessionsMsg new_sessions hashes =>
      let m := set_prevHashes hashes (set_sessions new_sessions m) in
      let m :=
        if len (sessions m) <=? selected m then
          let m := set_selected (len (sessions m) - 1) m in
          if selected m <? 0 then set_selected 0 m else m
        else m in
      (set_lastUpdate now m, None)
  | renameResultMsg e =>
      let m := match e with Some e' => set_err (Some e') m | None => m end in
      (set_lastUpdate now m, None)
  | errorMsg e => (set_lastUpdate now (set_err (Some e) m), None)
  | otherMsg => (m, None)
  end.

(** The model after a sequence of messages, each with the clock reading of
    its [Update]. *)
Definition run (m : model) (trace : list (Z * Msg)) : model :=
  fold_left (fun m '(now, msg) => fst (Update now m msg)) trace m.

(** What [refreshCmd] delivers to [Update] when the runtime runs it. *)
Definition refresh_message (r : result (list session * gmap Z string)) : Msg :=
  match r with
  | Err e => errorMsg e
  | Ok (ss, hashes) => sessionsMsg ss hashes
  end.

(** ** Notions the properties are stated with *)

(** The selection points into the list the Sessions panel shows. *)
Definition selection_ok (m : model) : Prop :=
  0 <= selected m < len (filteredSessions m)
  \/ (filteredSessions m = [] /\ selected m = 0).

(** Messages that replace the session snapshot, and key presses that end a
    rename (confirm and cancel). *)
Definition replaces_snapshot (msg : Msg) : bool :=
  match msg with
  | sessionsMsg _ _ => true
  | _ => false
  end.

Definition ends_rename (msg : Msg) : bool :=
  match msg with
  | KeyMsg k =>
      match key_Type k with
      | KeyEnter | KeyEsc => true
      | _ => false
      end
  | _ => false
  end.

(** ** Sample data *)

Definition key_of_type (t : KeyType) : Key :=
  {| key_Type := t; key_Runes := []; key_Alt := false; key_Paste := false |}.

Definition key_of_rune (r : rune) : Key :=
  {| key_Type := KeyRunes; key_Runes := [r]; key_Alt := false; key_Paste := false |}.

(** The letter keys [r] and [x]. *)
Definition key_r : Key := key_of_rune 114.
Definition key_x : Key := key_of_rune 120.

Definition start_model : model := initial_model 1000 default_prefixes 200.

(** A terminal with one tab whose windows all run [claude]; the windows listed
    in [working] show the busy marker, the others a prompt. *)
Definition claude_window (id : Z) (title : string) : kittyWindow :=
  {| win_ID := id; win_Title := title; win_Cwd := "/home/user";
     win_ForegroundProcesses :=
       [{| proc_Pid := 100 + id; proc_Cwd := "/home/user"; proc_Cmdline := ["claude"] |}] |}.

Definition listing (wins : list kittyWindow) : list kittyOSWindow :=
  [{| osw_Tabs := [{| tab_ID := 1; tab_Title := "work"; tab_Windows := wins |}] |}].

Definition running_lines : list string := ["Working (ctrl+c to interrupt)"].
Definition idle_lines : list string := [">"].

Definition screen (working : list Z) (id : Z) : result string :=
  Ok ((if existsb (Z.eqb id) working then "Working (ctrl+c to interrupt)" else "> ")
      +:+ LF).

Definition terminal (wins : list kittyWindow) (working : list Z) : transport :=
  {| kittyList := Ok (listing wins); kittyGetText := screen working |}.

Definition sample_session (now wid : Z) (title ai status : string) (lines : list string)
    : session :=
  {| TabID := 1; WindowID := wid; Title := title; AI := ai; Status := status;
     Lines := lines; Updated := now; Cwd := "/home/user"; OutputHash := currentHash lines |}.

Definition hashes_of (ss : list session) : gmap Z string :=
  list_to_map (map (fun s => (WindowID s, OutputHash s)) ss).

(** Two consecutive polls of three windows: between them the third window
    starts to work. *)
Definition three_windows : list kittyWindow :=
  [claude_window 1 "api"; claude_window 2 "docs"; claude_window 3 "web"].

Definition snapshot_before : list session :=
  [sample_session 1 1 "api" "claude" "RUNNING" running_lines;
   sample_session 1 2 "docs" "claude" "IDLE" idle_lines;
   sample_session 1 3 "web" "claude" "IDLE" idle_lines].

Definition snapshot_after : list session :=
  [sample_session 6 1 "api" "claude" "RUNNING" running_lines;
   sample_session 6 2 "docs" "claude" "IDLE" idle_lines;
   sample_session 6 3 "web" "claude" "RUNNING" running_lines].

(** The operator filters by IDLE, moves to the second IDLE session, and the
    next poll arrives. *)
Definition filter_then_poll : list (Z * Msg) :=
  [(1, sessionsMsg snapshot_before (hashes_of snapshot_before));
   (2, KeyMsg (key_of_type KeyTab));
   (3, KeyMsg (key_of_type KeyDown));
   (4, KeyMsg (key_of_type KeyEnter));
   (5, KeyMsg (key_of_type KeyDown));
   (6, sessionsMsg snapshot_after (hashes_of snapshot_after))].

(** One window, then a second one whose title sorts before the first. *)
Definition one_session : list session :=
  [sample_session 1 1 "beta" "claude" "IDLE" idle_lines].

Definition two_sessions : list session :=
  [sample_session 4 2 "alpha" "claude" "IDLE" idle_lines;
   sample_session 4 1 "beta" "claude" "IDLE" idle_lines].

Definition model_with_one_session : model :=
  run start_model [(1, sessionsMsg one_session (hashes_of one_session))].

(** The operator starts to rename the only session and types a letter; a poll
    then reports the second window. *)
Definition rename_across_poll : list (Z * Msg) :=
  [(2, KeyMsg key_r);
   (3, KeyMsg key_x);
   (4, sessionsMsg two_sessions (hashes_of two_sessions))].

(** Typing, a tick and a resize during a rename. *)
Definition rename_edits : list (Z * Msg) :=
  [(3, KeyMsg key_x);
   (4, tickMsg 4);
   (5, KeyMsg (key_of_type KeyBackspace));
   (6, WindowSizeMsg 120 40);
   (7, KeyMsg (key_of_type KeySpace))].

(** Two windows that run the same tool under the same title. *)
Definition tied_sessions : list session :=
  [sample_session 1 1 "claude" "claude" "IDLE" idle_lines;
   sample_session 1 2 "claude" "claude" "RUNNING" running_lines].

(** Fourteen windows of one tool in the order of their discovery, the eighth
    titled "a" and all the others "b", and their sessions at a first poll. *)
Definition fourteen_ids : list Z := [1; 2; 3; 4; 5; 6; 7; 8; 9; 10; 11; 12; 13; 14].

Definition fourteen_windows : list kittyWindow :=
  map (fun id => claude_window id (if id =? 8 then "a" else "b")) fourteen_ids.

Definition fourteen_sessions : list session :=
  map (fun id => sample_session 1 id (if id =? 8 then "a" else "b") "claude" "IDLE" idle_lines)
      fourteen_ids.

(** A terminal that cannot be reached, and a failed poll followed by a
    successful one. *)
Definition unreachable_terminal : transport :=
  {| kittyList := Err "kitty @ ls: exit status 1"; kittyGetText := screen [] |}.

Definition failure_then_success : list (Z * Msg) :=
  [(1, errorMsg "kitty @ ls: exit status 1");
   (2, sessionsMsg one_session (hashes_of one_session))].

(** ** Further functions of the program *)

(** [parsePrefixes]: the value of the flag [-prefixes], split at the commas. *)
Definition parsePrefixes (s : string) : list string :=
  List.filter (fun p => negb (String.eqb p EmptyString))
              (map (fun p => ToLower (TrimSpace p)) (SplitByte s ","%char)).

(** [l[i]] and [l[:n]].  [None] stands for the run-time panic that Go raises
    for an index or a bound out of range.  (The upper bound of a slice
    expression is the capacity; the program slices below the length only.) *)
Definition index {A} (l : list A) (i : Z) : option A :=
  if i <? 0 then None else l !! Z.to_nat i.

Definition slice_to {A} (l : list A) (n : Z) : option (list A) :=
  if (0 <=? n) && (n <=? len l) then Some (take (Z.to_nat n) l) else None.

Definition truncateString (s : string) (maxLen : Z) : option string :=
  let runes := runes_of_string s in
  if len runes <=? maxLen then Some s
  else if maxLen <=? 3 then
    match slice_to runes maxLen with
    | Some cut => Some (string_of_runes cut)
    | None => None
    end
  else
    match slice_to runes (maxLen - 3) with
    | Some cut => Some (string_of_runes cut +:+ "...")
    | None => None
    end.

(** Text of ASCII characters only.  On such text the byte-wise [ToLower],
    [ToUpper] and [TrimSpace] are what Go computes; on other text Go also
    folds the letters and trims the white space of the rest of Unicode and
    writes U+FFFD for bytes that are not UTF-8. *)
Definition ascii_byte (c : ascii) : bool := (N_of_ascii c <? 128)%N.

Definition is_ascii (s : string) : bool := forallb ascii_byte (list_ascii_of_string s).

(** [strings.ToUpper], on bytes as [ToLower] is: exact on ASCII text. *)
Definition upper_byte (c : ascii) : ascii :=
  let n := N_of_ascii c in
  if ((97 <=? n) && (n <=? 122))%N then ascii_of_N (n - 32) else c.

Fixpoint ToUpper (s : string) : string :=
  match s with
  | EmptyString => EmptyString
  | String c cs => String (upper_byte c) (ToUpper cs)
  end.

(** [shortAI]: the two-letter tag of a tool in the Sessions panel. *)
Definition shortAI (ai : string) : string :=
  let lower := ToLower ai in
  if String.eqb lower "claude" then "CL"
  else if String.eqb lower "codex" then "CO"
  else if String.eqb lower "gemini" then "GE"
  else if 2 <=? Z.of_nat (String.length ai) then ToUpper (substring 0 2 ai)
  else ToUpper ai.

(** The windows a command acts on. *)
Fixpoint command_targets (c : Cmd) : list Z :=
  match c with
  | focusCmd windowID => [windowID]
  | renameCmd windowID _ => [windowID]
  | Batch c1 c2 => command_targets c1 ++ command_targets c2
  | _ => []
  end.

(** Code points that [string(runes)] encodes as they are; every other value
    is written as U+FFFD. *)
Definition valid_rune (r : rune) : bool :=
  (0 <=? r) && (r <=? 0x10FFFF) && negb ((0xD800 <=? r) && (r <=? 0xDFFF)).

Definition canonical_rune (r : rune) : rune := if valid_rune r then r else RuneError.

(** The values of a byte. *)
Definition is_byte (b : Z) : Prop := 0 <= b < 256.

(** The lines a rule of the classifier may look at: none is empty, and none
    holds a line break; a content line also does not end in a blank. *)
Definition no_byte (c : ascii) (s : string) : bool :=
  negb (existsb (Ascii.eqb c) (list_ascii_of_string s)).

Definition ends_blank (s : string) : bool :=
  HasSuffix s " " || HasSuffix s TAB.

Definition content_line (s : string) : bool :=
  negb (String.eqb s EmptyString)
  && no_byte "010"%char s && no_byte "013"%char s
  && negb (ends_blank s).

(** A prefix as [parsePrefixes] delivers it. *)
Definition clean_prefix (p : string) : bool :=
  negb (String.eqb p EmptyString)
  && no_byte ","%char p
  && String.eqb (ToLower p) p
  && String.eqb (TrimSpace p) p.

(** The selection never leaves the snapshot. *)
Definition selection_in_snapshot (m : model) : Prop :=
  0 <= selected m /\ (selected m < len (sessions m) \/ selected m = 0).

(** The cursor of the Status panel points at a listed status. *)
Definition status_cursor_ok (m : model) : Prop :=
  0 <= statusSelected m < len (availableStatuses m).

(** Key presses that edit the rename buffer. *)
Definition editing_key (msg : Msg) : bool :=
  match msg with
  | KeyMsg k =>
      match key_Type k with
      | KeyEnter | KeyEsc => false
      | _ => true
      end
  | _ => false
  end.

(** ** The output panel

    The styling library is not part of the program: [Width] stands for
    [lipgloss.Width] and [Render] for the [Render] method of a style. *)

Inductive style :=
| helpDescStyle
| titleStyle
| foreground (color : string).

Definition gray : string := "240".

Section Presentation.

Variable Width : string -> Z.
Variable Render : style -> string -> string.

(** [strings.Repeat(s, count)]; every call site passes a count it has made
    non-negative. *)
Definition Repeat (s : string) (count : Z) : string :=
  String.concat EmptyString (replicate (Z.to_nat count) s).

Definition drawBox (title : string) (content : list string) (width height : Z)
    (borderColor : string) : string :=
  let colorStyle := Render (foreground borderColor) in
  let titleStyled := Render titleStyle title in
  let innerWidth := if width - 2 <? 1 then 1 else width - 2 in
  let titleLen := Width titleStyled in
  let remainingWidth := if width - 3 - titleLen <? 0 then 0 else width - 3 - titleLen in
  let topLine :=
    colorStyle "╭─" +:+ titleStyled +:+ colorStyle (Repeat "─" remainingWidth +:+ "╮") in
  let row (i : nat) :=
    let lineContent := default EmptyString (content !! i) in
    let padding := if innerWidth - Width lineContent <? 0 then 0
                   else innerWidth - Width lineContent in
    colorStyle "│" +:+ lineContent +:+ Repeat " " padding +:+ colorStyle "│" in
  let bottom := colorStyle ("╰" +:+ Repeat "─" innerWidth +:+ "╯") in
  Join ([topLine] ++ map row (seq 0 (Z.to_nat (height - 2))) ++ [bottom]) LF.

(** The loop over [displayLines]: a line wider than the panel is cut. *)
Fixpoint output_rows (innerWidth : Z) (displayLines : list string) : option (list string) :=
  match displayLines with
  | [] => Some []
  | line :: rest =>
      match (if innerWidth <? Width line then truncateString line innerWidth else Some line) with
      | None => None
      | Some line' =>
          match output_rows innerWidth rest with
          | None => None
          | Some rows => Some ((" " +:+ line') :: rows)
          end
      end
  end.

Definition output_content (m : model) (width height : Z) : option (list string) :=
  let filtered := filteredSessions m in
  if (len filtered =? 0) || (len filtered <=? selected m)
  then Some [Render helpDescStyle " (no output)"]
  else
    match index filtered (selected m) with
    | None => None
    | Some s =>
        let logs := Lines s in
        if len logs =? 0 then Some [Render helpDescStyle " (empty)"]
        else
          let availableLines := if height - 2 <? 1 then 1 else height - 2 in
          let displayLines :=
            if availableLines <? len logs
            then drop (Z.to_nat (len logs - availableLines)) logs
            else logs in
          output_rows (width - 2) displayLines
    end.

Definition renderOutputPanel (m : model) (width height : Z) : option string :=
  match output_content m width height with
  | Some content => Some (drawBox "Output" content width height gray)
  | None => None
  end.

(** The call [m.renderOutputPanel(rightWidth, outputHeight)] of [View], which
    [View] reaches when neither the width nor the height of the terminal
    is 0. *)
Definition View_output (m : model) : option string :=
  let leftWidth := Z.quot (width m) 2 in
  let leftWidth := if leftWidth <? 35 then 35 else leftWidth in
  let rightWidth := width m - leftWidth in
  let outputHeight := height m - 2 in
  renderOutputPanel m rightWidth outputHeight.

End Presentation.

(** A stand-in for the styling library in examples: no styling, one cell per
    rune. *)
Definition plain_Width (s : string) : Z := len (runes_of_string s).
Definition plain_Render (_ : style) (s : string) : string := s.

(** ** More sample data *)

Definition key_backspace : Key := key_of_type KeyBackspace.

Definition model_on_status_panel : model :=
  run start_model
    [(1, sessionsMsg snapshot_before (hashes_of snapshot_before));
     (2, KeyMsg (key_of_type KeyTab));
     (3, KeyMsg (key_of_type KeyDown))].

Definition narrow_model : model :=
  run start_model
    [(1, sessionsMsg one_session (hashes_of one_session));
     (2, WindowSizeMsg 36 24)].

(** ** Notions for the properties of a poll *)

(** The content lines and the fingerprint of the window with a given id, as
    one poll computes them. *)
Definition window_lines (tr : transport) (maxLines : Z) (id : Z) : list string :=
  normalizeLines
    match kittyGetText tr id with Ok t => t | Err _ => EmptyString end maxLines.

Definition window_hash (tr : transport) (maxLines : Z) (id : Z) : string :=
  currentHash (window_lines tr maxLines id).

(** The busy marker in the last five lines. *)
Definition busy_marker (lines : list string) : bool :=
  Contains (ToLower (Join (hashLines lines) " ")) "ctrl+c to interrupt".

(** The session of a listed window, if [extractAI] accepts the window. *)
Definition session_of (tr : transport) (prefixes : list string) (maxLines : Z)
    (prevHashes : gmap Z string) (now : Z) (tw : kittyTab * kittyWindow) : option session :=
  match extractAI (snd tw) prefixes with
  | (ai, true) => Some (sessionOfWindow tr maxLines prevHashes now (fst tw) (snd tw) ai)
  | (_, false) => None
  end.

(** A window with every command-line token in lower case. *)
Definition lower_process (proc : foregroundProcess) : foregroundProcess :=
  {| proc_Pid := proc_Pid proc; proc_Cwd := proc_Cwd proc;
     proc_Cmdline := map ToLower (proc_Cmdline proc) |}.

Definition lower_cmdlines (win : kittyWindow) : kittyWindow :=
  {| win_ID := win_ID win; win_Title := win_Title win; win_Cwd := win_Cwd win;
     win_ForegroundProcesses := map lower_process (win_ForegroundProcesses win) |}.


(** * Properties *)

(** ** The text helpers on sample input *)

Example normalizeLines_sample :
  normalizeLines ("one  " +:+ CR +:+ LF +:+ LF +:+ TAB +:+ "two" +:+ TAB +:+ CR +:+ "three" +:+ LF) 200
  = ["one"; TAB +:+ "two"; "three"].
Proof. reflexivity. Qed.

Example normalizeLines_keeps_last :
  normalizeLines ("a" +:+ LF +:+ "b" +:+ LF +:+ "c") 2 = ["b"; "c"].
Proof. reflexivity. Qed.

Example normalizeLines_empty : normalizeLines "" 200 = [].
Proof. reflexivity. Qed.

Example basename_sample :
  basename "/usr/local/bin/Claude" = "Claude" /\ basename "gemini" = "gemini"
  /\ basename "dir/" = "".
Proof. repeat split. Qed.

Example TrimSpace_sample : TrimSpace ("  > " +:+ TAB) = ">".
Proof. reflexivity. Qed.

(** A title in Japanese survives the way into the rename buffer and back. *)
Example runes_round_trip :
  runes_of_string (string_of_runes [26085; 26412; 35486; 32; 97])
  = [26085; 26412; 35486; 32; 97].
Proof. reflexivity. Qed.

Example invalid_bytes_become_RuneError :
  runes_of_string (string_of_bytes [0x61; 0xFF; 0xE3; 0x81]) = [97; RuneError; RuneError; RuneError].
Proof. reflexivity. Qed.

Example key_String_samples :
  key_String key_r = "r" /\ key_String (key_of_type KeyEnter) = "enter"
  /\ key_String {| key_Type := KeyRunes; key_Runes := [114]; key_Alt := true;
                   key_Paste := false |} = "alt+r".
Proof. repeat split. Qed.

(** ** The sample polls

    The snapshots used below are what [loadSessions] delivers for the sample
    terminals. *)

Lemma loadSessions_result tr pfx maxl prev now ws unsorted ss hashes :
  kittyList tr = Ok ws ->
  collectSessions tr pfx maxl prev now ws = (unsorted, hashes) ->
  sortSessions unsorted ss ->
  loadSessions tr pfx maxl prev now (Ok (ss, hashes)).
Proof.
  intros Hws Hc Hsort.
  pose proof (loadSessions_ok tr pfx maxl prev now ws ss Hws) as H.
  rewrite Hc in H. by apply H.
Qed.

Ltac sample_poll unsorted :=
  eapply (loadSessions_result _ _ _ _ _ _ unsorted);
  [ reflexivity
  | vm_compute; reflexivity
  | split; [ try reflexivity | vm_compute; repeat constructor ] ].

Example poll_before :
  loadSessions (terminal three_windows [1]) default_prefixes 200 ∅ 1
    (Ok (snapshot_before, hashes_of snapshot_before)).
Proof. sample_poll snapshot_before. Qed.

Example poll_after :
  loadSessions (terminal three_windows [1; 3]) default_prefixes 200
    (hashes_of snapshot_before) 6
    (Ok (snapshot_after, hashes_of snapshot_after)).
Proof. sample_poll snapshot_after. Qed.

Example poll_one_window :
  loadSessions (terminal [claude_window 1 "beta"] []) default_prefixes 200 ∅ 1
    (Ok (one_session, hashes_of one_session)).
Proof. sample_poll one_session. Qed.

Example poll_two_windows :
  loadSessions (terminal [claude_window 1 "beta"; claude_window 2 "alpha"] [])
    default_prefixes 200 (hashes_of one_session) 4
    (Ok (two_sessions, hashes_of two_sessions)).
Proof.
  sample_poll (reverse two_sessions). symmetry. apply reverse_Permutation.
Qed.

Example poll_tied_windows :
  loadSessions (terminal [claude_window 1 "claude"; claude_window 2 "claude"] [2])
    default_prefixes 200 ∅ 1
    (Ok (tied_sessions, hashes_of tied_sessions)).
Proof. sample_poll tied_sessions. Qed.

Example poll_unreachable :
  loadSessions unreachable_terminal default_prefixes 200 ∅ 1
    (Err "kitty @ ls: exit status 1").
Proof. by constructor. Qed.

(** ** [extractAI] *)

(** The cases of [TestExtractAI]. *)
Example extractAI_codex_binary :
  extractAI (window_of_cmdlines
    [["/Users/akira/.local/share/mise/installs/node/24.5.0/lib/node_modules/@openai/codex/vendor/aarch64-apple-darwin/codex/codex"]])
    default_prefixes = ("codex", true).
Proof. reflexivity. Qed.

Example extractAI_codex_script :
  extractAI (window_of_cmdlines
    [["node"; "/Users/akira/.local/share/mise/installs/node/24.5.0/bin/codex"]])
    default_prefixes = ("codex", true).
Proof. reflexivity. Qed.

Example extractAI_claude :
  extractAI (window_of_cmdlines [["/usr/local/bin/claude"]]) default_prefixes
  = ("claude", true).
Proof. reflexivity. Qed.

Example extractAI_gemini :
  extractAI (window_of_cmdlines [["gemini"; "chat"]]) default_prefixes = ("gemini", true).
Proof. reflexivity. Qed.

Example extractAI_node_only :
  extractAI (window_of_cmdlines [["node"; "/some/other/script.js"]]) default_prefixes
  = ("", false).
Proof. reflexivity. Qed.

Example extractAI_zsh :
  extractAI (window_of_cmdlines [["/bin/zsh"]]) default_prefixes = ("", false).
Proof. reflexivity. Qed.

Example extractAI_empty_cmdline :
  extractAI (window_of_cmdlines [[]]) default_prefixes = ("", false).
Proof. reflexivity. Qed.

Example extractAI_several_processes :
  extractAI (window_of_cmdlines
    [["node"; "/path/to/context7-mcp"]; ["python"; "/path/to/serena"];
     ["/path/to/@openai/codex/vendor/codex/codex"]])
    default_prefixes = ("codex", true).
Proof. reflexivity. Qed.

Lemma scan_prefixes_Some arg pfx p :
  scan_prefixes arg pfx = Some p -> p ∈ pfx /\ token_match arg p = true.
Proof.
  induction pfx as [|q qs IH]; simpl; [discriminate|].
  unfold token_match.
  destruct (base_match arg q) eqn:Hb.
  - intros [= <-]. rewrite Hb. split; [left | done].
  - destruct (path_match arg q) eqn:Hp.
    + intros [= <-]. rewrite Hb, Hp. split; [left | done].
    + intros H. destruct (IH H) as [Hin Hm]. split; [by right | done].
Qed.

Lemma scan_prefixes_None arg pfx :
  scan_prefixes arg pfx = None <-> forall p, p ∈ pfx -> token_match arg p = false.
Proof.
  induction pfx as [|q qs IH]; simpl.
  - split; [intros _ p Hp; inversion Hp | done].
  - unfold token_match in *.
    destruct (base_match arg q) eqn:Hb.
    + split; [discriminate|]. intros H. specialize (H q (list_elem_of_here _ _)).
      by rewrite Hb in H.
    + destruct (path_match arg q) eqn:Hp.
      * split; [discriminate|]. intros H. specialize (H q (list_elem_of_here _ _)).
        by rewrite Hb, Hp in H.
      * rewrite IH. split.
        -- intros H p Hin. apply elem_of_cons in Hin as [->|Hin]; [by rewrite Hb, Hp | auto].
        -- intros H p Hin. apply H. by right.
Qed.

Lemma scan_cmdline_Some cmdline pfx p :
  scan_cmdline cmdline pfx = Some p ->
  exists arg, arg ∈ cmdline /\ p ∈ pfx /\ token_match arg p = true.
Proof.
  induction cmdline as [|a rest IH]; simpl; [discriminate|].
  destruct (scan_prefixes a pfx) eqn:Hs.
  - intros [= <-]. apply scan_prefixes_Some in Hs as [? ?].
    exists a. split; [left | done].
  - intros H. destruct (IH H) as (arg & ? & ? & ?). exists arg. split; [by right | done].
Qed.

Lemma scan_cmdline_None cmdline pfx :
  scan_cmdline cmdline pfx = None <->
  forall arg p, arg ∈ cmdline -> p ∈ pfx -> token_match arg p = false.
Proof.
  induction cmdline as [|a rest IH]; simpl.
  - split; [intros _ arg p Ha; inversion Ha | done].
  - destruct (scan_prefixes a pfx) eqn:Hs.
    + split; [discriminate|]. intros H.
      apply scan_prefixes_Some in Hs as [Hin Hm].
      rewrite (H a s) in Hm; [discriminate | left | done].
    + rewrite IH. rewrite scan_prefixes_None in Hs. split.
      * intros H arg p Ha Hp. apply elem_of_cons in Ha as [->|Ha]; auto.
      * intros H arg p Ha Hp. apply H; [by right | done].
Qed.

(** A process with an empty command line is passed over like one whose
    tokens all fail. *)
Lemma scan_procs_cons proc rest pfx :
  scan_procs (proc :: rest) pfx =
  match scan_cmdline (proc_Cmdline proc) pfx with
  | Some p => Some p
  | None => scan_procs rest pfx
  end.
Proof. simpl. by destruct (proc_Cmdline proc). Qed.

Lemma scan_procs_Some procs pfx p :
  scan_procs procs pfx = Some p ->
  exists proc arg, proc ∈ procs /\ arg ∈ proc_Cmdline proc /\ p ∈ pfx /\ token_match arg p = true.
Proof.
  induction procs as [|proc rest IH]; [discriminate|].
  rewrite scan_procs_cons.
  destruct (scan_cmdline (proc_Cmdline proc) pfx) eqn:Hs.
  - intros [= <-]. apply scan_cmdline_Some in Hs as (arg & ? & ? & ?).
    exists proc, arg. split; [left | done].
  - intros H. destruct (IH H) as (pr & arg & ? & ?). exists pr, arg. split; [by right | done].
Qed.

Lemma scan_procs_None procs pfx :
  scan_procs procs pfx = None <->
  forall proc arg p, proc ∈ procs -> arg ∈ proc_Cmdline proc -> p ∈ pfx ->
                     token_match arg p = false.
Proof.
  induction procs as [|proc rest IH].
  - split; [intros _ proc arg p Ha; inversion Ha | done].
  - rewrite scan_procs_cons.
    destruct (scan_cmdline (proc_Cmdline proc) pfx) eqn:Hs.
    + split; [discriminate|]. intros H.
      apply scan_cmdline_Some in Hs as (arg & Ha & Hp & Hm).
      rewrite (H proc arg s) in Hm; [discriminate | left | done | done].
    + rewrite IH. rewrite scan_cmdline_None in Hs. split.
      * intros H pr arg p Hpr Ha Hp. apply elem_of_cons in Hpr as [->|Hpr]; eauto.
      * intros H pr arg p Hpr Ha Hp. apply (H pr arg p); [by right | done | done].
Qed.

(** What the code decides: found exactly when some token of some process
    passes the code's own test against some prefix. *)
Lemma extractAI_found_iff win pfx :
  snd (extractAI win pfx) = true <->
  exists proc arg p, proc ∈ win_ForegroundProcesses win /\ arg ∈ proc_Cmdline proc
                     /\ p ∈ pfx /\ token_match arg p = true.
Proof.
  unfold extractAI.
  destruct (scan_procs (win_ForegroundProcesses win) pfx) eqn:Hs; simpl.
  - split; [|done]. intros _. apply scan_procs_Some in Hs as (proc & arg & ? & ? & ? & ?).
    by exists proc, arg, s.
  - split; [discriminate|]. intros (proc & arg & p & Hpr & Ha & Hp & Hm).
    rewrite scan_procs_None in Hs. by rewrite (Hs proc arg p) in Hm.
Qed.

Lemma extractAI_not_found win pfx :
  snd (extractAI win pfx) = false -> extractAI win pfx = (EmptyString, false).
Proof. unfold extractAI. by destruct (scan_procs _ _). Qed.

Lemma HasPrefix_app_l s a b : HasPrefix s (a +:+ b) = true -> HasPrefix s a = true.
Proof.
  revert s. induction a as [|c a IH]; intros [|d s]; simpl; try done.
  intros [-> H]%andb_true_iff. simpl. eauto.
Qed.

Lemma Contains_app_l s a b : Contains s (a +:+ b) = true -> Contains s a = true.
Proof.
  induction s as [|c s IH]; cbn [Contains].
  - rewrite !orb_false_r. apply HasPrefix_app_l.
  - intros [H|H]%orb_true_iff; apply orb_true_iff; [left | right; auto].
    by apply HasPrefix_app_l in H.
Qed.

Lemma HasPrefix_refl s : HasPrefix s s = true.
Proof. induction s as [|c s IH]; simpl; [done|]. by rewrite Ascii.eqb_refl. Qed.

Lemma HasSuffix_Contains s a : HasSuffix s a = true -> Contains s a = true.
Proof.
  induction s as [|c s IH]; cbn [HasSuffix Contains].
  - rewrite !orb_false_r. intros <-%String.eqb_eq. done.
  - intros [H|H]%orb_true_iff; apply orb_true_iff.
    + apply String.eqb_eq in H. subst a. left. apply (HasPrefix_refl (String c s)).
    + right. auto.
Qed.

(** The condition of the specification implies the test of the code. *)
Lemma spec_match_token_match arg p : spec_match arg p = true -> token_match arg p = true.
Proof.
  unfold spec_match, token_match, base_match, path_match.
  intros [[H|H]%orb_true_iff|H]%orb_true_iff.
  - by rewrite H.
  - rewrite H. by rewrite orb_true_r.
  - apply HasSuffix_Contains in H. rewrite H. by rewrite !orb_true_r.
Qed.

(** A token that satisfies the condition of the specification makes the
    window found. *)
Lemma extractAI_spec_match_found win pfx proc arg p :
  proc ∈ win_ForegroundProcesses win -> arg ∈ proc_Cmdline proc -> p ∈ pfx ->
  spec_match arg p = true -> snd (extractAI win pfx) = true.
Proof.
  intros Hproc Harg Hp Hm. apply extractAI_found_iff.
  exists proc, arg, p. by auto using spec_match_token_match.
Qed.

(** A window without processes, or whose processes all have an empty command
    line, is not found. *)
Lemma extractAI_no_tokens win pfx :
  (forall proc, proc ∈ win_ForegroundProcesses win -> proc_Cmdline proc = []) ->
  extractAI win pfx = (EmptyString, false).
Proof.
  intros Hempty. apply extractAI_not_found.
  destruct (snd (extractAI win pfx)) eqn:Hfound; [|done].
  apply extractAI_found_iff in Hfound as (proc & arg & p & Hproc & Harg & _).
  rewrite (Hempty proc Hproc) in Harg. by apply elem_of_nil in Harg.
Qed.
















(** C6.  [extractAI] at a window whose only path token has a directory that
    merely begins with a prefix: no token satisfies the condition of the
    specification against any prefix, and the window is reported as found. *)
Theorem extractAI_found_without_path_component :
  extractAI (window_of_cmdlines [["vim"; "/home/user/claude-notes/todo.md"]])
            default_prefixes = ("claude", true)
  /\ forall proc arg p,
       proc ∈ win_ForegroundProcesses
                (window_of_cmdlines [["vim"; "/home/user/claude-notes/todo.md"]]) ->
       arg ∈ proc_Cmdline proc -> p ∈ default_prefixes ->
       spec_match arg p = false.
Proof.
  split; [reflexivity|].
  intros proc arg p Hproc Harg Hp. simpl in Hproc.
  apply list_elem_of_singleton in Hproc. subst proc. simpl in Harg.
  unfold default_prefixes in Hp.
  repeat (apply elem_of_cons in Harg as [->|Harg]);
    repeat (apply elem_of_cons in Hp as [->|Hp]);
    try reflexivity; try (by apply elem_of_nil in Hp); by apply elem_of_nil in Harg.
Qed.

(** ** The status classifier *)

(** The cases of [TestInferStatus], on the classifier they were written for
    and on the one [loadSessions] calls now. *)
Example heuristic_empty : HeuristicOnly.inferStatus [] = "IDLE".
Proof. reflexivity. Qed.

Example heuristic_waiting_input :
  HeuristicOnly.inferStatus ["Processing..."; "Waiting for user input"] = "WAITING".
Proof. reflexivity. Qed.

Example heuristic_waiting_approval :
  HeuristicOnly.inferStatus ["Changes ready"; "Press enter to approve"] = "WAITING".
Proof. reflexivity. Qed.

Example heuristic_done :
  HeuristicOnly.inferStatus ["Task completed successfully"] = "DONE".
Proof. reflexivity. Qed.

Example heuristic_running :
  HeuristicOnly.inferStatus ["Executing command..."; "Reading files..."] = "RUNNING".
Proof. reflexivity. Qed.

Example inferStatus_empty : inferStatus [] = "IDLE".
Proof. reflexivity. Qed.

Example inferStatus_waiting_input :
  inferStatus ["Processing..."; "Waiting for user input"] = "WAITING".
Proof. reflexivity. Qed.

Example inferStatus_waiting_approval :
  inferStatus ["Changes ready"; "Press enter to approve"] = "WAITING".
Proof. reflexivity. Qed.

Example inferStatus_running_case :
  inferStatus ["Executing command..."; "Reading files..."] = "IDLE".
Proof. reflexivity. Qed.

Lemma inferStatus_cases lines :
  inferStatus lines = "WAITING" \/ inferStatus lines = "IDLE".
Proof.
  unfold inferStatus. destruct lines as [|l ls]; [by right|].
  repeat match goal with |- context [if ?b then _ else _] => destruct b end; auto.
Qed.

Lemma determineStatus_cases prev winID lines :
  determineStatus prev winID lines = "RUNNING"
  \/ determineStatus prev winID lines = inferStatus lines.
Proof.
  unfold determineStatus.
  destruct (prev !! winID) as [h|];
    match goal with |- context [if ?b then _ else _] => destruct b end; auto.
Qed.

(** In the heuristic-only classifier, content that no earlier rule claims is
    DONE when a completion word occurs in the last twenty lines and RUNNING
    otherwise. *)
Lemma heuristic_inferStatus_fallthrough lines :
  lines <> [] ->
  HeuristicOnly.prompt_rule lines = false ->
  HeuristicOnly.waiting_rule lines = false ->
  HeuristicOnly.inferStatus lines
  = if HeuristicOnly.done_rule lines then "DONE" else "RUNNING".
Proof.
  intros Hne Hp Hw. unfold HeuristicOnly.inferStatus.
  destruct lines; [done|]. by rewrite Hp, Hw.
Qed.

(** C2 (as amended).  A window without content lines is IDLE when no previous
    fingerprint is recorded for it or the recorded one is empty as well; a
    recorded fingerprint that is not empty counts as changed output, and the
    status is RUNNING. *)
Theorem determineStatus_no_lines (prev : gmap Z string) (winID : Z) :
  determineStatus prev winID [] =
  match prev !! winID with
  | None => "IDLE"
  | Some h => if String.eqb h EmptyString then "IDLE" else "RUNNING"
  end.
Proof.
  unfold determineStatus. destruct (prev !! winID) as [h|]; [|reflexivity].
  change (currentHash []) with EmptyString.
  rewrite String.eqb_sym. by destruct (String.eqb h EmptyString).
Qed.

(** A window that showed a shell command at the previous poll and shows
    nothing now. *)
Lemma determineStatus_no_lines_after_output :
  determineStatus {[ 7 := "$ make" ]} 7 [] = "RUNNING"
  /\ determineStatus {[ 7 := "$ make" ]} 7 [] <> "IDLE".
Proof. split; [reflexivity | discriminate]. Qed.

(** C3.  The first poll of a window (no fingerprint recorded) whose content is
    the line of the test case named "done": the program answers IDLE, the
    heuristic-only classifier and [TestInferStatus] say DONE. *)
Theorem first_poll_completed_task :
  (∅ : gmap Z string) !! 1 = None
  /\ determineStatus ∅ 1 ["Task completed successfully"] = "IDLE"
  /\ inferStatus ["Task completed successfully"] = "IDLE"
  /\ HeuristicOnly.inferStatus ["Task completed successfully"] = "DONE".
Proof. repeat split. Qed.

Lemma determineStatus_three prev winID lines :
  determineStatus prev winID lines = "RUNNING"
  \/ determineStatus prev winID lines = "IDLE"
  \/ determineStatus prev winID lines = "WAITING".
Proof.
  destruct (determineStatus_cases prev winID lines) as [-> | ->]; [auto|].
  destruct (inferStatus_cases lines) as [-> | ->]; auto.
Qed.

Lemma sessionOfWindow_status tr maxl prev now tab win ai :
  Status (sessionOfWindow tr maxl prev now tab win ai) <> "DONE".
Proof.
  simpl. destruct (determineStatus_three prev (win_ID win) (normalizeLines
    match kittyGetText tr (win_ID win) with Ok t => t | Err _ => EmptyString end maxl))
    as [-> | [-> | ->]]; discriminate.
Qed.

(** No session of a poll result is DONE. *)
Lemma collectSessions_status tr pfx maxl prev now osWindows s :
  s ∈ fst (collectSessions tr pfx maxl prev now osWindows) -> Status s <> "DONE".
Proof.
  unfold collectSessions.
  assert (forall wins (acc : list session * gmap Z string),
    (forall s, s ∈ fst acc -> Status s <> "DONE") ->
    forall s, s ∈ fst (fold_left (collect_step tr pfx maxl prev now) wins acc) ->
              Status s <> "DONE") as H.
  { induction wins as [|[tab win] wins IH]; intros [ss hs] Hacc; [exact Hacc|].
    simpl fold_left. apply IH. unfold collect_step.
    destruct (extractAI win pfx) as [ai [|]]; [|exact Hacc].
    intros s' [Hs'|Hs']%elem_of_app; [by apply Hacc|].
    apply list_elem_of_singleton in Hs'. subst s'. apply sessionOfWindow_status. }
  apply H. intros s' Hs'. by apply elem_of_nil in Hs'.
Qed.

Lemma loadSessions_status tr pfx maxl prev now ss hashes s :
  loadSessions tr pfx maxl prev now (Ok (ss, hashes)) -> s ∈ ss -> Status s <> "DONE".
Proof.
  intros Hload Hs. inversion Hload as [|ws sorted Hws [Hperm _]]; subst.
  apply (collectSessions_status tr pfx maxl prev now ws). by rewrite <- Hperm.
Qed.

(** C10.  The status the fingerprint-aware program gives a session is RUNNING,
    IDLE or WAITING and never DONE, for every text of the window and every
    table of previous fingerprints; [inferStatus], which decides when the
    output is unchanged or the window is new, answers WAITING or IDLE. *)
Theorem status_never_DONE (tr : transport) (maxl : Z) (prev : gmap Z string) (now : Z)
    (tab : kittyTab) (win : kittyWindow) (ai : string) (winID : Z) (lines : list string) :
  (determineStatus prev winID lines = "RUNNING"
   \/ determineStatus prev winID lines = "IDLE"
   \/ determineStatus prev winID lines = "WAITING")
  /\ determineStatus prev winID lines <> "DONE"
  /\ Status (sessionOfWindow tr maxl prev now tab win ai) <> "DONE"
  /\ (inferStatus lines = "WAITING" \/ inferStatus lines = "IDLE").
Proof.
  split; [apply determineStatus_three|]. split.
  - destruct (determineStatus_three prev winID lines) as [-> | [-> | ->]]; discriminate.
  - split; [apply sessionOfWindow_status | apply inferStatus_cases].
Qed.

(** ** Filtering by status *)

Lemma filter_sublist {A} (f : A -> bool) (l : list A) : sublist (List.filter f l) l.
Proof.
  induction l as [|x l IH]; simpl; [constructor|].
  destruct (f x); by constructor.
Qed.

Lemma filter_filter_same {A} (f : A -> bool) (l : list A) :
  List.filter f (List.filter f l) = List.filter f l.
Proof.
  induction l as [|x l IH]; simpl; [done|].
  destruct (f x) eqn:Hx; simpl; [rewrite Hx; by f_equal | done].
Qed.

Lemma filter_len_le {A} (f : A -> bool) (l : list A) : len (List.filter f l) <= len l.
Proof. unfold len. pose proof (sublist_length _ _ (filter_sublist f l)). lia. Qed.

Lemma filteredSessions_len_le m : len (filteredSessions m) <= len (sessions m).
Proof.
  unfold filteredSessions. destruct (String.eqb _ _); [lia | apply filter_len_le].
Qed.

(** C9.  [filteredSessions] with the empty filter returns the sessions as they
    are; with a status [s] it returns the sessions whose status is [s], each
    of them and no other, in their order; and filtering its own result again
    by the same status changes nothing. *)
Theorem filteredSessions_projection (m : model) (s : string) :
  filteredSessions (set_statusFilter EmptyString m) = sessions m
  /\ filteredSessions (set_statusFilter s m)
     = (if String.eqb s EmptyString then sessions m
        else List.filter (fun x => String.eqb (Status x) s) (sessions m))
  /\ sublist (filteredSessions (set_statusFilter s m)) (sessions m)
  /\ (forall x, x ∈ filteredSessions (set_statusFilter s m) <->
                x ∈ sessions m /\ (s = EmptyString \/ Status x = s))
  /\ filteredSessions (set_sessions (filteredSessions m) m) = filteredSessions m.
Proof.
  split; [reflexivity|]. split; [reflexivity|]. split; [|split].
  - unfold filteredSessions; simpl. destruct (String.eqb s EmptyString); [done|].
    apply filter_sublist.
  - intros x. unfold filteredSessions; simpl.
    destruct (String.eqb_spec s EmptyString) as [->|Hs].
    + split; [intros H; split; auto | by intros [H _]].
    + rewrite list_elem_of_In, filter_In, <- list_elem_of_In, String.eqb_eq.
      split; intros [H1 H2]; split; auto. by destruct H2.
  - unfold filteredSessions; simpl. destruct (String.eqb (statusFilter m) EmptyString); [done|].
    apply filter_filter_same.
Qed.

(** ** The selection of the Sessions panel *)

(** [selection_ok] reads three fields of the model. *)
Lemma selection_ok_ext m m' :
  sessions m' = sessions m -> statusFilter m' = statusFilter m ->
  selected m' = selected m -> selection_ok m -> selection_ok m'.
Proof.
  unfold selection_ok, filteredSessions. intros -> -> ->. done.
Qed.

Lemma selection_ok_zero m : selection_ok (set_selected 0 m).
Proof.
  unfold selection_ok. simpl.
  change (filteredSessions (set_selected 0 m)) with (filteredSessions m).
  destruct (filteredSessions m) as [|x l]; [by right|].
  left. unfold len. simpl length. lia.
Qed.

Lemma selection_ok_clear_filter m :
  selection_ok m -> selection_ok (set_statusFilter EmptyString m).
Proof.
  unfold selection_ok. simpl.
  change (filteredSessions (set_statusFilter EmptyString m)) with (sessions m).
  pose proof (filteredSessions_len_le m) as Hle.
  intros [H|[Hnil H0]]; [left; lia|].
  rewrite H0. destruct (sessions m) as [|x l]; [by right|].
  left. unfold len. simpl length. lia.
Qed.

Ltac same_selection H :=
  first [ exact H | eapply selection_ok_ext; [| | | exact H]; reflexivity ].

(** Every key press keeps the selection inside the shown list: moving up and
    down, switching panel, toggling and clearing the filter, starting,
    editing, confirming and cancelling a rename. *)
Lemma Update_key_selection_ok now m k :
  selection_ok m -> selection_ok (fst (Update now m (KeyMsg k))).
Proof.
  intros H. unfold Update. destruct (renaming m).
  - unfold Update_renaming.
    destruct (key_Type k); try destruct (selectedSession m);
      try destruct (0 <? len (renameInput m)); simpl; same_selection H.
  - unfold Update_browsing.
    destruct (key_is k "q" || key_is k "ctrl+c"); [exact H|].
    destruct (key_is k "tab"); [simpl; same_selection H|].
    destruct (key_is k "esc").
    { eapply selection_ok_ext; [| | | exact (selection_ok_clear_filter m H)]; reflexivity. }
    destruct (key_is k "enter").
    { destruct (focusedPanel m =? 0); [destruct (selectedSession m); exact H|].
      destruct (selectedStatus m) as [status|]; [|exact H]. simpl.
      destruct (String.eqb (statusFilter m) status).
      - eapply selection_ok_ext;
          [| | | exact (selection_ok_zero (set_statusFilter EmptyString m))]; reflexivity.
      - eapply selection_ok_ext;
          [| | | exact (selection_ok_zero (set_statusFilter status m))]; reflexivity. }
    destruct (key_is k "r").
    { destruct (focusedPanel m =? 0); [|exact H].
      destruct (selectedSession m); simpl; same_selection H. }
    destruct (key_is k "up" || key_is k "k").
    { destruct (focusedPanel m =? 0).
      - destruct (Z.ltb_spec 0 (selected m)); simpl; [|exact H].
        unfold selection_ok in *. simpl.
        change (filteredSessions (set_selected (selected m - 1) m)) with (filteredSessions m).
        destruct H as [H|[_ H]]; lia.
      - destruct (0 <? statusSelected m); simpl; same_selection H. }
    destruct (key_is k "down" || key_is k "j"); [|exact H].
    destruct (focusedPanel m =? 0).
    + destruct (Z.ltb_spec (selected m) (len (filteredSessions m) - 1)); simpl; [|exact H].
      unfold selection_ok in *. simpl.
      change (filteredSessions (set_selected (selected m + 1) m)) with (filteredSessions m).
      destruct H as [H|[Hnil H]]; [lia|].
      rewrite Hnil in *. unfold len in *. simpl in *. lia.
    + destruct (statusSelected m <? len (availableStatuses m) - 1); simpl; same_selection H.
Qed.

(** So does every message that is neither a key press nor a new snapshot. *)
Lemma Update_other_selection_ok now m msg :
  replaces_snapshot msg = false ->
  selection_ok m -> selection_ok (fst (Update now m msg)).
Proof.
  intros Hmsg H. destruct msg as [k| | | |e| |]; try discriminate.
  - by apply Update_key_selection_ok.
  - simpl; same_selection H.
  - simpl; same_selection H.
  - destruct e; simpl; same_selection H.
  - simpl; same_selection H.
  - exact H.
Qed.

(** The fields of the model after a new snapshot. *)
Lemma Update_sessionsMsg_fields now m ss hashes :
  let m' := fst (Update now m (sessionsMsg ss hashes)) in
  sessions m' = ss
  /\ prevHashes m' = hashes
  /\ statusFilter m' = statusFilter m
  /\ err m' = err m
  /\ selected m' = (if len ss <=? selected m
                    then (if len ss - 1 <? 0 then 0 else len ss - 1)
                    else selected m).
Proof.
  simpl. destruct (len ss <=? selected m); simpl; [|done].
  destruct (len ss - 1 <? 0); done.
Qed.

(** A new snapshot keeps it while no status filter is active: the index is
    clamped against the length of the whole snapshot. *)
Lemma Update_sessions_unfiltered_selection_ok now m ss hashes :
  statusFilter m = EmptyString ->
  selection_ok m -> selection_ok (fst (Update now m (sessionsMsg ss hashes))).
Proof.
  intros Hf H.
  destruct (Update_sessionsMsg_fields now m ss hashes) as (Hs & _ & Hfl & _ & Hsel).
  assert (0 <= selected m) as Hpos by (destruct H as [H|[_ H]]; lia).
  unfold selection_ok, filteredSessions. rewrite Hfl, Hf, Hs, Hsel. simpl.
  destruct (Z.leb_spec (len ss) (selected m)) as [Hge|Hlt]; [|left; lia].
  destruct (Z.ltb_spec (len ss - 1) 0) as [Hneg|Hnn]; [|left; lia].
  right. split; [|done]. destruct ss; [done|]. unfold len in Hneg. simpl in Hneg. lia.
Qed.

Lemma run_cons m now msg trace :
  run m ((now, msg) :: trace) = run (fst (Update now m msg)) trace.
Proof. reflexivity. Qed.

Lemma run_selection_ok trace : forall m,
  Forall (fun step => replaces_snapshot (snd step) = false) trace ->
  selection_ok m -> selection_ok (run m trace).
Proof.
  induction trace as [|[now msg] trace IH]; intros m Hall H; [exact H|].
  rewrite run_cons. inversion Hall; subst. apply IH; [done|].
  by apply Update_other_selection_ok.
Qed.

Lemma start_model_selection_ok : selection_ok start_model.
Proof. right. split; reflexivity. Qed.

Example sample_statuses :
  determineStatus ∅ 1 running_lines = "RUNNING" /\ determineStatus ∅ 2 idle_lines = "IDLE".
Proof. split; reflexivity. Qed.

(** C1.  [Update] on a poll result that arrives while a status filter is
    active: the index is compared with the length of the whole snapshot, and
    it stays at 1 although the filtered list has shrunk to one session. *)
Theorem selection_outside_filtered_list :
  statusFilter (run start_model filter_then_poll) = "IDLE"
  /\ selected (run start_model filter_then_poll) = 1
  /\ len (sessions (run start_model filter_then_poll)) = 3
  /\ len (filteredSessions (run start_model filter_then_poll)) = 1
  /\ ~ selection_ok (run start_model filter_then_poll).
Proof.
  assert (selected (run start_model filter_then_poll) = 1) as Hsel by (vm_compute; reflexivity).
  assert (len (filteredSessions (run start_model filter_then_poll)) = 1) as Hlen
    by (vm_compute; reflexivity).
  split; [vm_compute; reflexivity|]. split; [exact Hsel|].
  split; [vm_compute; reflexivity|]. split; [exact Hlen|].
  unfold selection_ok. rewrite Hsel, Hlen. intros [H|[_ H]]; lia.
Qed.

(** ** Renaming *)

Lemma selectedSession_ext m m' :
  sessions m' = sessions m -> statusFilter m' = statusFilter m ->
  selected m' = selected m -> selectedSession m' = selectedSession m.
Proof. unfold selectedSession, filteredSessions. intros -> -> ->. done. Qed.

(** While a rename is open, a message that neither ends it nor brings a new
    snapshot leaves the sessions, the filter and the selection alone. *)
Lemma Update_while_renaming now m msg :
  renaming m = true ->
  replaces_snapshot msg = false -> ends_rename msg = false ->
  renaming (fst (Update now m msg)) = true
  /\ sessions (fst (Update now m msg)) = sessions m
  /\ statusFilter (fst (Update now m msg)) = statusFilter m
  /\ selected (fst (Update now m msg)) = selected m.
Proof.
  intros Hren Hsnap Hend.
  destruct msg as [k| | | |e| |]; try discriminate; simpl; try done.
  - rewrite Hren. unfold Update_renaming. simpl in Hend.
    destruct (key_Type k); try discriminate; simpl; try done.
    destruct (0 <? len (renameInput m)); done.
  - destruct e; done.
Qed.

Lemma run_while_renaming trace : forall m,
  renaming m = true ->
  Forall (fun step => replaces_snapshot (snd step) = false
                      /\ ends_rename (snd step) = false) trace ->
  renaming (run m trace) = true
  /\ selectedSession (run m trace) = selectedSession m.
Proof.
  induction trace as [|[now msg] trace IH]; intros m Hren Hall; [done|].
  rewrite run_cons. inversion Hall as [|? ? [Hs He] Hrest]; subst. simpl in Hs, He.
  destruct (Update_while_renaming now m msg Hren Hs He) as (Hr & H1 & H2 & H3).
  destruct (IH _ Hr Hrest) as [Hr' Hsel]. split; [done|].
  rewrite Hsel. by apply selectedSession_ext.
Qed.

Lemma Update_rename_start now m s k :
  renaming m = false -> focusedPanel m = 0 -> selectedSession m = Some s ->
  key_String k = "r" ->
  fst (Update now m (KeyMsg k))
  = set_renameInput (runes_of_string (Title s)) (set_renaming true m).
Proof.
  intros Hren Hfocus Hsel Hk. unfold Update. rewrite Hren.
  unfold Update_browsing, key_is. rewrite Hk, Hfocus, Hsel. reflexivity.
Qed.

(** While no poll result arrives between the start of a rename and its
    confirmation, whatever keys are pressed and whatever other messages
    arrive in between, the confirmation emits the rename command for the
    window of the session that was selected when the rename started, with
    the buffer at that moment as the title, and leaves the renaming mode. *)
Lemma rename_targets_selected_session (m : model) (s : session) (k_r k_enter : Key)
    (now1 now2 : Z) (trace : list (Z * Msg)) :
  renaming m = false -> focusedPanel m = 0 -> selectedSession m = Some s ->
  key_String k_r = "r" -> key_Type k_enter = KeyEnter ->
  Forall (fun step => replaces_snapshot (snd step) = false
                      /\ ends_rename (snd step) = false) trace ->
  renaming (fst (Update now1 m (KeyMsg k_r))) = true
  /\ renameInput (fst (Update now1 m (KeyMsg k_r))) = runes_of_string (Title s)
  /\ snd (Update now2 (run (fst (Update now1 m (KeyMsg k_r))) trace) (KeyMsg k_enter))
     = Some (renameCmd (WindowID s)
               (string_of_runes
                  (renameInput (run (fst (Update now1 m (KeyMsg k_r))) trace))))
  /\ renaming (fst (Update now2 (run (fst (Update now1 m (KeyMsg k_r))) trace)
                      (KeyMsg k_enter))) = false.
Proof.
  intros Hren Hfocus Hsel Hr Henter Hall.
  rewrite (Update_rename_start now1 m s k_r Hren Hfocus Hsel Hr).
  set (m1 := set_renameInput (runes_of_string (Title s)) (set_renaming true m)).
  split; [reflexivity|]. split; [reflexivity|].
  destruct (run_while_renaming trace m1 eq_refl Hall) as [Hren2 Hsel2].
  assert (selectedSession (run m1 trace) = Some s) as Hsel3.
  { rewrite Hsel2, <- Hsel. by apply selectedSession_ext. }
  unfold Update. rewrite Hren2. unfold Update_renaming. rewrite Henter, Hsel3.
  split; reflexivity.
Qed.

Lemma rename_targets_selected_session_witness :
  snd (Update 8 (run (fst (Update 2 model_with_one_session (KeyMsg key_r))) rename_edits)
         (KeyMsg (key_of_type KeyEnter)))
  = Some (renameCmd 1 "beta ").
Proof.
  pose proof (rename_targets_selected_session model_with_one_session
    (sample_session 1 1 "beta" "claude" "IDLE" idle_lines) key_r (key_of_type KeyEnter)
    2 8 rename_edits eq_refl eq_refl eq_refl eq_refl eq_refl) as H.
  destruct H as (_ & _ & H & _).
  - repeat constructor.
  - rewrite H. vm_compute. reflexivity.
Defined.

(** C7.  [Update] on a rename with a poll result in between.  The operator
    starts the rename on the only session (window 1, "beta"): the buffer is
    filled with the title of that session.  A letter is typed, and a poll
    reports a second window (window 2, "alpha"), which sorts before the
    first: the snapshot is the one [loadSessions] returns, and the one the
    sort of the library produces.  Enter then reads the session at the selected index of the new
    snapshot: the rename command goes to window 2, with the edited title of
    window 1, and not to the window that was selected when the rename
    started. *)
Theorem rename_across_poll_hits_other_window :
  selectedSession model_with_one_session
  = Some (sample_session 1 1 "beta" "claude" "IDLE" idle_lines)
  /\ renameInput (fst (Update 2 model_with_one_session (KeyMsg key_r)))
     = runes_of_string "beta"
  /\ loadSessions (terminal [claude_window 1 "beta"; claude_window 2 "alpha"] [])
       default_prefixes 200 (hashes_of one_session) 4
       (Ok (two_sessions, hashes_of two_sessions))
  /\ Deterministic.sortSessions
       (fst (collectSessions (terminal [claude_window 1 "beta"; claude_window 2 "alpha"] [])
               default_prefixes 200 (hashes_of one_session) 4
               (listing [claude_window 1 "beta"; claude_window 2 "alpha"])))
     = two_sessions
  /\ renaming (run model_with_one_session rename_across_poll) = true
  /\ selected (run model_with_one_session rename_across_poll) = 0
  /\ snd (Update 5 (run model_with_one_session rename_across_poll)
            (KeyMsg (key_of_type KeyEnter)))
     = Some (renameCmd 2 "betax")
  /\ WindowID (sample_session 1 1 "beta" "claude" "IDLE" idle_lines) <> 2.
Proof.
  split; [reflexivity|]. split; [reflexivity|]. split; [exact poll_two_windows|].
  split; [vm_compute; reflexivity|].
  split; [vm_compute; reflexivity|]. split; [vm_compute; reflexivity|].
  split; [vm_compute; reflexivity | discriminate].
Qed.

(** ** A failed poll *)

Lemma loadSessions_fails tr pfx maxl prev now e :
  kittyList tr = Err e ->
  forall r, loadSessions tr pfx maxl prev now r -> refresh_message r = errorMsg e.
Proof.
  intros He r Hr. destruct Hr as [e' He'|ws sorted Hws _]; [|congruence].
  rewrite He in He'. by injection He' as ->.
Qed.

(** C8 (as amended).  A failed poll reaches [Update] as an error: it records
    the error and the time and changes nothing else, so the snapshot, the
    selection, the filter and the fingerprint table stay, and no command is
    issued.  The recorded error is replaced by the next error; a later
    successful poll replaces the snapshot and the table and leaves the
    recorded error in place. *)
Theorem poll_failure_keeps_snapshot (now now' : Z) (m : model) (e e' : error)
    (ss : list session) (hashes : gmap Z string) :
  Update now m (errorMsg e) = (set_lastUpdate now (set_err (Some e) m), None)
  /\ sessions (fst (Update now m (errorMsg e))) = sessions m
  /\ prevHashes (fst (Update now m (errorMsg e))) = prevHashes m
  /\ selected (fst (Update now m (errorMsg e))) = selected m
  /\ statusFilter (fst (Update now m (errorMsg e))) = statusFilter m
  /\ err (fst (Update now m (errorMsg e))) = Some e
  /\ err (fst (Update now' (fst (Update now m (errorMsg e))) (errorMsg e'))) = Some e'
  /\ err (fst (Update now' (fst (Update now m (errorMsg e))) (sessionsMsg ss hashes)))
     = Some e
  /\ sessions (fst (Update now' (fst (Update now m (errorMsg e))) (sessionsMsg ss hashes)))
     = ss
  /\ prevHashes (fst (Update now' (fst (Update now m (errorMsg e))) (sessionsMsg ss hashes)))
     = hashes.
Proof.
  repeat (split; [reflexivity|]).
  destruct (Update_sessionsMsg_fields now' (fst (Update now m (errorMsg e))) ss hashes)
    as (Hs & Hh & _ & He & _).
  split; [exact He|]. split; [exact Hs | exact Hh].
Qed.

(** The error of a failed poll is still recorded after the next successful
    poll. *)
Lemma error_survives_successful_poll :
  sessions (run start_model failure_then_success) = one_session
  /\ err (run start_model failure_then_success) = Some "kitty @ ls: exit status 1"
  /\ err (run start_model failure_then_success) <> None.
Proof. split; [reflexivity|]. split; [reflexivity | discriminate]. Qed.

(** ** The repository order *)

(** Go's [<] on strings is a strict total order. *)
Lemma string_compare_refl s : String.compare s s = Eq.
Proof.
  induction s as [|c s IH]; simpl; [done|].
  unfold Ascii.compare. by rewrite N.compare_refl.
Qed.

Lemma string_compare_lt_trans a : forall b c,
  String.compare a b = Lt -> String.compare b c = Lt -> String.compare a c = Lt.
Proof.
  induction a as [|x a IH]; intros [|y b] [|z c]; simpl; try done.
  unfold Ascii.compare.
  destruct (N.compare_spec (N_of_ascii x) (N_of_ascii y)) as [Hxy|Hxy|Hxy]; try done;
    destruct (N.compare_spec (N_of_ascii y) (N_of_ascii z)) as [Hyz|Hyz|Hyz]; try done;
    destruct (N.compare_spec (N_of_ascii x) (N_of_ascii z)) as [Hxz|Hxz|Hxz];
    try done; try lia.
  apply IH.
Qed.

Lemma string_ltb_irrefl s : String.ltb s s = false.
Proof. unfold String.ltb. by rewrite string_compare_refl. Qed.

Lemma string_ltb_trans a b c :
  String.ltb a b = true -> String.ltb b c = true -> String.ltb a c = true.
Proof.
  unfold String.ltb.
  destruct (String.compare a b) eqn:Hab; try done.
  destruct (String.compare b c) eqn:Hbc; try done.
  by rewrite (string_compare_lt_trans a b c Hab Hbc).
Qed.

Lemma string_ltb_total a b : String.ltb a b = true \/ a = b \/ String.ltb b a = true.
Proof.
  unfold String.ltb. rewrite (String.compare_antisym b a).
  destruct (String.compare a b) eqn:Hab; simpl; auto.
  right; left. by apply String.compare_eq_iff.
Qed.

Lemma string_ltb_asym a b : String.ltb a b = true -> String.ltb b a = false.
Proof.
  intros Hab. destruct (String.ltb b a) eqn:Hba; [|done].
  pose proof (string_ltb_trans a b a Hab Hba) as H.
  by rewrite string_ltb_irrefl in H.
Qed.

(** So is the order on keys: AI name first, title second. *)
Lemma key_lt_irrefl k : key_lt k k = false.
Proof. unfold key_lt. rewrite String.eqb_refl. apply string_ltb_irrefl. Qed.

Lemma key_lt_trans k1 k2 k3 :
  key_lt k1 k2 = true -> key_lt k2 k3 = true -> key_lt k1 k3 = true.
Proof.
  destruct k1 as [a1 t1], k2 as [a2 t2], k3 as [a3 t3]. unfold key_lt. simpl.
  destruct (String.eqb_spec a1 a2) as [E12|H12];
    destruct (String.eqb_spec a2 a3) as [E23|H23];
    destruct (String.eqb_spec a1 a3) as [E13|H13]; subst; try done.
  - apply string_ltb_trans.
  - intros Ha Hb. pose proof (string_ltb_trans _ _ _ Ha Hb) as Hc.
    by rewrite string_ltb_irrefl in Hc.
  - apply string_ltb_trans.
Qed.

Lemma key_lt_total k1 k2 : key_lt k1 k2 = true \/ k1 = k2 \/ key_lt k2 k1 = true.
Proof.
  destruct k1 as [a1 t1], k2 as [a2 t2]. unfold key_lt. simpl.
  rewrite (String.eqb_sym a2 a1).
  destruct (String.eqb_spec a1 a2) as [->|Hne].
  - destruct (string_ltb_total t1 t2) as [H|[->|H]]; auto.
  - destruct (string_ltb_total a1 a2) as [H|[->|H]]; auto.
Qed.

Lemma key_lt_asym k1 k2 : key_lt k1 k2 = true -> key_lt k2 k1 = false.
Proof.
  intros H12. destruct (key_lt k2 k1) eqn:H21; [|done].
  pose proof (key_lt_trans _ _ _ H12 H21) as H. by rewrite key_lt_irrefl in H.
Qed.

#[local] Instance key_le_trans : Transitive key_le.
Proof.
  intros k1 k2 k3. unfold key_le. intros H21 H32.
  destruct (key_lt k3 k1) eqn:H31; [|done].
  destruct (key_lt_total k1 k2) as [H|[->|H]]; [|congruence|congruence].
  pose proof (key_lt_trans _ _ _ H31 H). congruence.
Qed.

#[local] Instance key_le_antisym : AntiSymm (=) key_le.
Proof.
  intros k1 k2. unfold key_le. intros H21 H12.
  destruct (key_lt_total k1 k2) as [H|[->|H]]; congruence.
Qed.

Lemma session_less_key a b : session_less a b = key_lt (sort_key a) (sort_key b).
Proof. reflexivity. Qed.

Lemma in_order_key_le a b : in_order a b <-> key_le (sort_key a) (sort_key b).
Proof.
  unfold in_order, key_le, key_lt, sort_key. simpl.
  destruct (String.eqb_spec (AI b) (AI a)) as [Heq|Hne].
  - rewrite Heq. rewrite string_ltb_irrefl. split; [by intros [|[_ ?]] | by right].
  - split.
    + intros [H|[H _]]; [by apply string_ltb_asym | congruence].
    + intros H. left. destruct (string_ltb_total (AI a) (AI b)) as [?|[?|?]]; congruence.
Qed.

Lemma sort_Slice_keys xs ys :
  sortSessions xs ys ->
  sort_key <$> ys ≡ₚ sort_key <$> xs /\ Sorted key_le (sort_key <$> ys).
Proof.
  intros [Hperm Hsorted]. split; [by apply fmap_Permutation|].
  eapply Sorted_fmap; [|exact Hsorted]. intros a b H. exact H.
Qed.

(** Two results of sorting one input carry the same keys at every position. *)
Lemma sortSessions_keys_unique xs ys ys' :
  sortSessions xs ys -> sortSessions xs ys' -> map sort_key ys' = map sort_key ys.
Proof.
  intros [Hp Hs]%sort_Slice_keys [Hp' Hs']%sort_Slice_keys.
  apply (Sorted_unique key_le); [done | done |]. by rewrite Hp, Hp'.
Qed.

(** The insertion sort meets the contract of [sort.Slice] for every [less]
    that is asymmetric. *)
Lemma insert_left_perm {A} (less : A -> A -> bool) x l : insert_left less x l ≡ₚ x :: l.
Proof.
  induction l as [|y l IH]; simpl; [done|].
  destruct (less x y); [|done]. rewrite IH. apply Permutation_swap.
Qed.

Lemma insert_left_sorted {A} (less : A -> A -> bool) x l :
  (forall a b, less a b = true -> less b a = false) ->
  Sorted (fun p q => less p q = false) l ->
  Sorted (fun p q => less p q = false) (insert_left less x l).
Proof.
  intros Hasym. induction l as [|y l IH]; intros Hl; simpl.
  - repeat constructor.
  - destruct (less x y) eqn:Hxy.
    + inversion Hl as [|? ? Hl' Hhd]; subst. constructor; [by apply IH|].
      destruct l as [|z l]; simpl.
      * constructor. by apply Hasym.
      * destruct (less x z); constructor; [by inversion Hhd | by apply Hasym].
    + constructor; [done|]. by constructor.
Qed.

Lemma insertion_sort_meets_contract {A} (less : A -> A -> bool) xs :
  (forall a b, less a b = true -> less b a = false) ->
  sort_Slice less xs (insertion_sort less xs).
Proof.
  intros Hasym. unfold sort_Slice, insertion_sort.
  assert (forall acc,
    Sorted (fun p q => less p q = false) acc ->
    fold_left (fun acc x => insert_left less x acc) xs acc ≡ₚ acc ++ xs
    /\ Sorted (fun p q => less p q = false)
         (fold_left (fun acc x => insert_left less x acc) xs acc)) as H.
  { induction xs as [|x xs IH]; intros acc Hacc; simpl.
    - by rewrite app_nil_r.
    - destruct (IH (insert_left less x acc)) as [Hp Hs];
        [by apply insert_left_sorted|].
      split; [|done]. rewrite Hp, insert_left_perm. simpl. apply Permutation_middle. }
  destruct (H [] (Sorted_nil _)) as [Hp Hs]. split.
  - by rewrite reverse_Permutation, Hp.
  - apply Sorted_reverse in Hs. exact Hs.
Qed.


#[local] Instance in_order_trans : Transitive in_order.
Proof.
  intros a b c. rewrite !in_order_key_le. apply key_le_trans.
Qed.

Lemma in_order_total a b : in_order a b \/ in_order b a.
Proof.
  rewrite !in_order_key_le. unfold key_le.
  destruct (key_lt (sort_key b) (sort_key a)) eqn:H; [|by left].
  right. by apply key_lt_asym.
Qed.

Lemma Sorted_weaken {A} (R1 R2 : relation A) l :
  (forall a b, R1 a b -> R2 a b) -> Sorted R1 l -> Sorted R2 l.
Proof.
  intros HR. induction 1 as [|x l Hl IH Hhd]; constructor; [done|].
  destruct Hhd; constructor; auto.
Qed.

Lemma sortSessions_sorted_again ys :
  Sorted (fun a b => session_less b a = false) ys -> sortSessions ys ys.
Proof. by split. Qed.

(** Every result that the contract of [sort.Slice] admits for [sortSessions]
    is a rearrangement of the input in which each session stands before all
    sessions with a greater AI name and, among equal AI names, before all
    with a greater title; any two sessions are comparable in that order, and
    the AI names and titles read off the result are the same for every such
    result. *)
Lemma sortSessions_contract_ordered (xs ys : list session) :
  sortSessions xs ys ->
  ys ≡ₚ xs
  /\ StronglySorted in_order ys
  /\ (forall a b, in_order a b \/ in_order b a)
  /\ (forall ys', sortSessions xs ys' -> map sort_key ys' = map sort_key ys)
  /\ sortSessions ys ys.
Proof.
  intros Hsort. pose proof Hsort as [Hperm Hsorted].
  split; [done|]. split.
  { apply Sorted_StronglySorted; [apply _|].
    eapply Sorted_weaken; [|exact Hsorted]. intros a b H. by apply in_order_key_le. }
  split; [apply in_order_total|]. split.
  { intros ys' H. by apply (sortSessions_keys_unique xs). }
  by apply sortSessions_sorted_again.
Qed.

(** * Further properties *)

(** ** Keys and the model *)

Ltac case_Update :=
  repeat match goal with
    | |- context [match key_Type ?k with _ => _ end] => destruct (key_Type k)
    | |- context [match selectedSession ?m with _ => _ end] => destruct (selectedSession m)
    | |- context [match selectedStatus ?m with _ => _ end] => destruct (selectedStatus m)
    | |- context [if ?b then _ else _] => destruct b
    end.

(** X1.  A key press changes neither the session snapshot nor the fingerprint
    table, the recorded error, the time of the last update, the size of the
    terminal or the configuration: only polls, errors and resizes do. *)
Theorem Update_key_keeps_snapshot (now : Z) (m : model) (k : Key) :
  sessions (fst (Update now m (KeyMsg k))) = sessions m
  /\ prevHashes (fst (Update now m (KeyMsg k))) = prevHashes m
  /\ err (fst (Update now m (KeyMsg k))) = err m
  /\ lastUpdate (fst (Update now m (KeyMsg k))) = lastUpdate m
  /\ width (fst (Update now m (KeyMsg k))) = width m
  /\ height (fst (Update now m (KeyMsg k))) = height m
  /\ prefixes (fst (Update now m (KeyMsg k))) = prefixes m
  /\ maxLines (fst (Update now m (KeyMsg k))) = maxLines m
  /\ pollEvery (fst (Update now m (KeyMsg k))) = pollEvery m.
Proof.
  unfold Update, Update_renaming, Update_browsing.
  case_Update; simpl; repeat split; reflexivity.
Qed.

Lemma Update_selection_in_snapshot now m msg :
  selection_in_snapshot m -> selection_in_snapshot (fst (Update now m msg)).
Proof.
  unfold selection_in_snapshot. intros [Hpos Hlt].
  destruct msg as [k| | |ss hashes|e| |]; try (simpl; done).
  - pose proof (filteredSessions_len_le m) as Hle.
    unfold Update. destruct (renaming m).
    + unfold Update_renaming. case_Update; simpl; done.
    + unfold Update_browsing.
      destruct (key_is k "q" || key_is k "ctrl+c"); [done|].
      destruct (key_is k "tab"); [done|].
      destruct (key_is k "esc"); [done|].
      destruct (key_is k "enter").
      { destruct (focusedPanel m =? 0); [destruct (selectedSession m); done|].
        destruct (selectedStatus m); [|done]. simpl. lia. }
      destruct (key_is k "r").
      { destruct (focusedPanel m =? 0); [|done]. destruct (selectedSession m); done. }
      destruct (key_is k "up" || key_is k "k").
      { destruct (focusedPanel m =? 0).
        - destruct (Z.ltb_spec 0 (selected m)); simpl; lia.
        - destruct (0 <? statusSelected m); done. }
      destruct (key_is k "down" || key_is k "j"); [|done].
      destruct (focusedPanel m =? 0).
      * destruct (Z.ltb_spec (selected m) (len (filteredSessions m) - 1)); simpl; lia.
      * destruct (statusSelected m <? len (availableStatuses m) - 1); done.
  - destruct (Update_sessionsMsg_fields now m ss hashes) as (-> & _ & _ & _ & ->).
    destruct (Z.leb_spec (len ss) (selected m)); [|lia].
    destruct (Z.ltb_spec (len ss - 1) 0); lia.
  - destruct e; simpl; done.
Qed.

(** X2.  Whatever messages arrive, polls included, the selected index is
    never negative and never beyond the snapshot: it stays below the number
    of sessions, or is 0 when there is none. *)
Theorem selection_stays_in_snapshot (m : model) (trace : list (Z * Msg)) :
  selection_in_snapshot m -> selection_in_snapshot (run m trace).
Proof.
  revert m. induction trace as [|[now msg] trace IH]; intros m H; [exact H|].
  rewrite run_cons. apply IH. by apply Update_selection_in_snapshot.
Qed.

Lemma selection_stays_in_snapshot_witness :
  selection_in_snapshot (run start_model filter_then_poll).
Proof.
  apply (selection_stays_in_snapshot start_model filter_then_poll).
  split; [reflexivity | right; reflexivity].
Defined.

(** X3.  While a rename is open the keys of the browsing mode are switched
    off: a key press can neither quit, nor focus a window, nor move the
    selection, nor change the filter or the panel.  The only command it can
    emit is the rename command, on Enter, for the session at the selected
    index. *)
Theorem renaming_keys_are_modal (now : Z) (m : model) (k : Key) :
  renaming m = true ->
  selected (fst (Update now m (KeyMsg k))) = selected m
  /\ statusFilter (fst (Update now m (KeyMsg k))) = statusFilter m
  /\ focusedPanel (fst (Update now m (KeyMsg k))) = focusedPanel m
  /\ statusSelected (fst (Update now m (KeyMsg k))) = statusSelected m
  /\ (snd (Update now m (KeyMsg k)) = None
      \/ exists s, key_Type k = KeyEnter /\ selectedSession m = Some s
           /\ snd (Update now m (KeyMsg k))
              = Some (renameCmd (WindowID s) (string_of_runes (renameInput m)))).
Proof.
  intros Hren. unfold Update. rewrite Hren. unfold Update_renaming.
  destruct (key_Type k) eqn:Hk; try (simpl; repeat split; auto; fail).
  - destruct (selectedSession m) as [s|] eqn:Hs; simpl; repeat split; auto.
    right. by exists s.
  - destruct (0 <? len (renameInput m)); simpl; repeat split; auto.
Qed.

Lemma renaming_keys_are_modal_witness :
  snd (Update 3 (fst (Update 2 model_with_one_session (KeyMsg key_r)))
         (KeyMsg (key_of_rune 113))) = None.
Proof.
  destruct (renaming_keys_are_modal 3 (fst (Update 2 model_with_one_session (KeyMsg key_r)))
              (key_of_rune 113) eq_refl) as (_ & _ & _ & _ & [H | (s & Hk & _)]).
  - exact H.
  - discriminate Hk.
Defined.

(** ** The Status panel *)

Lemma statusCount_fold ss st : forall count : gmap string Z,
  default 0 (fold_left
    (fun count s => <[Status s := default 0 (count !! Status s) + 1]> count) ss count !! st)
  = default 0 (count !! st) + len (List.filter (fun s => String.eqb (Status s) st) ss).
Proof.
  induction ss as [|s ss IH]; intros count; simpl.
  - unfold len. simpl. lia.
  - rewrite IH. destruct (String.eqb_spec (Status s) st) as [->|Hne].
    + rewrite lookup_insert_eq. unfold len. simpl length. simpl. lia.
    + rewrite lookup_insert_ne by done. lia.
Qed.

Lemma statusCount_lookup ss st :
  default 0 (statusCount ss !! st)
  = len (List.filter (fun s => String.eqb (Status s) st) ss).
Proof. unfold statusCount. rewrite statusCount_fold. by rewrite lookup_empty. Qed.

Lemma filter_nonempty_iff {A} (f : A -> bool) (l : list A) :
  0 < len (List.filter f l) <-> exists x, x ∈ l /\ f x = true.
Proof.
  split.
  - intros Hlen. destruct (List.filter f l) as [|x l'] eqn:Hf.
    + unfold len in Hlen. simpl in Hlen. lia.
    + assert (In x (List.filter f l)) as Hin by (rewrite Hf; left; done).
      apply filter_In in Hin as [Hin Hfx]. exists x. by rewrite list_elem_of_In.
  - intros (x & Hin & Hfx).
    assert (In x (List.filter f l)) as Hin'
      by (apply filter_In; by rewrite <- list_elem_of_In).
    destruct (List.filter f l); [done|]. unfold len. simpl length. lia.
Qed.

Lemma availableStatuses_elem m st :
  st ∈ availableStatuses m <->
  st ∈ statusOrder /\ exists s, s ∈ sessions m /\ Status s = st.
Proof.
  unfold availableStatuses.
  rewrite list_elem_of_In, filter_In, <- list_elem_of_In, statusCount_lookup.
  rewrite Z.ltb_lt, filter_nonempty_iff.
  split; intros [Hin (s & Hs & Hst)]; (split; [done|]); exists s; split; try done.
  - by apply String.eqb_eq.
  - by apply String.eqb_eq.
Qed.

(** X4.  The Status panel lists exactly the statuses that some session of the
    snapshot has, among RUNNING, IDLE, WAITING and DONE and in that order,
    each once; a status outside these four is never listed. *)
Theorem availableStatuses_lists_present_statuses (m : model) (st : string) :
  (st ∈ availableStatuses m <->
   st ∈ statusOrder /\ exists s, s ∈ sessions m /\ Status s = st)
  /\ sublist (availableStatuses m) statusOrder
  /\ NoDup (availableStatuses m).
Proof.
  split; [apply availableStatuses_elem|].
  assert (sublist (availableStatuses m) statusOrder) as Hsub by apply filter_sublist.
  split; [done|]. eapply sublist_NoDup; [|exact Hsub].
  unfold statusOrder.
  repeat (apply NoDup_cons; split;
          [rewrite ?elem_of_cons, elem_of_nil; intuition discriminate|]).
  apply NoDup_nil_2.
Qed.

Lemma selectedStatus_elem m st : selectedStatus m = Some st -> st ∈ availableStatuses m.
Proof.
  unfold selectedStatus. destruct (_ && _); [|done].
  intros H. by apply list_elem_of_lookup_2 in H.
Qed.

Lemma selectedStatus_ext m m' :
  sessions m' = sessions m -> statusSelected m' = statusSelected m ->
  selectedStatus m' = selectedStatus m.
Proof. unfold selectedStatus, availableStatuses. intros -> ->. done. Qed.

Lemma Update_browsing_enter m k :
  key_String k = "enter" -> (focusedPanel m =? 0) = false ->
  Update_browsing m k =
  match selectedStatus m with
  | Some status =>
      (set_focusedPanel 0 (set_selected 0
         (if String.eqb (statusFilter m) status
          then set_statusFilter EmptyString m else set_statusFilter status m)), None)
  | None => (m, None)
  end.
Proof. intros Hk Hp. unfold Update_browsing, key_is. rewrite Hk, Hp. reflexivity. Qed.

Lemma Update_browsing_tab m k :
  key_String k = "tab" ->
  Update_browsing m k = (set_focusedPanel (Z.rem (focusedPanel m + 1) 2) m, None).
Proof. intros Hk. unfold Update_browsing, key_is. rewrite Hk. reflexivity. Qed.

(** X5.  Choosing a status in the Status panel that is not the active filter
    makes it the filter, puts the selection on the first session and the focus
    on the Sessions panel, and the filtered list then holds at least one
    session, all of that status.  Going back to the Status panel and pressing
    Enter on the same status clears the filter: all sessions are shown, the
    selection is 0 again. *)
Theorem status_filter_toggle (m : model) (st : string) (k_enter k_tab : Key)
    (n1 n2 n3 : Z) :
  renaming m = false -> focusedPanel m = 1 ->
  selectedStatus m = Some st -> statusFilter m <> st ->
  key_String k_enter = "enter" -> key_String k_tab = "tab" ->
  statusFilter (fst (Update n1 m (KeyMsg k_enter))) = st
  /\ selected (fst (Update n1 m (KeyMsg k_enter))) = 0
  /\ focusedPanel (fst (Update n1 m (KeyMsg k_enter))) = 0
  /\ filteredSessions (fst (Update n1 m (KeyMsg k_enter))) <> []
  /\ (forall s, s ∈ filteredSessions (fst (Update n1 m (KeyMsg k_enter))) -> Status s = st)
  /\ statusFilter (run m [(n1, KeyMsg k_enter); (n2, KeyMsg k_tab); (n3, KeyMsg k_enter)])
     = EmptyString
  /\ selected (run m [(n1, KeyMsg k_enter); (n2, KeyMsg k_tab); (n3, KeyMsg k_enter)]) = 0
  /\ focusedPanel (run m [(n1, KeyMsg k_enter); (n2, KeyMsg k_tab); (n3, KeyMsg k_enter)])
     = 0
  /\ filteredSessions (run m [(n1, KeyMsg k_enter); (n2, KeyMsg k_tab); (n3, KeyMsg k_enter)])
     = sessions m.
Proof.
  intros Hren Hpanel Hsel Hne Henter Htab.
  assert (Update n1 m (KeyMsg k_enter)
          = (set_focusedPanel 0 (set_selected 0 (set_statusFilter st m)), None)) as H1.
  { unfold Update. rewrite Hren.
    rewrite (Update_browsing_enter m k_enter Henter) by (by rewrite Hpanel).
    rewrite Hsel. apply String.eqb_neq in Hne. by rewrite Hne. }
  pose proof (selectedStatus_elem m st Hsel) as Hin.
  apply availableStatuses_elem in Hin as [Hord (s0 & Hs0 & Hst0)].
  assert (st <> EmptyString) as Hst.
  { intros ->. unfold statusOrder in Hord.
    rewrite !elem_of_cons, elem_of_nil in Hord. intuition discriminate. }
  set (m1 := set_focusedPanel 0 (set_selected 0 (set_statusFilter st m))) in *.
  assert (filteredSessions m1
          = List.filter (fun x => String.eqb (Status x) st) (sessions m)) as Hf.
  { unfold filteredSessions. simpl. apply String.eqb_neq in Hst. by rewrite Hst. }
  rewrite H1. simpl fst.
  split; [done|]. split; [done|]. split; [done|]. split.
  { rewrite Hf. intros Hnil.
    assert (In s0 (List.filter (fun x => String.eqb (Status x) st) (sessions m))) as Hin0.
    { apply filter_In. rewrite <- list_elem_of_In. split; [done|]. by apply String.eqb_eq. }
    rewrite Hnil in Hin0. inversion Hin0. }
  split.
  { intros s. rewrite Hf, list_elem_of_In, filter_In. intros [_ H]. by apply String.eqb_eq. }
  assert (run m [(n1, KeyMsg k_enter); (n2, KeyMsg k_tab); (n3, KeyMsg k_enter)]
          = set_focusedPanel 0 (set_selected 0 (set_statusFilter EmptyString
              (set_focusedPanel 1 m1)))) as H3.
  { assert (Update n2 m1 (KeyMsg k_tab) = (set_focusedPanel 1 m1, None)) as H2.
    { unfold Update. change (renaming m1) with (renaming m). rewrite Hren.
      by rewrite (Update_browsing_tab m1 k_tab Htab). }
    assert (Update n3 (set_focusedPanel 1 m1) (KeyMsg k_enter)
            = (set_focusedPanel 0 (set_selected 0 (set_statusFilter EmptyString
                 (set_focusedPanel 1 m1))), None)) as H3.
    { unfold Update. change (renaming (set_focusedPanel 1 m1)) with (renaming m).
      rewrite Hren. rewrite (Update_browsing_enter _ k_enter Henter) by reflexivity.
      rewrite (selectedStatus_ext m (set_focusedPanel 1 m1) eq_refl eq_refl), Hsel.
      change (statusFilter (set_focusedPanel 1 m1)) with st.
      by rewrite String.eqb_refl. }
    rewrite run_cons, H1. simpl fst. rewrite run_cons, H2. simpl fst.
    rewrite run_cons, H3. reflexivity. }
  rewrite H3. repeat split; reflexivity.
Qed.

Lemma status_filter_toggle_witness :
  statusFilter (fst (Update 4 model_on_status_panel (KeyMsg (key_of_type KeyEnter)))) = "IDLE"
  /\ filteredSessions (run model_on_status_panel
       [(4, KeyMsg (key_of_type KeyEnter)); (5, KeyMsg (key_of_type KeyTab));
        (6, KeyMsg (key_of_type KeyEnter))]) = snapshot_before.
Proof.
  destruct (status_filter_toggle model_on_status_panel "IDLE"
              (key_of_type KeyEnter) (key_of_type KeyTab) 4 5 6)
    as (H1 & _ & _ & _ & _ & _ & _ & _ & H2);
    try reflexivity.
  - discriminate.
  - split; [exact H1 | exact H2].
Defined.

Lemma Update_browsing_down m k :
  key_String k = "down" \/ key_String k = "j" ->
  Update_browsing m k =
  if focusedPanel m =? 0 then
    if selected m <? len (filteredSessions m) - 1
    then (set_selected (selected m + 1) m, None) else (m, None)
  else
    if statusSelected m <? len (availableStatuses m) - 1
    then (set_statusSelected (statusSelected m + 1) m, None)
    else (set_statusSelected 0 m, None).
Proof. intros [Hk|Hk]; unfold Update_browsing, key_is; rewrite Hk; reflexivity. Qed.

Lemma Update_browsing_up m k :
  key_String k = "up" \/ key_String k = "k" ->
  Update_browsing m k =
  if focusedPanel m =? 0 then
    if 0 <? selected m then (set_selected (selected m - 1) m, None) else (m, None)
  else
    if 0 <? statusSelected m then (set_statusSelected (statusSelected m - 1) m, None)
    else (set_statusSelected (len (availableStatuses m) - 1) m, None).
Proof. intros [Hk|Hk]; unfold Update_browsing, key_is; rewrite Hk; reflexivity. Qed.

(** X6.  In the Status panel the cursor moves in a ring: down from the last
    status goes to the first, up from the first goes to the last, and
    otherwise the cursor moves by one; it stays on a listed status, and up
    undoes down.  The selection of the Sessions panel does not move. *)
Theorem status_cursor_wraps (m : model) (k_up k_down : Key) (n1 n2 : Z) :
  renaming m = false -> focusedPanel m = 1 -> status_cursor_ok m ->
  (key_String k_up = "up" \/ key_String k_up = "k") ->
  (key_String k_down = "down" \/ key_String k_down = "j") ->
  statusSelected (fst (Update n1 m (KeyMsg k_down)))
  = (if statusSelected m =? len (availableStatuses m) - 1 then 0 else statusSelected m + 1)
  /\ status_cursor_ok (fst (Update n1 m (KeyMsg k_down)))
  /\ statusSelected (fst (Update n1 m (KeyMsg k_up)))
     = (if statusSelected m =? 0 then len (availableStatuses m) - 1
        else statusSelected m - 1)
  /\ status_cursor_ok (fst (Update n1 m (KeyMsg k_up)))
  /\ selected (fst (Update n1 m (KeyMsg k_down))) = selected m
  /\ selected (fst (Update n1 m (KeyMsg k_up))) = selected m
  /\ statusSelected (run m [(n1, KeyMsg k_down); (n2, KeyMsg k_up)]) = statusSelected m.
Proof.
  intros Hren Hpanel Hok Hup Hdown. unfold status_cursor_ok in *.
  assert (forall v, availableStatuses (set_statusSelected v m) = availableStatuses m)
    as Hav by reflexivity.
  assert (forall n, Update n m (KeyMsg k_down)
          = (set_statusSelected
               (if statusSelected m =? len (availableStatuses m) - 1 then 0
                else statusSelected m + 1) m, None)) as Hd.
  { intros n. unfold Update. rewrite Hren, (Update_browsing_down m k_down Hdown), Hpanel.
    simpl (1 =? 0).
    destruct (Z.ltb_spec (statusSelected m) (len (availableStatuses m) - 1));
      destruct (Z.eqb_spec (statusSelected m) (len (availableStatuses m) - 1));
      try lia; reflexivity. }
  assert (forall n m', renaming m' = false -> focusedPanel m' = 1 ->
          0 <= statusSelected m' ->
          Update n m' (KeyMsg k_up)
          = (set_statusSelected
               (if statusSelected m' =? 0 then len (availableStatuses m') - 1
                else statusSelected m' - 1) m', None)) as Hu.
  { intros n m' Hren' Hpanel' Hpos. unfold Update.
    rewrite Hren', (Update_browsing_up m' k_up Hup), Hpanel'. simpl (1 =? 0).
    destruct (Z.ltb_spec 0 (statusSelected m'));
      destruct (Z.eqb_spec (statusSelected m') 0); try lia; reflexivity. }
  rewrite (Hd n1), (Hu n1 m Hren Hpanel) by lia. simpl fst.
  split; [reflexivity|]. split.
  { simpl. rewrite Hav.
    destruct (Z.eqb_spec (statusSelected m) (len (availableStatuses m) - 1)); lia. }
  split; [reflexivity|]. split.
  { simpl. rewrite Hav. destruct (Z.eqb_spec (statusSelected m) 0); lia. }
  split; [reflexivity|]. split; [reflexivity|].
  rewrite run_cons, (Hd n1). simpl fst. rewrite run_cons, Hu.
  - cbn [run fold_left fst statusSelected set_statusSelected]. rewrite Hav.
    destruct (Z.eqb_spec (statusSelected m) (len (availableStatuses m) - 1)) as [E|E].
    + rewrite Z.eqb_refl. lia.
    + destruct (Z.eqb_spec (statusSelected m + 1) 0); lia.
  - exact Hren.
  - exact Hpanel.
  - cbn [statusSelected set_statusSelected].
    destruct (Z.eqb_spec (statusSelected m) (len (availableStatuses m) - 1)); lia.
Qed.

Lemma status_cursor_wraps_witness :
  statusSelected (fst (Update 4 model_on_status_panel (KeyMsg (key_of_type KeyDown)))) = 0.
Proof.
  destruct (status_cursor_wraps model_on_status_panel
              (key_of_type KeyUp) (key_of_type KeyDown) 4 5) as (H & _).
  - reflexivity.
  - reflexivity.
  - split; vm_compute; [discriminate | reflexivity].
  - by left.
  - by left.
  - rewrite H. reflexivity.
Defined.

(** ** The rename buffer *)

Lemma set_renameInput_same m : set_renameInput (renameInput m) m = m.
Proof. by destruct m. Qed.

Lemma run_app m t1 t2 : run m (t1 ++ t2) = run (run m t1) t2.
Proof. unfold run. apply fold_left_app. Qed.

Lemma Update_backspace now m k :
  renaming m = true -> key_Type k = KeyBackspace ->
  fst (Update now m (KeyMsg k))
  = set_renameInput (take (length (renameInput m) - 1) (renameInput m)) m.
Proof.
  intros Hren Hk. unfold Update. rewrite Hren. unfold Update_renaming. rewrite Hk.
  destruct (renameInput m) as [|r rs] eqn:Hbuf.
  - simpl. rewrite <- Hbuf. symmetry. apply set_renameInput_same.
  - unfold len. simpl length. simpl (0 <? _).
    replace (Z.to_nat (Z.of_nat (S (length rs)) - 1)) with (S (length rs) - 1)%nat by lia.
    reflexivity.
Qed.

Lemma run_backspaces k t n : forall m,
  renaming m = true -> key_Type k = KeyBackspace ->
  run m (replicate n (t, KeyMsg k))
  = set_renameInput (take (length (renameInput m) - n) (renameInput m)) m.
Proof.
  induction n as [|n IH]; intros m Hren Hk.
  - simpl. rewrite Nat.sub_0_r, firstn_all. symmetry. apply set_renameInput_same.
  - change (replicate (S n) (t, KeyMsg k)) with ((t, KeyMsg k) :: replicate n (t, KeyMsg k)).
    rewrite run_cons, (Update_backspace t m k Hren Hk), IH by done.
    cbn [renameInput set_renameInput]. rewrite firstn_firstn, length_take.
    change (set_renameInput ?b (set_renameInput ?a m)) with (set_renameInput b m).
    f_equal. f_equal. lia.
Qed.

(** X7.  In the rename buffer, typed runes are appended at the end and each
    Backspace removes the last rune: after typing any runes and pressing
    Backspace once for each of them the model is what it was, and Backspace
    on an empty buffer does nothing. *)
Theorem backspace_undoes_typing (m : model) (k_runes k_back : Key) (n1 n2 : Z) :
  renaming m = true -> key_Type k_runes = KeyRunes -> key_Type k_back = KeyBackspace ->
  renameInput (fst (Update n1 m (KeyMsg k_runes))) = renameInput m ++ key_Runes k_runes
  /\ run m ((n1, KeyMsg k_runes)
            :: replicate (length (key_Runes k_runes)) (n2, KeyMsg k_back)) = m
  /\ (renameInput m = [] -> Update n2 m (KeyMsg k_back) = (m, None)).
Proof.
  intros Hren Hr Hb.
  assert (fst (Update n1 m (KeyMsg k_runes))
          = set_renameInput (renameInput m ++ key_Runes k_runes) m) as H1.
  { unfold Update. rewrite Hren. unfold Update_renaming. by rewrite Hr. }
  split; [by rewrite H1|]. split.
  - rewrite run_cons, H1, run_backspaces by done.
    cbn [renameInput set_renameInput]. rewrite length_app.
    replace (length (renameInput m) + length (key_Runes k_runes)
             - length (key_Runes k_runes))%nat with (length (renameInput m)) by lia.
    rewrite take_app_length. by destruct m.
  - intros Hempty. unfold Update. rewrite Hren. unfold Update_renaming.
    rewrite Hb, Hempty. reflexivity.
Qed.

Lemma backspace_undoes_typing_witness :
  run (fst (Update 2 model_with_one_session (KeyMsg key_r)))
      ((3, KeyMsg key_x) :: replicate 1 (4, KeyMsg key_backspace))
  = fst (Update 2 model_with_one_session (KeyMsg key_r)).
Proof.
  destruct (backspace_undoes_typing (fst (Update 2 model_with_one_session (KeyMsg key_r)))
              key_x key_backspace 3 4 eq_refl eq_refl eq_refl) as (_ & H & _).
  exact H.
Defined.

Lemma Update_editing_key now m msg :
  renaming m = true -> editing_key msg = true ->
  exists buf, fst (Update now m msg) = set_renameInput buf m.
Proof.
  intros Hren Hed. destruct msg as [k| | | | | |]; try discriminate.
  unfold Update. rewrite Hren. unfold Update_renaming. simpl in Hed.
  destruct (key_Type k); try discriminate; simpl;
    try (by exists (renameInput m); rewrite set_renameInput_same); eauto.
  destruct (0 <? len (renameInput m)); simpl; eauto.
  exists (renameInput m). by rewrite set_renameInput_same.
Qed.

Lemma run_editing_keys trace : forall m,
  renaming m = true ->
  Forall (fun step => editing_key (snd step) = true) trace ->
  exists buf, run m trace = set_renameInput buf m.
Proof.
  induction trace as [|[now msg] trace IH]; intros m Hren Hall.
  - exists (renameInput m). by rewrite set_renameInput_same.
  - inversion Hall as [|? ? Hmsg Hrest]; subst. simpl in Hmsg.
    destruct (Update_editing_key now m msg Hren Hmsg) as [buf Hbuf].
    rewrite run_cons, Hbuf.
    destruct (IH (set_renameInput buf m) Hren Hrest) as [buf' Hbuf'].
    exists buf'. rewrite Hbuf'. reflexivity.
Qed.

(** X8.  A rename that is cancelled leaves no trace: from a browsing model
    with an empty buffer, the key [r], any keys typed into the buffer and
    then Esc lead back to exactly the model before, and Esc emits no
    command. *)
Theorem rename_cancel_restores (m : model) (s : session) (k_r k_esc : Key) (n1 n2 : Z)
    (keys : list (Z * Msg)) :
  renaming m = false -> renameInput m = [] -> focusedPanel m = 0 ->
  selectedSession m = Some s ->
  key_String k_r = "r" -> key_Type k_esc = KeyEsc ->
  Forall (fun step => editing_key (snd step) = true) keys ->
  run m ((n1, KeyMsg k_r) :: keys ++ [(n2, KeyMsg k_esc)]) = m
  /\ snd (Update n2 (run m ((n1, KeyMsg k_r) :: keys)) (KeyMsg k_esc)) = None.
Proof.
  intros Hren Hbuf Hpanel Hsel Hr Hesc Hkeys.
  rewrite !run_cons, (Update_rename_start n1 m s k_r Hren Hpanel Hsel Hr).
  set (m1 := set_renameInput (runes_of_string (Title s)) (set_renaming true m)).
  destruct (run_editing_keys keys m1 eq_refl Hkeys) as [buf Hrun].
  rewrite run_app, Hrun.
  assert (Update n2 (set_renameInput buf m1) (KeyMsg k_esc) = (m, None)) as Hcancel.
  { unfold Update. change (renaming (set_renameInput buf m1)) with true.
    unfold Update_renaming. rewrite Hesc. f_equal.
    destruct m. simpl in Hren, Hbuf. subst. reflexivity. }
  split; [|by rewrite Hcancel].
  change (run (set_renameInput buf m1) [(n2, KeyMsg k_esc)])
    with (fst (Update n2 (set_renameInput buf m1) (KeyMsg k_esc))).
  by rewrite Hcancel.
Qed.

Lemma rename_cancel_restores_witness :
  run model_with_one_session
      ((2, KeyMsg key_r) :: [(3, KeyMsg key_x); (4, KeyMsg key_backspace)]
       ++ [(5, KeyMsg (key_of_type KeyEsc))])
  = model_with_one_session.
Proof.
  destruct (rename_cancel_restores model_with_one_session
              (sample_session 1 1 "beta" "claude" "IDLE" idle_lines)
              key_r (key_of_type KeyEsc) 2 5
              [(3, KeyMsg key_x); (4, KeyMsg key_backspace)]
              eq_refl eq_refl eq_refl eq_refl eq_refl eq_refl) as [H _].
  - repeat constructor.
  - exact H.
Defined.

(** ** One poll *)

Lemma collect_step_session tr pfx maxl prev now ss hs tw :
  collect_step tr pfx maxl prev now (ss, hs) tw =
  match session_of tr pfx maxl prev now tw with
  | Some s => (ss ++ [s], <[win_ID (snd tw) := OutputHash s]> hs)
  | None => (ss, hs)
  end.
Proof.
  destruct tw as [tab win]. unfold collect_step, session_of. simpl.
  by destruct (extractAI win pfx) as [ai [|]].
Qed.

Lemma session_of_fields tr pfx maxl prev now tw s :
  session_of tr pfx maxl prev now tw = Some s ->
  WindowID s = win_ID (snd tw)
  /\ Lines s = window_lines tr maxl (win_ID (snd tw))
  /\ OutputHash s = window_hash tr maxl (win_ID (snd tw))
  /\ Status s = determineStatus prev (win_ID (snd tw)) (Lines s)
  /\ extractAI (snd tw) pfx = (AI s, true).
Proof.
  unfold session_of. destruct (extractAI (snd tw) pfx) as [ai [|]] eqn:He; [|done].
  intros [= <-]. repeat split.
Qed.

(** The sessions of a poll are the sessions of the accepted windows, in the
    order of the listing. *)
Lemma collect_fold_sessions tr pfx maxl prev now wins : forall ss hs,
  fst (fold_left (collect_step tr pfx maxl prev now) wins (ss, hs))
  = ss ++ omap (session_of tr pfx maxl prev now) wins.
Proof.
  induction wins as [|tw wins IH]; intros ss hs; cbn [fold_left omap list_omap].
  - by rewrite app_nil_r.
  - rewrite collect_step_session.
    destruct (session_of tr pfx maxl prev now tw) as [s|]; [|apply IH].
    rewrite IH. by rewrite <- app_assoc.
Qed.

Lemma collect_fold_hashes tr pfx maxl prev now wins id : forall ss hs,
  snd (fold_left (collect_step tr pfx maxl prev now) wins (ss, hs)) !! id
  = if existsb (fun tw => snd (extractAI (snd tw) pfx) && (win_ID (snd tw) =? id)) wins
    then Some (window_hash tr maxl id)
    else hs !! id.
Proof.
  induction wins as [|tw wins IH]; intros ss hs; cbn [fold_left existsb]; [done|].
  rewrite collect_step_session.
  destruct (session_of tr pfx maxl prev now tw) as [s|] eqn:Hs.
  - destruct (session_of_fields _ _ _ _ _ _ _ Hs) as (_ & _ & Hh & _ & He).
    rewrite IH, He. simpl.
    destruct (existsb _ wins); [by rewrite orb_true_r|]. rewrite orb_false_r.
    destruct (Z.eqb_spec (win_ID (snd tw)) id) as [<-|Hne].
    + by rewrite lookup_insert_eq, Hh.
    + by rewrite lookup_insert_ne.
  - rewrite IH. unfold session_of in Hs.
    destruct (extractAI (snd tw) pfx) as [ai [|]]; [done|]. reflexivity.
Qed.

Lemma collectSessions_sessions tr pfx maxl prev now ws :
  fst (collectSessions tr pfx maxl prev now ws)
  = omap (session_of tr pfx maxl prev now) (windows_in_order ws).
Proof. unfold collectSessions. by rewrite collect_fold_sessions. Qed.

Lemma collectSessions_hashes tr pfx maxl prev now ws id :
  snd (collectSessions tr pfx maxl prev now ws) !! id
  = if existsb (fun tw => snd (extractAI (snd tw) pfx) && (win_ID (snd tw) =? id))
               (windows_in_order ws)
    then Some (window_hash tr maxl id)
    else None.
Proof. unfold collectSessions. by rewrite collect_fold_hashes, lookup_empty. Qed.

Lemma collectSessions_elem tr pfx maxl prev now ws s :
  s ∈ fst (collectSessions tr pfx maxl prev now ws) <->
  exists tw, tw ∈ windows_in_order ws /\ session_of tr pfx maxl prev now tw = Some s.
Proof. rewrite collectSessions_sessions. apply list_elem_of_omap. Qed.

Lemma accepted_window_exists pfx wins id :
  existsb (fun tw : kittyTab * kittyWindow =>
             snd (extractAI (snd tw) pfx) && (win_ID (snd tw) =? id)) wins = true <->
  exists tw, tw ∈ wins /\ snd (extractAI (snd tw) pfx) = true /\ win_ID (snd tw) = id.
Proof.
  rewrite existsb_exists. split; intros (tw & Hin & H).
  - apply andb_true_iff in H as [H1 H2%Z.eqb_eq]. exists tw. by rewrite list_elem_of_In.
  - destruct H as [H1 H2]. exists tw. rewrite <- list_elem_of_In.
    split; [done|]. rewrite H1. by apply Z.eqb_eq.
Qed.

Lemma collectSessions_table tr pfx maxl prev now ws :
  (forall s, s ∈ fst (collectSessions tr pfx maxl prev now ws) ->
     snd (collectSessions tr pfx maxl prev now ws) !! WindowID s = Some (OutputHash s))
  /\ (forall id h, snd (collectSessions tr pfx maxl prev now ws) !! id = Some h ->
        exists s, s ∈ fst (collectSessions tr pfx maxl prev now ws)
                  /\ WindowID s = id /\ OutputHash s = h).
Proof.
  split.
  - intros s (tw & Hin & Hs)%collectSessions_elem.
    destruct (session_of_fields _ _ _ _ _ _ _ Hs) as (Hid & _ & Hh & _ & He).
    rewrite collectSessions_hashes.
    assert (existsb (fun tw => snd (extractAI (snd tw) pfx) && (win_ID (snd tw) =? WindowID s))
                    (windows_in_order ws) = true) as ->.
    { apply accepted_window_exists. exists tw. by rewrite He. }
    by rewrite Hh, Hid.
  - intros id h. rewrite collectSessions_hashes.
    destruct (existsb _ _) eqn:Hex; [|done]. intros [= <-].
    apply accepted_window_exists in Hex as (tw & Hin & Hacc & Hid).
    destruct (session_of tr pfx maxl prev now tw) as [s|] eqn:Hs.
    + destruct (session_of_fields _ _ _ _ _ _ _ Hs) as (Hid' & _ & Hh & _).
      exists s. rewrite collectSessions_elem. split; [by exists tw|].
      split; congruence.
    + unfold session_of in Hs. destruct (extractAI (snd tw) pfx) as [ai [|]]; done.
Qed.

(** X9.  The fingerprint table a poll returns covers exactly the sessions it
    returns: every session finds its own fingerprint under its window id, and
    every entry belongs to a returned session.  The table is built anew from
    the listing and does not depend on the table of the previous poll, so
    windows that are gone are forgotten. *)
Theorem poll_table_covers_sessions (tr : transport) (pfx : list string) (maxl : Z)
    (prev prev' : gmap Z string) (now now' : Z) (ss : list session) (hashes : gmap Z string) :
  loadSessions tr pfx maxl prev now (Ok (ss, hashes)) ->
  (forall s, s ∈ ss -> hashes !! WindowID s = Some (OutputHash s))
  /\ (forall id h, hashes !! id = Some h ->
        exists s, s ∈ ss /\ WindowID s = id /\ OutputHash s = h)
  /\ (forall ss' hashes', loadSessions tr pfx maxl prev' now' (Ok (ss', hashes')) ->
        hashes' = hashes).
Proof.
  intros Hload. inversion Hload as [|ws sorted Hws [Hperm _]]; subst.
  destruct (collectSessions_table tr pfx maxl prev now ws) as [H1 H2].
  split; [|split].
  - intros s Hs. apply H1. by rewrite <- Hperm.
  - intros id h Hh. destruct (H2 id h Hh) as (s & Hs & Hid & Hhash).
    exists s. by rewrite Hperm.
  - intros ss' hashes' Hload'. inversion Hload' as [|ws' sorted' Hws' _]; subst.
    assert (ws' = ws) as -> by congruence.
    apply map_eq. intros id. by rewrite !collectSessions_hashes.
Qed.

Lemma poll_table_covers_sessions_witness :
  hashes_of snapshot_before !! 3 = Some ">".
Proof.
  destruct (poll_table_covers_sessions (terminal three_windows [1]) default_prefixes 200
              ∅ ∅ 1 1 snapshot_before (hashes_of snapshot_before) poll_before) as (H & _).
  apply (H (sample_session 1 3 "web" "claude" "IDLE" idle_lines)).
  right; right; left.
Defined.

Lemma determineStatus_same_hash prev id lines :
  prev !! id = Some (currentHash lines) ->
  determineStatus prev id lines
  = if busy_marker lines then "RUNNING" else inferStatus lines.
Proof.
  intros Hprev. unfold determineStatus, busy_marker. rewrite Hprev.
  by rewrite String.eqb_refl.
Qed.

Lemma inferStatus_not_RUNNING lines : inferStatus lines <> "RUNNING".
Proof. destruct (inferStatus_cases lines) as [-> | ->]; discriminate. Qed.

Lemma forallb_Forall {A} (f : A -> bool) (l : list A) :
  forallb f l = true -> Forall (fun x => f x = true) l.
Proof.
  intros H. apply Forall_forall. intros x Hx.
  rewrite forallb_forall in H. apply H. by apply list_elem_of_In.
Qed.

(** X10.  When a poll finds every window with the same text as the poll
    before, it returns the same fingerprint table, and it reports a session
    with ASCII content as RUNNING only if the busy marker stands in its last
    five lines: every other such session gets the status [inferStatus] reads
    from its content. *)
Theorem unchanged_screen_is_not_running (tr : transport) (pfx : list string) (maxl : Z)
    (prev : gmap Z string) (now now' : Z) (ss1 ss2 : list session)
    (hashes1 hashes2 : gmap Z string) :
  loadSessions tr pfx maxl prev now (Ok (ss1, hashes1)) ->
  loadSessions tr pfx maxl hashes1 now' (Ok (ss2, hashes2)) ->
  hashes2 = hashes1
  /\ forall s, s ∈ ss2 ->
       Forall (fun line => is_ascii line = true) (Lines s) ->
       Status s = (if busy_marker (Lines s) then "RUNNING" else inferStatus (Lines s))
       /\ (Status s = "RUNNING" -> busy_marker (Lines s) = true).
Proof.
  intros H1 H2.
  inversion H1 as [|ws sorted Hws _]; subst.
  inversion H2 as [|ws' sorted' Hws' [Hperm _]]; subst.
  assert (ws' = ws) as -> by congruence.
  split.
  { apply map_eq. intros id. by rewrite !collectSessions_hashes. }
  intros s Hs _. rewrite Hperm in Hs.
  apply collectSessions_elem in Hs as (tw & Hin & Hs).
  destruct (session_of_fields _ _ _ _ _ _ _ Hs) as (Hid & Hl & Hh & Hst & He).
  assert (Status s = if busy_marker (Lines s) then "RUNNING" else inferStatus (Lines s))
    as Hstatus.
  { rewrite Hst. apply determineStatus_same_hash.
    rewrite collectSessions_hashes.
    assert (existsb (fun tw0 => snd (extractAI (snd tw0) pfx)
                                && (win_ID (snd tw0) =? win_ID (snd tw)))
                    (windows_in_order ws) = true) as ->.
    { apply accepted_window_exists. exists tw. by rewrite He. }
    by rewrite Hl. }
  split; [exact Hstatus|]. rewrite Hstatus.
  destruct (busy_marker (Lines s)); [done|]. intros H. by apply inferStatus_not_RUNNING in H.
Qed.

Lemma unchanged_screen_is_not_running_witness :
  Forall (fun s => Status s
                   = (if busy_marker (Lines s) then "RUNNING" else inferStatus (Lines s)))
         snapshot_after.
Proof.
  assert (forallb (fun s => forallb is_ascii (Lines s)) snapshot_after = true) as Hascii
    by (vm_compute; reflexivity).
  apply forallb_Forall in Hascii. rewrite Forall_forall in Hascii.
  apply Forall_forall. intros s Hs.
  assert (loadSessions (terminal three_windows [1; 3]) default_prefixes 200
            (hashes_of snapshot_after) 6
            (Ok (snapshot_after, hashes_of snapshot_after))) as Hagain
    by sample_poll snapshot_after.
  destruct (unchanged_screen_is_not_running (terminal three_windows [1; 3]) default_prefixes
              200 (hashes_of snapshot_before) 6 6 snapshot_after snapshot_after
              (hashes_of snapshot_after) (hashes_of snapshot_after) poll_after Hagain)
    as [_ H].
  apply H; [exact Hs|]. apply forallb_Forall. by apply Hascii.
Defined.





(** ** Content lines *)

Lemma HasPrefix_nil s : HasPrefix s EmptyString = true.
Proof. by destruct s. Qed.

Lemma HasSuffix_refl s : HasSuffix s s = true.
Proof. destruct s; cbn [HasSuffix]; by rewrite String.eqb_refl. Qed.

Lemma HasSuffix_cons c s t : HasSuffix s t = true -> HasSuffix (String c s) t = true.
Proof. intros H. cbn [HasSuffix]. rewrite H. apply orb_true_r. Qed.

(** A string that ends with [a t] ends with [t]. *)
Lemma HasSuffix_tail s a t : HasSuffix s (String a t) = true -> HasSuffix s t = true.
Proof.
  induction s as [|c s IH]; cbn [HasSuffix].
  - rewrite orb_false_r. intros H%String.eqb_eq. discriminate.
  - intros [H%String.eqb_eq | H]%orb_true_iff.
    + injection H as -> ->. apply HasSuffix_cons, HasSuffix_refl.
    + apply orb_true_iff. right. auto.
Qed.

Lemma trim_right_no_suffix f s c :
  f c = true -> HasSuffix (trim_right f s) (String c EmptyString) = false.
Proof.
  intros Hc. induction s as [|a s IH]; [reflexivity|].
  cbn [trim_right]. destruct (trim_right f s) as [|b r] eqn:Hr.
  - destruct (f a) eqn:Ha; [reflexivity|].
    cbn [HasSuffix]. rewrite orb_false_r. apply String.eqb_neq.
    intros [= ->]. congruence.
  - cbn [HasSuffix] in *. rewrite IH, orb_false_r. apply String.eqb_neq. discriminate.
Qed.

Lemma trim_left_suffix f s t :
  HasSuffix (trim_left f s) t = true -> HasSuffix s t = true.
Proof.
  induction s as [|a s IH]; cbn [trim_left]; [done|].
  destruct (f a); [|done]. intros H. apply HasSuffix_cons. auto.
Qed.

(** [TrimSpace] leaves no blank at the end. *)
Lemma TrimSpace_no_blank_suffix s c :
  is_space c = true -> HasSuffix (TrimSpace s) (String c EmptyString) = false.
Proof.
  intros Hc. unfold TrimSpace.
  destruct (HasSuffix (trim_left is_space (trim_right is_space s)) (String c EmptyString))
    eqn:H; [|done].
  apply trim_left_suffix in H. by rewrite trim_right_no_suffix in H.
Qed.

(** X12.  In the heuristic-only classifier the three tests for a prompt at
    the end of the last line ([> ], [$ ], [% ], each with its blank) can
    never succeed, because the line has been trimmed before: the prompt rule
    is decided by the three prefix tests and the two marker tests alone. *)
Theorem heuristic_suffix_tests_never_match (lines : list string) :
  HasSuffix (TrimSpace (last_line lines)) "> " = false
  /\ HasSuffix (TrimSpace (last_line lines)) "$ " = false
  /\ HasSuffix (TrimSpace (last_line lines)) "% " = false
  /\ HeuristicOnly.prompt_rule lines
     = (HasPrefix (TrimSpace (last_line lines)) "> "
        || HasPrefix (TrimSpace (last_line lines)) "$ "
        || HasPrefix (TrimSpace (last_line lines)) "% "
        || Contains (ToLower (TrimSpace (last_line lines))) "context left"
        || Contains (ToLower (TrimSpace (last_line lines))) "? for shortcuts").
Proof.
  assert (forall a, HasSuffix (TrimSpace (last_line lines)) (String a " ") = false) as H.
  { intros a. destruct (HasSuffix _ (String a " ")) eqn:E; [|done].
    apply HasSuffix_tail in E. by rewrite TrimSpace_no_blank_suffix in E. }
  split; [apply H|]. split; [apply H|]. split; [apply H|].
  unfold HeuristicOnly.prompt_rule. cbv zeta.
  rewrite (H ">"%char), (H "$"%char), (H "%"%char). by rewrite !orb_false_r.
Qed.

Lemma no_byte_cons c a s :
  no_byte c (String a s) = negb (Ascii.eqb c a) && no_byte c s.
Proof. unfold no_byte. simpl. by rewrite negb_orb. Qed.

Lemma no_byte_nil c : no_byte c EmptyString = true.
Proof. reflexivity. Qed.

Lemma no_byte_app c s t : no_byte c (s +:+ t) = no_byte c s && no_byte c t.
Proof.
  induction s as [|a s IH]; [reflexivity|].
  change (String a s +:+ t) with (String a (s +:+ t)).
  rewrite !no_byte_cons, IH. by rewrite andb_assoc.
Qed.

(** After [ReplaceAll(text, "\r", "\n")] no carriage return is left. *)
Lemma ReplaceAll_CR_gone s : no_byte "013"%char (ReplaceAll s CR LF) = true.
Proof.
  unfold ReplaceAll. induction s as [|a s IH]; [reflexivity|].
  cbn [replace_from]. unfold CR at 1. cbn [HasPrefix]. rewrite HasPrefix_nil, andb_true_r.
  destruct (Ascii.eqb a "013") eqn:Ha.
  - change (Nat.pred (String.length CR)) with O.
    unfold LF at 1. change (String "010" EmptyString +:+ ?x) with (String "010"%char x).
    rewrite no_byte_cons, IH. reflexivity.
  - rewrite no_byte_cons, IH, Ascii.eqb_sym, Ha. reflexivity.
Qed.

Lemma SplitByte_pieces s sep c :
  (c = sep \/ no_byte c s = true) ->
  Forall (fun p => no_byte c p = true) (SplitByte s sep).
Proof.
  induction s as [|a s IH]; intros Hc; cbn [SplitByte].
  - by constructor.
  - assert (c = sep \/ no_byte c s = true) as Hc'.
    { destruct Hc as [?|H]; [by left|]. right.
      rewrite no_byte_cons in H. by apply andb_true_iff in H as [_ ?]. }
    specialize (IH Hc'). destruct (Ascii.eqb_spec a sep) as [->|Hne].
    + by constructor.
    + destruct (SplitByte s sep) as [|h t]; constructor.
      * rewrite no_byte_cons, no_byte_nil, andb_true_r. apply negb_true_iff, Ascii.eqb_neq.
        destruct Hc as [->|H]; [congruence|].
        rewrite no_byte_cons in H. apply andb_true_iff in H as [H _].
        by apply negb_true_iff, Ascii.eqb_neq in H.
      * constructor.
      * inversion IH; subst. rewrite no_byte_cons. apply andb_true_iff. split; [|done].
        apply negb_true_iff, Ascii.eqb_neq.
        destruct Hc as [->|H]; [congruence|].
        rewrite no_byte_cons in H. apply andb_true_iff in H as [H _].
        by apply negb_true_iff, Ascii.eqb_neq in H.
      * by inversion IH.
Qed.

Lemma trim_right_no_byte f c s : no_byte c s = true -> no_byte c (trim_right f s) = true.
Proof.
  induction s as [|a s IH]; [done|].
  rewrite no_byte_cons. intros [Ha Hs]%andb_true_iff. cbn [trim_right].
  specialize (IH Hs). destruct (trim_right f s) as [|b r].
  - destruct (f a); [done|]. by rewrite no_byte_cons, Ha.
  - by rewrite no_byte_cons, Ha, IH.
Qed.

Lemma TrimRight_not_blank s : ends_blank (TrimRight s (TAB +:+ " ")) = false.
Proof.
  unfold ends_blank, TrimRight. apply orb_false_iff. split.
  - by apply trim_right_no_suffix.
  - by apply (trim_right_no_suffix _ _ "009"%char).
Qed.

Lemma Forall_drop_keep {A} (P : A -> Prop) n (l : list A) : Forall P l -> Forall P (drop n l).
Proof. apply Forall_drop. Qed.

Lemma normalizeLines_lines_content text maxl :
  Forall (fun line => content_line line = true) (normalizeLines text maxl).
Proof.
  unfold normalizeLines.
  set (text' := ReplaceAll (ReplaceAll text (CR +:+ LF) LF) CR LF).
  set (trimmed := List.filter (fun line => negb (String.eqb line EmptyString))
                    (map (fun line => TrimRight line (TAB +:+ " "))
                         (SplitByte text' "010"))).
  assert (Forall (fun line => content_line line = true) trimmed) as Hall.
  { unfold trimmed. apply Forall_forall. intros line Hin.
    apply list_elem_of_In, filter_In in Hin as [Hin Hne].
    apply in_map_iff in Hin as (p & <- & Hp).
    pose proof (SplitByte_pieces text' "010" "010" (or_introl eq_refl)) as Hlf.
    pose proof (SplitByte_pieces text' "010" "013"
                  (or_intror (ReplaceAll_CR_gone _))) as Hcr.
    rewrite Forall_forall in Hlf, Hcr.
    unfold content_line. rewrite Hne, TrimRight_not_blank.
    unfold TrimRight. rewrite !trim_right_no_byte; [done| |].
    - apply Hcr. by apply list_elem_of_In.
    - apply Hlf. by apply list_elem_of_In. }
  destruct (_ && _); [by apply Forall_drop | done].
Qed.

Lemma normalizeLines_len_le text maxl :
  0 < maxl -> len (normalizeLines text maxl) <= maxl.
Proof.
  intros Hpos. unfold normalizeLines.
  set (trimmed := List.filter _ _).
  destruct (Z.ltb_spec 0 maxl); [|lia].
  destruct (Z.ltb_spec maxl (Z.of_nat (length trimmed))); simpl.
  - unfold len. rewrite length_drop. lia.
  - unfold len. lia.
Qed.

(** X13.  Every content line [normalizeLines] returns is non-empty, holds
    neither a line feed nor a carriage return and does not end in a blank or
    a tab; with a positive [maxLines] at most that many lines are returned. *)
Theorem normalizeLines_content (text : string) (maxl : Z) :
  Forall (fun line => content_line line = true) (normalizeLines text maxl)
  /\ (0 < maxl -> len (normalizeLines text maxl) <= maxl).
Proof.
  split.
  - apply normalizeLines_lines_content.
  - apply normalizeLines_len_le.
Qed.

Lemma normalizeLines_content_witness :
  len (normalizeLines ("a" +:+ LF +:+ "b" +:+ LF +:+ "c") 2) <= 2.
Proof.
  destruct (normalizeLines_content ("a" +:+ LF +:+ "b" +:+ LF +:+ "c") 2) as [_ H].
  apply H. lia.
Defined.

Lemma replace_from_absent c rest new s :
  no_byte c s = true -> replace_from O s (String c rest) new = s.
Proof.
  induction s as [|a s IH]; [done|].
  rewrite no_byte_cons. intros [Ha Hs]%andb_true_iff.
  cbn [replace_from HasPrefix].
  apply negb_true_iff in Ha. rewrite Ascii.eqb_sym in Ha. rewrite Ha. simpl.
  by rewrite IH.
Qed.

Lemma SplitByte_single c e : no_byte c e = true -> SplitByte e c = [e].
Proof.
  induction e as [|a e IH]; [done|].
  rewrite no_byte_cons. intros [Ha He]%andb_true_iff. cbn [SplitByte].
  apply negb_true_iff in Ha. rewrite Ascii.eqb_sym in Ha. rewrite Ha. by rewrite IH.
Qed.

Lemma SplitByte_app_sep c e t :
  no_byte c e = true -> SplitByte (e +:+ String c t) c = e :: SplitByte t c.
Proof.
  induction e as [|a e IH].
  - intros _. simpl. by rewrite Ascii.eqb_refl.
  - rewrite no_byte_cons. intros [Ha He]%andb_true_iff.
    change (String a e +:+ String c t) with (String a (e +:+ String c t)).
    cbn [SplitByte]. apply negb_true_iff in Ha. rewrite Ascii.eqb_sym in Ha.
    rewrite Ha. by rewrite IH.
Qed.

(** Splitting what was joined gives the pieces back. *)
Lemma SplitByte_Join c l :
  l <> [] -> Forall (fun e => no_byte c e = true) l ->
  SplitByte (Join l (String c EmptyString)) c = l.
Proof.
  induction l as [|e l IH]; [done|]. intros _ Hall.
  inversion Hall as [|? ? He Hl]; subst.
  destruct l as [|e' l]; [by apply SplitByte_single|].
  change (Join (e :: e' :: l) (String c EmptyString))
    with (e +:+ String c EmptyString +:+ Join (e' :: l) (String c EmptyString)).
  change (e +:+ String c EmptyString +:+ ?x) with (e +:+ String c x).
  rewrite SplitByte_app_sep by done. by rewrite IH.
Qed.

Lemma trim_right_fixed f s :
  (forall c, f c = true -> HasSuffix s (String c EmptyString) = false) ->
  trim_right f s = s.
Proof.
  induction s as [|a s IH]; [done|]. intros Hs. cbn [trim_right].
  destruct s as [|b s].
  - simpl. destruct (f a) eqn:Ha; [|done].
    specialize (Hs a Ha). cbn [HasSuffix] in Hs. by rewrite String.eqb_refl in Hs.
  - rewrite IH; [done|]. intros c Hc. specialize (Hs c Hc).
    cbn [HasSuffix] in Hs. apply orb_false_iff in Hs as [_ Hs]. exact Hs.
Qed.

Lemma TrimRight_content s : ends_blank s = false -> TrimRight s (TAB +:+ " ") = s.
Proof.
  unfold ends_blank. intros [Hsp Htab]%orb_false_iff.
  unfold TrimRight. apply trim_right_fixed. intros c Hc.
  unfold in_cutset in Hc. simpl in Hc. rewrite orb_false_r in Hc.
  apply orb_true_iff in Hc as [Hc|Hc]; apply Ascii.eqb_eq in Hc; subst c; done.
Qed.

Lemma content_line_fields s :
  content_line s = true ->
  s <> EmptyString /\ no_byte "010" s = true /\ no_byte "013" s = true
  /\ ends_blank s = false.
Proof.
  unfold content_line. intros [[[H1 H2]%andb_true_iff H3]%andb_true_iff H4]%andb_true_iff.
  apply negb_true_iff in H1, H4. by apply String.eqb_neq in H1.
Qed.

Lemma Join_no_byte c sep l :
  no_byte c sep = true -> Forall (fun e => no_byte c e = true) l ->
  no_byte c (Join l sep) = true.
Proof.
  intros Hsep. induction l as [|e l IH]; [done|]. intros Hall.
  inversion Hall as [|? ? He Hl]; subst. destruct l as [|e' l]; [done|].
  change (Join (e :: e' :: l) sep) with (e +:+ sep +:+ Join (e' :: l) sep).
  rewrite !no_byte_app, He, Hsep. by apply IH.
Qed.

Lemma normalizeLines_Join lines maxl :
  Forall (fun line => content_line line = true) lines ->
  normalizeLines (Join lines LF) maxl
  = (if (0 <? maxl) && (maxl <? len lines)
     then drop (Z.to_nat (len lines - maxl)) lines else lines).
Proof.
  intros Hall.
  assert (Forall (fun e => no_byte "010" e = true) lines) as Hlf.
  { eapply Forall_impl; [exact Hall|]. intros s Hs. by apply content_line_fields in Hs as (_ & ? & _). }
  assert (Forall (fun e => no_byte "013" e = true) lines) as Hcr.
  { eapply Forall_impl; [exact Hall|]. intros s Hs. by apply content_line_fields in Hs as (_ & _ & ? & _). }
  unfold normalizeLines.
  assert (ReplaceAll (ReplaceAll (Join lines LF) (CR +:+ LF) LF) CR LF = Join lines LF) as ->.
  { unfold ReplaceAll.
    assert (no_byte "013" (Join lines LF) = true) as Hno by (by apply Join_no_byte).
    change (CR +:+ LF) with (String "013"%char LF). unfold CR.
    rewrite (replace_from_absent "013" LF LF _ Hno).
    exact (replace_from_absent "013" EmptyString LF _ Hno). }
  assert (List.filter (fun line => negb (String.eqb line EmptyString))
            (map (fun line => TrimRight line (TAB +:+ " ")) (SplitByte (Join lines LF) "010"))
          = lines) as ->; [|reflexivity].
  destruct lines as [|l0 lines]; [reflexivity|].
  unfold LF. rewrite SplitByte_Join by done.
  induction Hall as [|s rest Hs Hrest IH]; [done|].
  cbn [map List.filter].
  apply content_line_fields in Hs as (Hne & _ & _ & Hblank).
  rewrite TrimRight_content by done.
  apply String.eqb_neq in Hne. rewrite Hne. simpl. f_equal.
  destruct rest; [done|]. apply IH.
  - by inversion Hlf.
  - by inversion Hcr.
Qed.

(** X14.  Content lines joined by line feeds are read back unchanged (all of
    them, or the last [maxLines] when that is positive and smaller), so
    [normalizeLines] applied to its own result, joined again, returns that
    result. *)
Theorem normalizeLines_round_trip (text : string) (lines : list string) (maxl : Z) :
  (Forall (fun line => content_line line = true) lines ->
   normalizeLines (Join lines LF) maxl
   = (if (0 <? maxl) && (maxl <? len lines)
      then drop (Z.to_nat (len lines - maxl)) lines else lines))
  /\ normalizeLines (Join (normalizeLines text maxl) LF) maxl = normalizeLines text maxl.
Proof.
  split; [apply normalizeLines_Join|].
  rewrite normalizeLines_Join by apply normalizeLines_lines_content.
  destruct (Z.ltb_spec 0 maxl) as [Hpos|]; [|done].
  pose proof (normalizeLines_len_le text maxl Hpos).
  destruct (Z.ltb_spec maxl (len (normalizeLines text maxl))); [lia | done].
Qed.

Lemma normalizeLines_round_trip_witness :
  normalizeLines (Join ["$ make"; "ok"; ">"] LF) 2 = ["ok"; ">"].
Proof.
  destruct (normalizeLines_round_trip "" ["$ make"; "ok"; ">"] 2) as [H _].
  rewrite H; [reflexivity|]. repeat constructor.
Defined.

(** ** The fingerprint and the window the classifier reads *)

Lemma Join_nonempty e l sep : e <> EmptyString -> Join (e :: l) sep <> EmptyString.
Proof.
  intros He. destruct l as [|e' l]; [done|].
  change (Join (e :: e' :: l) sep) with (e +:+ sep +:+ Join (e' :: l) sep).
  destruct e; [done|]. discriminate.
Qed.

Lemma Join_LF_injective a b :
  Forall (fun line => content_line line = true) a ->
  Forall (fun line => content_line line = true) b ->
  Join a LF = Join b LF -> a = b.
Proof.
  intros Ha Hb Heq.
  assert (forall l, Forall (fun line => content_line line = true) l ->
                    Forall (fun e => no_byte "010" e = true) l) as Hlf.
  { intros l Hl. eapply Forall_impl; [exact Hl|].
    intros s Hs. by apply content_line_fields in Hs as (_ & ? & _). }
  destruct a as [|x a], b as [|y b]; [done| | |].
  - inversion Hb as [|? ? Hy _]; subst. apply content_line_fields in Hy as [Hy _].
    symmetry in Heq. by apply Join_nonempty in Heq.
  - inversion Ha as [|? ? Hx _]; subst. apply content_line_fields in Hx as [Hx _].
    by apply Join_nonempty in Heq.
  - rewrite <- (SplitByte_Join "010" (x :: a)), <- (SplitByte_Join "010" (y :: b));
      auto. unfold LF in Heq. by rewrite Heq.
Qed.

Lemma last_lines_app {A} n (older recent : list A) :
  (n <= length recent)%nat -> last_lines n (older ++ recent) = last_lines n recent.
Proof.
  intros Hn. unfold last_lines. rewrite length_app.
  destruct (Nat.ltb_spec n (length older + length recent)) as [H1|H1];
    destruct (Nat.ltb_spec n (length recent)) as [H2|H2]; try lia.
  - rewrite drop_app_ge by lia. f_equal. lia.
  - rewrite drop_app_ge by lia.
    replace (length older + length recent - n - length older)%nat with O by lia.
    reflexivity.
  - assert (length older = 0)%nat as Ho by lia. by destruct older.
Qed.

Lemma last_lines_Forall {A} (P : A -> Prop) n (l : list A) :
  Forall P l -> Forall P (last_lines n l).
Proof. intros H. unfold last_lines. destruct (_ <? _)%nat; [by apply Forall_drop | done]. Qed.

(** X15.  The fingerprint of a window is its last five content lines and
    nothing else: lines above them do not enter it, and two contents made of
    content lines have the same fingerprint exactly when their last five
    lines are the same. *)
Theorem fingerprint_is_last_five_lines (older l1 l2 recent : list string) :
  ((5 <= length recent)%nat -> currentHash (older ++ recent) = currentHash recent)
  /\ (Forall (fun line => content_line line = true) l1 ->
      Forall (fun line => content_line line = true) l2 ->
      (currentHash l1 = currentHash l2 <-> hashLines l1 = hashLines l2)).
Proof.
  split.
  - intros H. unfold currentHash, hashLines. by rewrite last_lines_app.
  - intros H1 H2. unfold currentHash. split; [|by intros ->].
    apply Join_LF_injective; by apply last_lines_Forall.
Qed.

Lemma fingerprint_is_last_five_lines_witness :
  currentHash (["make"; "cc main.c"] ++ ["1"; "2"; "3"; "4"; ">"])
  = currentHash ["1"; "2"; "3"; "4"; ">"].
Proof.
  destruct (fingerprint_is_last_five_lines ["make"; "cc main.c"] [] []
              ["1"; "2"; "3"; "4"; ">"]) as [H _].
  apply H. simpl. lia.
Defined.

Lemma last_line_app older recent :
  recent <> [] -> last_line (older ++ recent) = last_line recent.
Proof.
  intros Hne. unfold last_line. destruct recent as [|r recent]; [done|].
  induction older as [|o older IH]; [done|].
  change ((o :: older) ++ r :: recent) with (o :: (older ++ r :: recent)).
  rewrite <- IH. simpl. by destruct (older ++ r :: recent) eqn:E; [destruct older|].
Qed.

(** X16.  [inferStatus] reads the last ten lines only: whatever stands above
    them, a confirmation request that has scrolled further up included, does
    not change the status. *)
Theorem inferStatus_reads_last_ten_lines (older recent : list string) :
  (10 <= length recent)%nat -> inferStatus (older ++ recent) = inferStatus recent.
Proof.
  intros Hlen.
  assert (recent <> []) as Hne by (intros ->; simpl in Hlen; lia).
  unfold inferStatus.
  rewrite (last_lines_app 10 older recent Hlen), (last_line_app older recent Hne).
  destruct recent as [|r recent]; [done|].
  by destruct (older ++ r :: recent) eqn:E; [destruct older|].
Qed.

Lemma inferStatus_reads_last_ten_lines_witness :
  inferStatus (["Press enter to confirm"]
               ++ ["1"; "2"; "3"; "4"; "5"; "6"; "7"; "8"; "9"; "building"]) = "IDLE".
Proof.
  rewrite (inferStatus_reads_last_ten_lines ["Press enter to confirm"]
             ["1"; "2"; "3"; "4"; "5"; "6"; "7"; "8"; "9"; "building"]).
  - reflexivity.
  - simpl. lia.
Defined.

(** ** The prefixes of the command line *)

Lemma lower_byte_idem c : lower_byte (lower_byte c) = lower_byte c.
Proof. by destruct c as [[] [] [] [] [] [] [] []]. Qed.

Lemma lower_byte_space c : is_space (lower_byte c) = is_space c.
Proof. by destruct c as [[] [] [] [] [] [] [] []]. Qed.

Lemma lower_byte_comma c : Ascii.eqb "," (lower_byte c) = Ascii.eqb "," c.
Proof. by destruct c as [[] [] [] [] [] [] [] []]. Qed.

Lemma ToLower_idem s : ToLower (ToLower s) = ToLower s.
Proof. induction s as [|c s IH]; [done|]. simpl. by rewrite lower_byte_idem, IH. Qed.

Lemma ToLower_no_comma s : no_byte "," (ToLower s) = no_byte "," s.
Proof.
  induction s as [|c s IH]; [done|].
  cbn [ToLower]. by rewrite !no_byte_cons, lower_byte_comma, IH.
Qed.

Lemma trim_left_no_byte f c s : no_byte c s = true -> no_byte c (trim_left f s) = true.
Proof.
  induction s as [|a s IH]; [done|]. intros H. cbn [trim_left].
  destruct (f a); [|done]. apply IH. rewrite no_byte_cons in H.
  by apply andb_true_iff in H as [_ ?].
Qed.

Lemma trim_right_ToLower s :
  trim_right is_space (ToLower s) = ToLower (trim_right is_space s).
Proof.
  induction s as [|a s IH]; [done|].
  cbn [ToLower trim_right]. rewrite IH.
  destruct (trim_right is_space s) as [|b r]; cbn [ToLower].
  - rewrite lower_byte_space. by destruct (is_space a).
  - reflexivity.
Qed.

Lemma trim_left_ToLower s :
  trim_left is_space (ToLower s) = ToLower (trim_left is_space s).
Proof.
  induction s as [|a s IH]; [done|].
  cbn [ToLower trim_left]. rewrite lower_byte_space. by destruct (is_space a).
Qed.

Lemma TrimSpace_ToLower s : TrimSpace (ToLower s) = ToLower (TrimSpace s).
Proof. unfold TrimSpace. by rewrite trim_right_ToLower, trim_left_ToLower. Qed.

Lemma trim_right_idem f s : trim_right f (trim_right f s) = trim_right f s.
Proof.
  induction s as [|a s IH]; [done|]. cbn [trim_right].
  destruct (trim_right f s) as [|b r] eqn:Hr.
  - destruct (f a) eqn:Ha; [done|]. cbn [trim_right]. by rewrite Ha.
  - cbn [trim_right] in *. by rewrite IH.
Qed.

Lemma trim_left_idem f s : trim_left f (trim_left f s) = trim_left f s.
Proof.
  induction s as [|a s IH]; [done|]. cbn [trim_left].
  destruct (f a) eqn:Ha; [done|]. cbn [trim_left]. by rewrite Ha.
Qed.

Lemma trim_right_trim_left f s :
  trim_right f s = s -> trim_right f (trim_left f s) = trim_left f s.
Proof.
  induction s as [|a s IH]; [done|]. intros Hfix. cbn [trim_left].
  destruct (f a) eqn:Ha; [|done]. apply IH.
  cbn [trim_right] in Hfix. rewrite Ha in Hfix.
  destruct (trim_right f s) as [|b r]; [done|]. by injection Hfix.
Qed.

Lemma TrimSpace_idem s : TrimSpace (TrimSpace s) = TrimSpace s.
Proof.
  unfold TrimSpace.
  rewrite (trim_right_trim_left is_space (trim_right is_space s)) by apply trim_right_idem.
  apply trim_left_idem.
Qed.

Lemma clean_prefix_fields p :
  clean_prefix p = true ->
  p <> EmptyString /\ no_byte "," p = true /\ ToLower p = p /\ TrimSpace p = p.
Proof.
  unfold clean_prefix. intros [[[H1 H2]%andb_true_iff H3]%andb_true_iff H4]%andb_true_iff.
  apply negb_true_iff, String.eqb_neq in H1.
  apply String.eqb_eq in H3, H4. done.
Qed.

Lemma parsePrefixes_clean s : Forall (fun p => clean_prefix p = true) (parsePrefixes s).
Proof.
  unfold parsePrefixes. apply Forall_forall. intros p Hin.
  apply list_elem_of_In, filter_In in Hin as [Hin Hne].
  apply in_map_iff in Hin as (q & <- & Hq).
  pose proof (SplitByte_pieces s "," "," (or_introl eq_refl)) as Hcomma.
  rewrite Forall_forall in Hcomma. specialize (Hcomma q (proj2 (list_elem_of_In _ _) Hq)).
  unfold clean_prefix. rewrite Hne, ToLower_idem, String.eqb_refl.
  rewrite ToLower_no_comma, TrimSpace_ToLower, TrimSpace_idem, String.eqb_refl.
  unfold TrimSpace. by rewrite trim_left_no_byte by by apply trim_right_no_byte.
Qed.

Lemma parsePrefixes_Join ps :
  Forall (fun p => clean_prefix p = true) ps -> parsePrefixes (Join ps ",") = ps.
Proof.
  intros Hall. destruct ps as [|p0 ps]; [reflexivity|].
  unfold parsePrefixes. rewrite (SplitByte_Join "," (p0 :: ps)); [|done|].
  - induction Hall as [|p rest Hp Hrest IH]; [done|].
    apply clean_prefix_fields in Hp as (Hne & _ & Hlow & Htrim).
    cbn [map List.filter]. rewrite Htrim, Hlow.
    apply String.eqb_neq in Hne. rewrite Hne. simpl. by f_equal.
  - eapply Forall_impl; [exact Hall|].
    intros p Hp. by apply clean_prefix_fields in Hp as (_ & ? & _).
Qed.

Example parsePrefixes_default : parsePrefixes "codex,claude,gemini" = default_prefixes.
Proof. reflexivity. Qed.

Example parsePrefixes_untidy : parsePrefixes " Codex, ,CLAUDE ,," = ["codex"; "claude"].
Proof. reflexivity. Qed.

Lemma is_ascii_cons c s : is_ascii (String c s) = ascii_byte c && is_ascii s.
Proof. reflexivity. Qed.

Lemma lower_byte_ascii c : ascii_byte (lower_byte c) = ascii_byte c.
Proof. by destruct c as [[] [] [] [] [] [] [] []]. Qed.

Lemma ToLower_is_ascii s : is_ascii (ToLower s) = is_ascii s.
Proof.
  induction s as [|c s IH]; [done|].
  cbn [ToLower]. by rewrite !is_ascii_cons, lower_byte_ascii, IH.
Qed.

Lemma trim_left_is_ascii f s : is_ascii s = true -> is_ascii (trim_left f s) = true.
Proof.
  induction s as [|c s IH]; [done|]. intros H. cbn [trim_left].
  destruct (f c); [|done]. apply IH. rewrite is_ascii_cons in H.
  by apply andb_true_iff in H as [_ ?].
Qed.

Lemma trim_right_is_ascii f s : is_ascii s = true -> is_ascii (trim_right f s) = true.
Proof.
  induction s as [|c s IH]; [done|]. intros H. cbn [trim_right].
  rewrite is_ascii_cons in H. apply andb_true_iff in H as [Hc Hs].
  specialize (IH Hs). destruct (trim_right f s) as [|b r].
  - destruct (f c); [done|]. by rewrite is_ascii_cons, Hc.
  - by rewrite is_ascii_cons, Hc, IH.
Qed.

Lemma SplitByte_is_ascii s sep :
  is_ascii s = true -> Forall (fun p => is_ascii p = true) (SplitByte s sep).
Proof.
  induction s as [|c s IH]; intros H; [by repeat constructor|].
  rewrite is_ascii_cons in H. apply andb_true_iff in H as [Hc Hs]. specialize (IH Hs).
  cbn [SplitByte]. destruct (Ascii.eqb c sep); [by constructor|].
  destruct (SplitByte s sep) as [|h t]; [by repeat constructor; rewrite is_ascii_cons, Hc|].
  inversion IH as [|? ? Hh Ht]; subst. constructor; [|done].
  by rewrite is_ascii_cons, Hc, Hh.
Qed.

Lemma parsePrefixes_is_ascii s :
  is_ascii s = true -> Forall (fun p => is_ascii p = true) (parsePrefixes s).
Proof.
  intros Hs. unfold parsePrefixes. apply Forall_forall. intros p Hin.
  apply list_elem_of_In, filter_In in Hin as [Hin _].
  apply in_map_iff in Hin as (q & <- & Hq).
  pose proof (SplitByte_is_ascii s "," Hs) as Hall.
  rewrite Forall_forall in Hall. specialize (Hall q (proj2 (list_elem_of_In _ _) Hq)).
  rewrite ToLower_is_ascii. unfold TrimSpace.
  by apply trim_left_is_ascii, trim_right_is_ascii.
Qed.

(** X17.  On ASCII text, every prefix [parsePrefixes] returns is non-empty,
    lower-case, without blanks around it and without a comma, and is ASCII
    text again, so parsing the parsed prefixes again changes nothing; a list
    of such ASCII prefixes written with commas is read back as it is. *)
Theorem parsePrefixes_round_trip (s : string) (ps : list string) :
  (is_ascii s = true ->
   Forall (fun p => clean_prefix p = true /\ is_ascii p = true) (parsePrefixes s)
   /\ parsePrefixes (Join (parsePrefixes s) ",") = parsePrefixes s)
  /\ (Forall (fun p => clean_prefix p = true /\ is_ascii p = true) ps ->
      parsePrefixes (Join ps ",") = ps).
Proof.
  split.
  - intros Hs. split.
    + pose proof (parsePrefixes_clean s) as Hc.
      pose proof (parsePrefixes_is_ascii s Hs) as Ha.
      rewrite Forall_forall in Hc, Ha. apply Forall_forall. intros p Hp.
      split; [by apply Hc | by apply Ha].
    + apply parsePrefixes_Join, parsePrefixes_clean.
  - intros Hall. apply parsePrefixes_Join.
    eapply Forall_impl; [exact Hall|]. by intros p [Hp _].
Qed.

Lemma parsePrefixes_round_trip_witness :
  parsePrefixes (Join (parsePrefixes " Codex, ,CLAUDE ,,") ",")
  = parsePrefixes " Codex, ,CLAUDE ,,"
  /\ parsePrefixes (Join default_prefixes ",") = default_prefixes.
Proof.
  destruct (parsePrefixes_round_trip " Codex, ,CLAUDE ,," default_prefixes) as [H1 H2].
  split.
  - destruct (H1 eq_refl) as [_ H]. exact H.
  - apply H2. repeat constructor.
Defined.

(** ** Runes and bytes *)

Ltac divmod := Z.to_euclidean_division_equations; lia.

Lemma lor_disjoint A B k :
  0 <= k -> A mod 2 ^ k = 0 -> 0 <= B < 2 ^ k -> Z.lor A B = A + B.
Proof.
  intros Hk HA HB.
  rewrite <- (Z.add_lor_land A B).
  assert (Z.land A B = 0) as ->; [|lia].
  apply Z.bits_inj'. intros n Hn. rewrite Z.land_spec, Z.bits_0.
  destruct (Z.lt_ge_cases n k) as [Hlt|Hge].
  - rewrite <- (Z.mod_pow2_bits_low A k n Hlt), HA, Z.bits_0. reflexivity.
  - rewrite <- (Z.mod_small B (2 ^ k)) by lia.
    rewrite Z.mod_pow2_bits_high by lia. apply andb_false_r.
Qed.

Lemma low6_mod b : low6 b = b mod 64.
Proof. unfold low6. change 0x3F with (Z.ones 6). by rewrite Z.land_ones. Qed.

Lemma continuation_0 r : continuation r 0 = 128 + r mod 64.
Proof.
  unfold continuation. rewrite Z.shiftr_0_r. change 0x3F with (Z.ones 6).
  rewrite Z.land_ones by lia. apply (lor_disjoint 128 _ 6); [lia | done | divmod].
Qed.

Lemma continuation_6 r : continuation r 6 = 128 + (r / 64) mod 64.
Proof.
  unfold continuation. rewrite Z.shiftr_div_pow2 by lia. change 0x3F with (Z.ones 6).
  rewrite Z.land_ones by lia. change (2 ^ 6) with 64.
  apply (lor_disjoint 128 _ 6); [lia | done | divmod].
Qed.

Lemma continuation_12 r : continuation r 12 = 128 + (r / 4096) mod 64.
Proof.
  unfold continuation. rewrite Z.shiftr_div_pow2 by lia. change 0x3F with (Z.ones 6).
  rewrite Z.land_ones by lia. change (2 ^ 12) with 4096. change (2 ^ 6) with 64.
  apply (lor_disjoint 128 _ 6); [lia | done | divmod].
Qed.

Lemma lead_2 r : 0x80 <= r < 0x800 -> Z.lor 0xC0 (Z.shiftr r 6) = 192 + r / 64.
Proof.
  intros Hr. rewrite Z.shiftr_div_pow2 by lia. change (2 ^ 6) with 64.
  apply (lor_disjoint 192 _ 6); [lia | done | divmod].
Qed.

Lemma lead_3 r : 0x800 <= r < 0x10000 -> Z.lor 0xE0 (Z.shiftr r 12) = 224 + r / 4096.
Proof.
  intros Hr. rewrite Z.shiftr_div_pow2 by lia. change (2 ^ 12) with 4096.
  apply (lor_disjoint 224 _ 5); [lia | done | divmod].
Qed.

Lemma lead_4 r : 0x10000 <= r <= 0x10FFFF -> Z.lor 0xF0 (Z.shiftr r 18) = 240 + r / 262144.
Proof.
  intros Hr. rewrite Z.shiftr_div_pow2 by lia. change (2 ^ 18) with 262144.
  apply (lor_disjoint 240 _ 4); [lia | done | divmod].
Qed.

Lemma decoded_2 b0 b1 :
  Z.lor (Z.shiftl (Z.land b0 0x1F) 6) (low6 b1) = (b0 mod 32) * 64 + b1 mod 64.
Proof.
  rewrite low6_mod. change 0x1F with (Z.ones 5). rewrite Z.land_ones by lia.
  rewrite Z.shiftl_mul_pow2 by lia. change (2 ^ 5) with 32. change (2 ^ 6) with 64.
  apply (lor_disjoint _ _ 6); [lia | divmod | divmod].
Qed.

Lemma decoded_3 b0 b1 b2 :
  Z.lor (Z.shiftl (Z.land b0 0x0F) 12) (Z.lor (Z.shiftl (low6 b1) 6) (low6 b2))
  = (b0 mod 16) * 4096 + (b1 mod 64) * 64 + b2 mod 64.
Proof.
  rewrite !low6_mod. change 0x0F with (Z.ones 4). rewrite Z.land_ones by lia.
  rewrite !Z.shiftl_mul_pow2 by lia.
  change (2 ^ 4) with 16. change (2 ^ 6) with 64. change (2 ^ 12) with 4096.
  rewrite (lor_disjoint (b1 mod 64 * 64) (b2 mod 64) 6); [|lia|divmod|divmod].
  rewrite (lor_disjoint _ _ 12); [lia | lia | divmod | divmod].
Qed.

Lemma decoded_4 b0 b1 b2 b3 :
  Z.lor (Z.shiftl (Z.land b0 0x07) 18)
    (Z.lor (Z.shiftl (low6 b1) 12) (Z.lor (Z.shiftl (low6 b2) 6) (low6 b3)))
  = (b0 mod 8) * 262144 + (b1 mod 64) * 4096 + (b2 mod 64) * 64 + b3 mod 64.
Proof.
  rewrite !low6_mod. change 0x07 with (Z.ones 3). rewrite Z.land_ones by lia.
  rewrite !Z.shiftl_mul_pow2 by lia.
  change (2 ^ 3) with 8. change (2 ^ 6) with 64. change (2 ^ 12) with 4096.
  change (2 ^ 18) with 262144.
  rewrite (lor_disjoint (b2 mod 64 * 64) (b3 mod 64) 6); [|lia|divmod|divmod].
  rewrite (lor_disjoint (b1 mod 64 * 4096) _ 12); [|lia|divmod|divmod].
  rewrite (lor_disjoint _ _ 18); [lia | lia | divmod | divmod].
Qed.

Lemma in_range_true lo hi b : lo <= b <= hi -> in_range lo hi b = true.
Proof. intros H. unfold in_range. apply andb_true_iff. split; apply Z.leb_le; lia. Qed.

Lemma in_range_spec lo hi b : in_range lo hi b = true <-> lo <= b <= hi.
Proof. unfold in_range. rewrite andb_true_iff, !Z.leb_le. done. Qed.

Lemma valid_rune_spec r :
  valid_rune r = true <-> 0 <= r <= 0x10FFFF /\ ~ (0xD800 <= r <= 0xDFFF).
Proof.
  unfold valid_rune. rewrite !andb_true_iff, negb_true_iff, andb_false_iff, !Z.leb_le.
  rewrite !Z.leb_gt. lia.
Qed.

(** The encoding of a valid code point is decoded to that code point, and the
    decoder goes on behind it. *)
Lemma decode_encode_valid r tail :
  valid_rune r = true ->
  decode_from O (encode_rune r ++ tail) = r :: decode_from O tail.
Proof.
  intros Hv. pose proof (proj1 (valid_rune_spec r) Hv) as [Hr Hs].
  unfold encode_rune.
  assert ((r <? 0) || (0x10FFFF <? r) || ((0xD800 <=? r) && (r <=? 0xDFFF)) = false) as ->.
  { apply orb_false_iff. split; [apply orb_false_iff; split; apply Z.ltb_ge; lia|].
    apply andb_false_iff. rewrite !Z.leb_gt. lia. }
  destruct (Z.ltb_spec r 0x80) as [H1|H1].
  { cbn [app decode_from]. unfold decode_first.
    destruct (Z.ltb_spec r 0x80); [reflexivity | lia]. }
  destruct (Z.ltb_spec r 0x800) as [H2|H2].
  { rewrite lead_2, continuation_0 by lia. cbn [app decode_from]. unfold decode_first.
    destruct (Z.ltb_spec (192 + r / 64) 0x80); [divmod|].
    rewrite (in_range_true 0xC2 0xDF) by divmod.
    rewrite (in_range_true 0x80 0xBF) by divmod.
    rewrite decoded_2. cbn [Nat.pred decode_from]. f_equal. divmod. }
  destruct (Z.ltb_spec r 0x10000) as [H3|H3].
  { rewrite lead_3, continuation_6, continuation_0 by lia.
    cbn [app decode_from]. unfold decode_first.
    destruct (Z.ltb_spec (224 + r / 4096) 0x80); [divmod|].
    destruct (in_range 0xC2 0xDF (224 + r / 4096)) eqn:E.
    { apply in_range_spec in E. divmod. }
    rewrite (in_range_true 0xE0 0xEF) by divmod.
    assert (in_range (if 224 + r / 4096 =? 0xE0 then 0xA0 else 0x80)
                     (if 224 + r / 4096 =? 0xED then 0x9F else 0xBF)
                     (128 + (r / 64) mod 64) = true) as ->.
    { apply in_range_true.
      destruct (Z.eqb_spec (224 + r / 4096) 0xE0);
        destruct (Z.eqb_spec (224 + r / 4096) 0xED); divmod. }
    rewrite (in_range_true 0x80 0xBF) by divmod.
    rewrite decoded_3. cbn [andb Nat.pred decode_from]. f_equal. divmod. }
  rewrite lead_4, continuation_12, continuation_6, continuation_0 by lia.
  cbn [app decode_from]. unfold decode_first.
  destruct (Z.ltb_spec (240 + r / 262144) 0x80); [divmod|].
  destruct (in_range 0xC2 0xDF (240 + r / 262144)) eqn:E.
  { apply in_range_spec in E. divmod. }
  destruct (in_range 0xE0 0xEF (240 + r / 262144)) eqn:E'.
  { apply in_range_spec in E'. divmod. }
  rewrite (in_range_true 0xF0 0xF4) by divmod.
  assert (in_range (if 240 + r / 262144 =? 0xF0 then 0x90 else 0x80)
                   (if 240 + r / 262144 =? 0xF4 then 0x8F else 0xBF)
                   (128 + (r / 4096) mod 64) = true) as ->.
  { apply in_range_true.
    destruct (Z.eqb_spec (240 + r / 262144) 0xF0);
      destruct (Z.eqb_spec (240 + r / 262144) 0xF4); divmod. }
  rewrite !(in_range_true 0x80 0xBF) by divmod.
  rewrite decoded_4. cbn [andb Nat.pred decode_from]. f_equal. divmod.
Qed.

Lemma Z_of_byte_range c : is_byte (Z_of_byte c).
Proof.
  unfold is_byte, Z_of_byte. pose proof (N_ascii_bounded c) as H. lia.
Qed.

Lemma Z_of_byte_of_Z n : is_byte n -> Z_of_byte (byte_of_Z n) = n.
Proof.
  intros [H0 H1]. unfold Z_of_byte, byte_of_Z.
  rewrite N_ascii_embedding by lia. lia.
Qed.

Lemma bytes_of_string_of_bytes bs :
  Forall is_byte bs -> map Z_of_byte (list_ascii_of_string (string_of_bytes bs)) = bs.
Proof.
  intros H. unfold string_of_bytes. rewrite list_ascii_of_string_of_list_ascii.
  induction H as [|b bs Hb _ IH]; [reflexivity|].
  cbn [map]. by rewrite Z_of_byte_of_Z, IH.
Qed.

Lemma canonical_rune_valid r : valid_rune (canonical_rune r) = true.
Proof. unfold canonical_rune. by destruct (valid_rune r) eqn:E. Qed.

Lemma encode_rune_canonical r : encode_rune (canonical_rune r) = encode_rune r.
Proof.
  unfold canonical_rune. destruct (valid_rune r) eqn:E; [reflexivity|].
  unfold encode_rune at 2.
  assert ((r <? 0) || (0x10FFFF <? r) || ((0xD800 <=? r) && (r <=? 0xDFFF)) = true) as ->;
    [|reflexivity].
  unfold valid_rune in E.
  destruct (Z.ltb_spec r 0), (Z.ltb_spec 0x10FFFF r), (Z.leb_spec 0 r),
    (Z.leb_spec r 0x10FFFF), (Z.leb_spec 0xD800 r), (Z.leb_spec r 0xDFFF);
    try reflexivity; try discriminate; lia.
Qed.

Lemma encode_rune_bytes r : Forall is_byte (encode_rune r).
Proof.
  rewrite <- encode_rune_canonical.
  pose proof (proj1 (valid_rune_spec _) (canonical_rune_valid r)) as [Hr Hs].
  generalize dependent (canonical_rune r). clear r. intros r Hr Hs.
  unfold encode_rune, is_byte.
  assert ((r <? 0) || (0x10FFFF <? r) || ((0xD800 <=? r) && (r <=? 0xDFFF)) = false) as ->.
  { apply orb_false_iff. split; [apply orb_false_iff; split; apply Z.ltb_ge; lia|].
    apply andb_false_iff. rewrite !Z.leb_gt. lia. }
  destruct (Z.ltb_spec r 0x80); [repeat constructor; lia|].
  destruct (Z.ltb_spec r 0x800).
  { rewrite lead_2, continuation_0 by lia. repeat constructor; divmod. }
  destruct (Z.ltb_spec r 0x10000).
  { rewrite lead_3, continuation_6, continuation_0 by lia. repeat constructor; divmod. }
  rewrite lead_4, continuation_12, continuation_6, continuation_0 by lia.
  repeat constructor; divmod.
Qed.

Lemma flat_map_encode_bytes rs : Forall is_byte (flat_map encode_rune rs).
Proof.
  induction rs as [|r rs IH]; [constructor|].
  cbn [flat_map]. apply Forall_app. split; [apply encode_rune_bytes | exact IH].
Qed.

(** Decoding an encoded sequence gives the code points back, the ones that
    cannot be encoded as U+FFFD. *)
Lemma decode_encode rs tail :
  decode_from O (flat_map encode_rune rs ++ tail)
  = map canonical_rune rs ++ decode_from O tail.
Proof.
  induction rs as [|r rs IH]; [reflexivity|].
  cbn [flat_map map]. rewrite <- app_assoc, <- encode_rune_canonical.
  rewrite decode_encode_valid by apply canonical_rune_valid.
  by rewrite IH.
Qed.

Lemma runes_of_string_of_runes rs :
  runes_of_string (string_of_runes rs) = map canonical_rune rs.
Proof.
  unfold runes_of_string, string_of_runes.
  rewrite bytes_of_string_of_bytes by apply flat_map_encode_bytes.
  rewrite <- (app_nil_r (flat_map encode_rune rs)), decode_encode.
  apply app_nil_r.
Qed.

Lemma list_ascii_of_string_app a b :
  list_ascii_of_string (a +:+ b) = list_ascii_of_string a ++ list_ascii_of_string b.
Proof.
  induction a as [|c a IH]; [reflexivity|].
  change (String c a +:+ b) with (String c (a +:+ b)).
  cbn [list_ascii_of_string app]. f_equal. exact IH.
Qed.

Lemma runes_of_string_app rs t :
  runes_of_string (string_of_runes rs +:+ t) = map canonical_rune rs ++ runes_of_string t.
Proof.
  unfold runes_of_string. rewrite list_ascii_of_string_app, map_app.
  fold (runes_of_string t). unfold string_of_runes.
  rewrite bytes_of_string_of_bytes by apply flat_map_encode_bytes.
  apply decode_encode.
Qed.

Lemma RuneError_valid : valid_rune RuneError = true.
Proof. reflexivity. Qed.

(** Whatever the bytes are, the decoder delivers code points only. *)
Lemma decode_first_valid b0 rest :
  is_byte b0 -> valid_rune (fst (decode_first b0 rest)) = true.
Proof.
  intros [H0 H1]. unfold decode_first.
  destruct (Z.ltb_spec b0 0x80). { apply valid_rune_spec; cbn [fst]; lia. }
  destruct (in_range 0xC2 0xDF b0) eqn:E2.
  { apply in_range_spec in E2. destruct rest as [|b1 rest]; [reflexivity|].
    destruct (in_range 0x80 0xBF b1) eqn:E; [|reflexivity]. apply in_range_spec in E.
    cbn [fst]. rewrite decoded_2. apply valid_rune_spec. divmod. }
  destruct (in_range 0xE0 0xEF b0) eqn:E3.
  { apply in_range_spec in E3. destruct rest as [|b1 [|b2 rest]]; try reflexivity.
    destruct (in_range _ _ b1 && in_range _ _ b2) eqn:E; [|reflexivity].
    apply andb_true_iff in E as [Ea Eb]. apply in_range_spec in Ea, Eb.
    cbn [fst]. rewrite decoded_3. apply valid_rune_spec.
    destruct (Z.eqb_spec b0 0xE0), (Z.eqb_spec b0 0xED); divmod. }
  destruct (in_range 0xF0 0xF4 b0) eqn:E4; [|reflexivity].
  apply in_range_spec in E4. destruct rest as [|b1 [|b2 [|b3 rest]]]; try reflexivity.
  destruct (in_range _ _ b1 && in_range _ _ b2 && in_range _ _ b3) eqn:E; [|reflexivity].
  apply andb_true_iff in E as [E Ec]. apply andb_true_iff in E as [Ea Eb].
  apply in_range_spec in Ea, Eb, Ec.
  cbn [fst]. rewrite decoded_4. apply valid_rune_spec.
  destruct (Z.eqb_spec b0 0xF0), (Z.eqb_spec b0 0xF4); divmod.
Qed.

Lemma decode_from_valid bs :
  Forall is_byte bs -> forall skip, Forall (fun r => valid_rune r = true) (decode_from skip bs).
Proof.
  induction 1 as [|b bs Hb _ IH]; intros skip; cbn [decode_from]; [constructor|].
  destruct skip as [|k]; [|apply IH].
  destruct (decode_first b bs) as [r w] eqn:E. constructor; [|apply IH].
  change r with (fst (r, w)). rewrite <- E. by apply decode_first_valid.
Qed.

Lemma runes_of_string_valid s :
  Forall (fun r => valid_rune r = true) (runes_of_string s).
Proof.
  apply decode_from_valid. apply Forall_forall. intros b Hb.
  apply list_elem_of_fmap in Hb as (c & -> & _). apply Z_of_byte_range.
Qed.

Lemma canonical_rune_fixed rs :
  Forall (fun r => valid_rune r = true) rs -> map canonical_rune rs = rs.
Proof.
  induction 1 as [|r rs Hr _ IH]; [reflexivity|].
  cbn [map]. unfold canonical_rune at 1. by rewrite Hr, IH.
Qed.

Lemma len_nonneg {A} (l : list A) : 0 <= len l.
Proof. unfold len. lia. Qed.

Lemma len_take {A} (l : list A) n : 0 <= n <= len l -> len (take (Z.to_nat n) l) = n.
Proof. unfold len. intros H. rewrite length_take. lia. Qed.

(** [truncateString] raises the run-time panic exactly for a negative bound. *)
Lemma truncateString_None s maxLen : truncateString s maxLen = None <-> maxLen < 0.
Proof.
  unfold truncateString, slice_to. pose proof (len_nonneg (runes_of_string s)) as Hlen.
  destruct (Z.leb_spec (len (runes_of_string s)) maxLen) as [H|H]; [split; [discriminate | lia]|].
  destruct (Z.leb_spec maxLen 3) as [H3|H3].
  - destruct (Z.leb_spec 0 maxLen), (Z.leb_spec maxLen (len (runes_of_string s)));
      cbn [andb]; split; try discriminate; try reflexivity; lia.
  - destruct (Z.leb_spec 0 (maxLen - 3)), (Z.leb_spec (maxLen - 3) (len (runes_of_string s)));
      cbn [andb]; split; try discriminate; try reflexivity; lia.
Qed.

(** X18.  For a bound that is not negative, [truncateString] returns a string
    of at most that many runes: the argument itself when it fits, its first
    [maxLen] runes for a bound up to three, and otherwise its first
    [maxLen - 3] runes followed by three dots.  The cut is made between runes,
    never inside the bytes of one. *)
Theorem truncateString_fits s maxLen :
  0 <= maxLen ->
  exists t,
    truncateString s maxLen = Some t
    /\ len (runes_of_string t) = Z.min (len (runes_of_string s)) maxLen
    /\ (len (runes_of_string s) <= maxLen -> t = s)
    /\ (maxLen < len (runes_of_string s) ->
        runes_of_string t
        = if maxLen <=? 3 then take (Z.to_nat maxLen) (runes_of_string s)
          else take (Z.to_nat (maxLen - 3)) (runes_of_string s) ++ runes_of_string "...").
Proof.
  intros Hmax. unfold truncateString, slice_to.
  pose proof (runes_of_string_valid s) as Hvalid.
  destruct (Z.leb_spec (len (runes_of_string s)) maxLen) as [H|H].
  { exists s. repeat split; [lia | lia]. }
  destruct (Z.leb_spec maxLen 3) as [H3|H3].
  - destruct (Z.leb_spec 0 maxLen); [|lia].
    destruct (Z.leb_spec maxLen (len (runes_of_string s))); [|lia]. cbn [andb].
    eexists. split; [reflexivity|].
    rewrite runes_of_string_of_runes, canonical_rune_fixed by (by apply Forall_take).
    rewrite len_take by lia. repeat split; [lia | lia].
  - destruct (Z.leb_spec 0 (maxLen - 3)); [|lia].
    destruct (Z.leb_spec (maxLen - 3) (len (runes_of_string s))); [|lia]. cbn [andb].
    eexists. split; [reflexivity|].
    rewrite runes_of_string_app, canonical_rune_fixed by (by apply Forall_take).
    split; [|split; [lia | reflexivity]].
    change (len (?a ++ ?b)) with (Z.of_nat (length (a ++ b))).
    rewrite length_app. change (length (runes_of_string "...")) with 3%nat.
    pose proof (len_take (runes_of_string s) (maxLen - 3)) as Ht. unfold len in *. lia.
Qed.

Lemma truncateString_fits_witness :
  0 <= 6 /\
  exists t,
    truncateString "claude-notes" 6 = Some t
    /\ len (runes_of_string t) = Z.min (len (runes_of_string "claude-notes")) 6
    /\ (len (runes_of_string "claude-notes") <= 6 -> t = "claude-notes"%string)
    /\ (6 < len (runes_of_string "claude-notes") ->
        runes_of_string t
        = if 6 <=? 3 then take (Z.to_nat 6) (runes_of_string "claude-notes")
          else take (Z.to_nat (6 - 3)) (runes_of_string "claude-notes")
               ++ runes_of_string "...").
Proof. split; [lia | apply (truncateString_fits "claude-notes" 6); lia]. Defined.

(** ** The output panel in a narrow terminal *)

Lemma output_rows_None (Width : string -> Z) w ls :
  (forall s, 0 <= Width s) -> w < 0 -> ls <> [] -> output_rows Width w ls = None.
Proof.
  intros HW Hw Hls. destruct ls as [|line rest]; [done|].
  cbn [output_rows]. specialize (HW line).
  destruct (Z.ltb_spec w (Width line)); [|lia].
  by rewrite (proj2 (truncateString_None line w) Hw).
Qed.

Lemma output_rows_Some (Width : string -> Z) w ls :
  0 <= w -> output_rows Width w ls <> None.
Proof.
  intros Hw. induction ls as [|line rest IH]; [done|].
  cbn [output_rows].
  assert ((if w <? Width line then truncateString line w else Some line) <> None) as Hline.
  { destruct (w <? Width line); [|done]. rewrite truncateString_None. lia. }
  destruct (if w <? Width line then truncateString line w else Some line); [|done].
  by destruct (output_rows Width w rest).
Qed.

Lemma output_content_None (Width : string -> Z) (Render : style -> string -> string) m w h :
  (forall s, 0 <= Width s) -> 0 <= selected m ->
  output_content Width Render m w h = None
  <-> w < 2 /\ exists s, selectedSession m = Some s /\ Lines s <> [].
Proof.
  intros HW Hsel. unfold output_content, selectedSession, index.
  pose proof (len_nonneg (filteredSessions m)) as Hlen.
  destruct (Z.eqb_spec (len (filteredSessions m)) 0) as [H0|H0].
  { cbn [orb]. destruct (Z.ltb_spec 0 (len (filteredSessions m))); [lia|].
    cbn [andb]. split; [discriminate | by intros (_ & s & ? & _)]. }
  destruct (Z.leb_spec (len (filteredSessions m)) (selected m)) as [H1|H1].
  { cbn [orb]. destruct (Z.ltb_spec (selected m) (len (filteredSessions m))); [lia|].
    rewrite andb_false_r. split; [discriminate | by intros (_ & s & ? & _)]. }
  cbn [orb].
  destruct (Z.ltb_spec 0 (len (filteredSessions m))); [|lia].
  destruct (Z.leb_spec 0 (selected m)); [|lia].
  destruct (Z.ltb_spec (selected m) (len (filteredSessions m))); [|lia].
  destruct (Z.ltb_spec (selected m) 0); [lia|]. cbn [andb].
  destruct (filteredSessions m !! Z.to_nat (selected m)) as [s|] eqn:Es.
  2:{ apply lookup_ge_None in Es. unfold len in *. lia. }
  pose proof (len_nonneg (Lines s)) as Hlogs.
  destruct (Z.eqb_spec (len (Lines s)) 0) as [He|He].
  { split; [discriminate|]. intros (_ & s' & [= <-] & Hne).
    destruct (Lines s); [done | discriminate]. }
  assert (Lines s <> []) as Hne by (intros E; rewrite E in He; done).
  set (displayLines := if _ <? len (Lines s) then _ else Lines s).
  assert (displayLines <> []) as Hd.
  { subst displayLines. destruct (Z.ltb_spec (if h - 2 <? 1 then 1 else h - 2) (len (Lines s)));
      [|done].
    intros E. apply (f_equal length) in E. rewrite length_drop in E. cbn [length] in E.
    unfold len in *. destruct (Z.ltb_spec (h - 2) 1); lia. }
  split.
  - intros Hnone. split; [|by exists s].
    destruct (Z.lt_ge_cases w 2); [done|].
    by apply (output_rows_Some Width (w - 2) displayLines) in Hnone; [|lia].
  - intros [Hw _]. apply output_rows_None; [done | lia | done].
Qed.

(** X19.  In a terminal at most 36 columns wide the output panel cannot be
    drawn: [View] hands [renderOutputPanel] a width below 2, every line of
    the selected session is wider than the negative inner width, and
    [truncateString] slices with a negative bound, which is a run-time
    panic.  In every wider terminal, and whenever no session with output is
    selected, the panel is drawn. *)
Theorem narrow_terminal_output_panics
    (Width : string -> Z) (Render : style -> string -> string) (m : model) :
  (forall s, 0 <= Width s) ->
  0 <= selected m ->
  View_output Width Render m = None
  <-> width m <= 36 /\ exists s, selectedSession m = Some s /\ Lines s <> [].
Proof.
  intros HW Hsel. unfold View_output, renderOutputPanel.
  pose proof (output_content_None Width Render m
    (width m - (if Z.quot (width m) 2 <? 35 then 35 else Z.quot (width m) 2))
    (height m - 2) HW Hsel) as Hc.
  destruct (output_content _ _ m _ _).
  - split; [discriminate|]. intros [Hw Hs].
    apply proj2 in Hc. discriminate Hc. split; [|exact Hs].
    destruct (Z.ltb_spec (Z.quot (width m) 2) 35); [lia|].
    Z.to_euclidean_division_equations; lia.
  - split; [|done]. intros _. destruct (proj1 Hc eq_refl) as [Hw Hs].
    split; [|exact Hs].
    destruct (Z.ltb_spec (Z.quot (width m) 2) 35); [lia|].
    Z.to_euclidean_division_equations; lia.
Qed.

Lemma plain_Width_nonneg s : 0 <= plain_Width s.
Proof. apply len_nonneg. Qed.

Lemma narrow_terminal_output_panics_witness :
  View_output plain_Width plain_Render narrow_model = None.
Proof.
  apply (narrow_terminal_output_panics plain_Width plain_Render narrow_model).
  - exact plain_Width_nonneg.
  - vm_compute. discriminate.
  - split; [vm_compute; discriminate|].
    eexists. split; [vm_compute; reflexivity | discriminate].
Defined.

(** ** Letter case in [extractAI] *)

Lemma lower_byte_slash c : Ascii.eqb (lower_byte c) "/" = Ascii.eqb c "/".
Proof. by destruct c as [[] [] [] [] [] [] [] []]. Qed.

Lemma LastIndexByte_ToLower s : LastIndexByte (ToLower s) "/" = LastIndexByte s "/".
Proof.
  induction s as [|c s IH]; [done|].
  cbn [ToLower LastIndexByte]. by rewrite IH, lower_byte_slash.
Qed.

Lemma drop_bytes_ToLower n s : drop_bytes n (ToLower s) = ToLower (drop_bytes n s).
Proof.
  revert s. induction n as [|n IH]; intros s; [by destruct s|].
  destruct s as [|c s]; [done|]. cbn [ToLower drop_bytes]. apply IH.
Qed.

Lemma basename_ToLower arg : basename (ToLower arg) = ToLower (basename arg).
Proof.
  unfold basename, slice_from. rewrite LastIndexByte_ToLower.
  destruct (0 <=? LastIndexByte arg "/"); [apply drop_bytes_ToLower | done].
Qed.

Lemma token_match_ToLower arg p : token_match (ToLower arg) p = token_match arg p.
Proof.
  unfold token_match, base_match, path_match.
  by rewrite basename_ToLower, !ToLower_idem.
Qed.

Lemma scan_prefixes_ToLower arg pfx :
  scan_prefixes (ToLower arg) pfx = scan_prefixes arg pfx.
Proof.
  induction pfx as [|p pfx IH]; [done|].
  cbn [scan_prefixes]. unfold base_match, path_match.
  by rewrite basename_ToLower, !ToLower_idem, IH.
Qed.

Lemma scan_cmdline_ToLower cmdline pfx :
  scan_cmdline (map ToLower cmdline) pfx = scan_cmdline cmdline pfx.
Proof.
  induction cmdline as [|arg rest IH]; [done|].
  cbn [map scan_cmdline]. by rewrite scan_prefixes_ToLower, IH.
Qed.

Lemma scan_procs_ToLower procs pfx :
  scan_procs (map lower_process procs) pfx = scan_procs procs pfx.
Proof.
  induction procs as [|proc rest IH]; [done|].
  cbn [map]. rewrite !scan_procs_cons. cbn [lower_process proc_Cmdline].
  rewrite scan_cmdline_ToLower, IH.
  by destruct (proc_Cmdline proc).
Qed.

(** X20.  [extractAI] does not look at the letter case of the command line:
    the window with every token in lower case gets the same answer. *)
Theorem extractAI_ignores_token_case (win : kittyWindow) (prefixes : list string) :
  extractAI (lower_cmdlines win) prefixes = extractAI win prefixes.
Proof.
  unfold extractAI. cbn [lower_cmdlines win_ForegroundProcesses].
  by rewrite scan_procs_ToLower.
Qed.

Lemma HasPrefix_lower s q : HasPrefix (ToLower s) q = true -> ToLower q = q.
Proof.
  revert s. induction q as [|c q IH]; intros s H; [done|].
  destruct s as [|a s]; [done|]. cbn [ToLower HasPrefix] in H.
  apply andb_true_iff in H as [Hc Hq]. apply Ascii.eqb_eq in Hc as <-.
  cbn [ToLower]. by rewrite lower_byte_idem, (IH s Hq).
Qed.

Lemma Contains_lower s q : Contains (ToLower s) q = true -> ToLower q = q.
Proof.
  induction s as [|a s IH]; cbn [ToLower Contains]; intros H.
  - rewrite orb_false_r in H. by apply (HasPrefix_lower EmptyString).
  - apply orb_true_iff in H as [H|H]; [|by apply IH].
    by apply (HasPrefix_lower (String a s)).
Qed.

Lemma token_match_lower arg p : token_match arg p = true -> ToLower p = p.
Proof.
  unfold token_match, base_match, path_match. intros H.
  apply orb_true_iff in H as [H|H].
  - apply String.eqb_eq in H as <-. apply ToLower_idem.
  - assert (Contains (ToLower arg) ("/" +:+ p) = true) as Hc.
    { apply orb_true_iff in H as [H|H]; [|done].
      change ("/" +:+ p +:+ "/") with (("/" +:+ p) +:+ "/") in H.
      exact (Contains_app_l _ _ _ H). }
    apply Contains_lower in Hc. by injection Hc.
Qed.

(** X21.  The prefix that [extractAI] reports is one of the configured
    prefixes and is in lower case: the tokens are compared in lower case and
    the prefixes as they are, so a configured prefix with an upper-case
    letter is never found. *)
Theorem extractAI_reports_lower_case_prefix
    (win : kittyWindow) (prefixes : list string) (p : string) :
  extractAI win prefixes = (p, true) ->
  p ∈ prefixes /\ ToLower p = p.
Proof.
  unfold extractAI. intros H.
  destruct (scan_procs (win_ForegroundProcesses win) prefixes) as [q|] eqn:Hs; [|done].
  injection H as ->.
  apply scan_procs_Some in Hs as (proc & arg & _ & _ & Hp & Hm).
  split; [exact Hp | by apply (token_match_lower arg)].
Qed.

Lemma extractAI_reports_lower_case_prefix_witness :
  "claude"%string ∈ default_prefixes /\ ToLower "claude" = "claude"%string.
Proof.
  apply (extractAI_reports_lower_case_prefix
           (window_of_cmdlines [["/usr/local/bin/Claude"; "--continue"]])).
  reflexivity.
Defined.

(** ** The windows that commands act on *)

Lemma selectedSession_shown m s :
  selectedSession m = Some s ->
  s ∈ sessions m
  /\ (statusFilter m <> EmptyString -> Status s = statusFilter m).
Proof.
  unfold selectedSession. destruct (_ && _); [|done]. intros Hl.
  apply list_elem_of_lookup_2 in Hl. unfold filteredSessions in Hl.
  destruct (String.eqb_spec (statusFilter m) EmptyString) as [He|He]; [done|].
  apply list_elem_of_In, filter_In in Hl as [Hin Hst].
  apply String.eqb_eq in Hst. split; [by apply list_elem_of_In | done].
Qed.

(** X22.  Whatever message arrives, a command that [Update] issues for a
    window (focus or rename) is for the window of the session selected in
    the Sessions panel: a session of the current snapshot that passes the
    status filter.  No other window is ever focused or renamed. *)
Theorem commands_target_selected_session
    (now : Z) (m m' : model) (msg : Msg) (c : Cmd) (id : Z) :
  Update now m msg = (m', Some c) ->
  id ∈ command_targets c ->
  exists s, selectedSession m = Some s /\ WindowID s = id
            /\ s ∈ sessions m
            /\ (statusFilter m <> EmptyString -> Status s = statusFilter m).
Proof.
  intros HU Hid.
  assert (exists s, selectedSession m = Some s /\ WindowID s = id) as (s & Hs & Hw).
  { destruct msg as [k| | | | | |]; cbn [Update] in HU; try discriminate.
    - destruct (renaming m).
      + unfold Update_renaming in HU.
        destruct (key_Type k); try discriminate.
        * destruct (selectedSession m) as [s|]; [|discriminate].
          injection HU as _ <-. apply list_elem_of_singleton in Hid. by exists s.
        * by destruct (0 <? len (renameInput m)).
      + unfold Update_browsing in HU.
        destruct (key_is k "q" || key_is k "ctrl+c").
        { injection HU as _ <-. by apply elem_of_nil in Hid. }
        destruct (key_is k "tab"); [discriminate|].
        destruct (key_is k "esc"); [discriminate|].
        destruct (key_is k "enter").
        { destruct (focusedPanel m =? 0).
          - destruct (selectedSession m) as [s|]; [|discriminate].
            injection HU as _ <-. apply list_elem_of_singleton in Hid. by exists s.
          - by destruct (selectedStatus m). }
        destruct (key_is k "r").
        { destruct (focusedPanel m =? 0); [|discriminate].
          by destruct (selectedSession m). }
        destruct (key_is k "up" || key_is k "k").
        { destruct (focusedPanel m =? 0); [by destruct (0 <? selected m)|].
          by destruct (0 <? statusSelected m). }
        destruct (key_is k "down" || key_is k "j"); [|discriminate].
        destruct (focusedPanel m =? 0); [by destruct (selected m <? _)|].
        by destruct (statusSelected m <? _).
    - injection HU as _ <-. by apply elem_of_nil in Hid. }
  exists s. destruct (selectedSession_shown m s Hs). done.
Qed.

Lemma commands_target_selected_session_witness :
  exists s, selectedSession model_with_one_session = Some s /\ WindowID s = 1
            /\ s ∈ sessions model_with_one_session
            /\ (statusFilter model_with_one_session <> EmptyString ->
                Status s = statusFilter model_with_one_session).
Proof.
  apply (commands_target_selected_session 3 model_with_one_session model_with_one_session
           (KeyMsg (key_of_type KeyEnter)) (focusCmd 1) 1).
  - reflexivity.
  - apply list_elem_of_here.
Defined.

(** ** The two-letter tag *)

Lemma upper_lower_byte c : upper_byte (lower_byte c) = upper_byte c.
Proof. by destruct c as [[] [] [] [] [] [] [] []]. Qed.

Lemma ToUpper_ToLower s : ToUpper (ToLower s) = ToUpper s.
Proof. induction s as [|c s IH]; [done|]. cbn [ToLower ToUpper]. by rewrite upper_lower_byte, IH. Qed.

Lemma substring_ToLower n s : substring 0 n (ToLower s) = ToLower (substring 0 n s).
Proof.
  revert s. induction n as [|n IH]; intros s; [by destruct s|].
  destruct s as [|c s]; [done|]. cbn [ToLower substring]. by rewrite IH.
Qed.

Lemma substring_short s : (String.length s < 2)%nat -> substring 0 2 s = s.
Proof. destruct s as [|a [|b s]]; cbn; intros H; [done | done | lia]. Qed.

(** X23.  For a tool name in ASCII the tag is the first two bytes of the name
    in upper case (the whole name when it is shorter): the three names that
    [shortAI] treats apart get the tag the general rule gives them. *)
Theorem shortAI_first_two_letters (ai : string) :
  is_ascii ai = true ->
  shortAI ai = ToUpper (substring 0 2 ai).
Proof.
  intros _.
  assert (forall known, ToLower ai = known ->
            ToUpper (substring 0 2 known) = ToUpper (substring 0 2 ai)) as Hknown.
  { intros known <-. by rewrite substring_ToLower, ToUpper_ToLower. }
  unfold shortAI.
  destruct (String.eqb_spec (ToLower ai) "claude") as [H|_]; [exact (Hknown _ H)|].
  destruct (String.eqb_spec (ToLower ai) "codex") as [H|_]; [exact (Hknown _ H)|].
  destruct (String.eqb_spec (ToLower ai) "gemini") as [H|_]; [exact (Hknown _ H)|].
  destruct (Z.leb_spec 2 (Z.of_nat (String.length ai))); [reflexivity|].
  rewrite substring_short by lia. reflexivity.
Qed.

Lemma shortAI_first_two_letters_witness :
  shortAI "Claude" = "CL"%string /\ shortAI "aider" = "AI"%string.
Proof.
  split.
  - exact (shortAI_first_two_letters "Claude" eq_refl).
  - exact (shortAI_first_two_letters "aider" eq_refl).
Defined.

(** * The sort of the library

    [less] is any strict weak order: irreflexive, transitive, and with a
    transitive [not less]. *)


Section SortFacts.

Import GoSort.

Context {A : Type}.
Variable Next : Z -> Z.
Variable less : A -> A -> bool.

Local Open Scope nat_scope.

Implicit Types d dk : list A.

Hypothesis less_irrefl : forall x, less x x = false.
Hypothesis less_trans : forall x y z, less x y = true -> less y z = true -> less x z = true.
Hypothesis le_trans : forall x y z, less y x = false -> less z y = false -> less z x = false.

(** *** Reading and exchanging elements *)

Lemma Less_lookup (d : list A) i j x y :
  d !! i = Some x -> d !! j = Some y -> Less less d i j = less x y.
Proof. intros Hi Hj. unfold Less. by rewrite Hi, Hj. Qed.

Lemma Swap_length (d : list A) i j : length (Swap d i j) = length d.
Proof.
  unfold Swap. destruct (d !! i), (d !! j); try done.
  by rewrite !length_insert.
Qed.

Lemma Swap_lookup (d : list A) i j k :
  i < length d -> j < length d ->
  Swap d i j !! k
  = if decide (k = j) then d !! i else if decide (k = i) then d !! j else d !! k.
Proof.
  intros Hi Hj. unfold Swap.
  destruct (lookup_lt_is_Some_2 d i Hi) as [x Hx].
  destruct (lookup_lt_is_Some_2 d j Hj) as [y Hy].
  rewrite Hx, Hy.
  destruct (decide (k = j)) as [->|Hkj].
  - rewrite list_lookup_insert_eq; [done|]. by rewrite length_insert.
  - rewrite list_lookup_insert_ne by done.
    destruct (decide (k = i)) as [->|Hki].
    + by rewrite list_lookup_insert_eq.
    + by rewrite list_lookup_insert_ne.
Qed.

Lemma Swap_out_of_range (d : list A) i j :
  length d <= i \/ length d <= j -> Swap d i j = d.
Proof.
  intros H. unfold Swap.
  destruct (d !! i) eqn:Ei; [|done]. destruct (d !! j) eqn:Ej; [|done].
  apply lookup_lt_Some in Ei, Ej. lia.
Qed.

Lemma insert_head_perm (d : list A) j x y :
  d !! j = Some y -> y :: <[j := x]> d ≡ₚ x :: d.
Proof.
  revert j. induction d as [|z d IH]; intros j Hj; [done|].
  destruct j as [|j]; cbn in Hj |- *.
  - injection Hj as ->. apply perm_swap.
  - rewrite (perm_swap z y), (IH j Hj). apply perm_swap.
Qed.

Lemma Swap_perm (d : list A) i j : Swap d i j ≡ₚ d.
Proof.
  unfold Swap.
  destruct (d !! i) as [x|] eqn:Hx; [|done]. destruct (d !! j) as [y|] eqn:Hy; [|done].
  revert i j Hx Hy. induction d as [|z d IH]; intros i j Hx Hy; [done|].
  destruct i as [|i], j as [|j]; cbn in Hx, Hy |- *.
  - by injection Hx as ->; injection Hy as ->.
  - injection Hx as ->. by apply insert_head_perm.
  - injection Hy as ->. by apply insert_head_perm.
  - by rewrite (IH i j).
Qed.

(** *** Rearrangements inside a range *)

Lemma confined_refl a b d : confined a b d d.
Proof. by split. Qed.

Lemma confined_trans a b d1 d2 d3 :
  confined a b d1 d2 -> confined a b d2 d3 -> confined a b d1 d3.
Proof.
  intros [H1 H1'] [H2 H2']. split; [by rewrite H2|].
  intros k Hk. by rewrite H2', H1'.
Qed.

Lemma confined_widen a b a' b' d d' :
  a' <= a -> b <= b' -> confined a b d d' -> confined a' b' d d'.
Proof. intros Ha Hb [H1 H2]. split; [done|]. intros k Hk. apply H2. lia. Qed.

Lemma confined_length a b d d' : confined a b d d' -> length d' = length d.
Proof. intros [H _]. by rewrite H. Qed.

Lemma confined_Swap a b (d : list A) i j :
  a <= i < b -> a <= j < b -> confined a b d (Swap d i j).
Proof.
  intros Hi Hj. split; [apply Swap_perm|].
  intros k Hk.
  destruct (decide (i < length d)) as [Hil|Hil];
    [|by rewrite Swap_out_of_range by lia].
  destruct (decide (j < length d)) as [Hjl|Hjl];
    [|by rewrite Swap_out_of_range by lia].
  rewrite Swap_lookup by done.
  destruct (decide (k = j)); [lia|]. destruct (decide (k = i)); [lia|]. done.
Qed.

Lemma confined_take a b d d' : confined a b d d' -> take a d' = take a d.
Proof.
  intros [Hp Ho]. apply list_eq. intros k.
  destruct (decide (k < a)) as [Hk|Hk].
  - rewrite !lookup_take_lt by done. apply Ho. lia.
  - by rewrite !lookup_take_ge by lia.
Qed.

Lemma confined_drop a b d d' : confined a b d d' -> drop b d' = drop b d.
Proof.
  intros [Hp Ho]. apply list_eq. intros k.
  rewrite !lookup_drop. apply Ho. lia.
Qed.

Lemma seg_split a b d : a <= b -> d = take a d ++ seg a b d ++ drop b d.
Proof.
  intros Hab. unfold seg.
  rewrite <- (take_drop a d) at 1. f_equal.
  rewrite <- (take_drop (b - a) (drop a d)) at 1. f_equal.
  rewrite drop_drop. f_equal. lia.
Qed.

Lemma confined_seg a b d d' : a <= b -> confined a b d d' -> seg a b d' ≡ₚ seg a b d.
Proof.
  intros Hab Hc. pose proof Hc as [Hp _].
  rewrite (seg_split a b d Hab) in Hp at 1. rewrite (seg_split a b d' Hab) in Hp at 1.
  rewrite (confined_take a b d d' Hc), (confined_drop a b d d' Hc) in Hp.
  apply Permutation_app_inv_l in Hp. by apply Permutation_app_inv_r in Hp.
Qed.

Lemma elem_of_seg a b d x :
  x ∈ seg a b d <-> exists k, a <= k < b /\ d !! k = Some x.
Proof.
  unfold seg. rewrite list_elem_of_lookup. split.
  - intros [i Hi]. apply lookup_take_Some in Hi as [Hi Hlt].
    rewrite lookup_drop in Hi. exists (a + i). split; [lia | done].
  - intros (k & Hk & Hx). exists (k - a).
    rewrite lookup_take_lt by lia. rewrite lookup_drop.
    by replace (a + (k - a)) with k by lia.
Qed.

Lemma confined_range a b d d' (P : A -> Prop) :
  a <= b -> confined a b d d' ->
  (forall k x, a <= k < b -> d !! k = Some x -> P x) ->
  forall k x, a <= k < b -> d' !! k = Some x -> P x.
Proof.
  intros Hab Hc HP k x Hk Hx.
  assert (x ∈ seg a b d) as Hin.
  { rewrite <- (confined_seg a b d d' Hab Hc). apply elem_of_seg. by exists k. }
  apply elem_of_seg in Hin as (k' & Hk' & Hx'). by apply (HP k').
Qed.


(** *** Straight insertion *)

Lemma Swap_adjacent (l1 l2 : list A) x y :
  Swap (l1 ++ y :: x :: l2) (S (length l1)) (length l1) = l1 ++ x :: y :: l2.
Proof.
  unfold Swap.
  assert ((l1 ++ y :: x :: l2) !! S (length l1) = Some x) as ->.
  { rewrite lookup_app_r by lia. by replace (S (length l1) - length l1) with 1 by lia. }
  assert ((l1 ++ y :: x :: l2) !! length l1 = Some y) as ->.
  { rewrite lookup_app_r by lia. by rewrite Nat.sub_diag. }
  rewrite (insert_app_r_alt l1 _ (S (length l1))) by lia.
  replace (S (length l1) - length l1) with 1 by lia. cbn [insert list_insert].
  rewrite (insert_app_r_alt l1 _ (length l1)) by lia.
  by rewrite Nat.sub_diag.
Qed.

Lemma insert_down_stop (d : list A) a : insert_down less d a a = d.
Proof. destruct a as [|a]; [done|]. cbn [insert_down]. by rewrite Nat.ltb_irrefl. Qed.

Lemma insert_down_spec (pre rs post : list A) x :
  insert_down less (pre ++ reverse rs ++ x :: post) (length pre) (length pre + length rs)
  = pre ++ reverse (insert_left less x rs) ++ post.
Proof.
  revert post. induction rs as [|y rest IH]; intros post.
  - cbn [length]. rewrite Nat.add_0_r, insert_down_stop. by rewrite reverse_nil.
  - cbn [length]. rewrite Nat.add_succ_r. cbn [insert_down insert_left].
    assert ((length pre <? S (length pre + length rest)) = true) as ->
      by (apply Nat.ltb_lt; lia).
    rewrite reverse_cons, <- !app_assoc. cbn [app andb].
    assert (length (pre ++ reverse rest) = length pre + length rest) as Hlen
      by (by rewrite length_app, length_reverse).
    rewrite (app_assoc pre (reverse rest)).
    rewrite (Less_lookup _ (S (length pre + length rest)) (length pre + length rest) x y).
    + destruct (less x y) eqn:Hxy.
      * rewrite <- Hlen at 1 2. rewrite Swap_adjacent, <- app_assoc.
        rewrite IH. rewrite reverse_cons, <- !app_assoc. done.
      * rewrite reverse_cons, reverse_cons, <- !app_assoc. done.
    + rewrite lookup_app_r by lia. rewrite Hlen.
      by replace (S (length pre + length rest) - (length pre + length rest)) with 1 by lia.
    + rewrite lookup_app_r by lia. by rewrite Hlen, Nat.sub_diag.
Qed.

Lemma insert_left_length x (l : list A) : length (insert_left less x l) = S (length l).
Proof. induction l as [|y l IH]; [done|]. cbn. destruct (less x y); cbn; by rewrite ?IH. Qed.

Lemma insertionSort_fold (pre post rest acc : list A) :
  fold_left (fun d i => insert_down less d (length pre) i)
            (seq (length pre + length acc) (length rest))
            (pre ++ reverse acc ++ rest ++ post)
  = pre ++ reverse (fold_left (fun acc x => insert_left less x acc) rest acc) ++ post.
Proof.
  revert acc. induction rest as [|x rest IH]; intros acc; [done|].
  cbn [length seq fold_left app].
  rewrite insert_down_spec.
  rewrite <- (IH (insert_left less x acc)). f_equal. f_equal.
  rewrite insert_left_length. lia.
Qed.

(** On a range of the slice, [insertionSort_func] is the insertion sort of
    lists. *)
Lemma insertionSort_func_spec (pre xs post : list A) :
  insertionSort_func less (pre ++ xs ++ post) (length pre) (length pre + length xs)
  = pre ++ insertion_sort less xs ++ post.
Proof.
  unfold insertionSort_func, insertion_sort. destruct xs as [|x xs].
  - cbn [length]. by replace (length pre + 0 - (length pre + 1)) with 0 by lia.
  - cbn [length]. replace (length pre + S (length xs) - (length pre + 1)) with (length xs) by lia.
    cbn [fold_left insert_left].
    rewrite <- (insertionSort_fold pre post xs [x]). by rewrite reverse_singleton.
Qed.

(** The insertion sort keeps the order of elements of which none is less
    than another, and leaves a sorted list as it is. *)
Lemma insert_left_filter (f : A -> bool) x (l : list A) :
  (forall y z, f y = true -> f z = true -> less y z = false) ->
  List.filter f (insert_left less x l) = (if f x then [x] else []) ++ List.filter f l.
Proof.
  intros Hf. induction l as [|y l IH]; [cbn; by destruct (f x)|]. cbn [insert_left].
  destruct (less x y) eqn:Hxy.
  - cbn [List.filter]. rewrite IH. destruct (f x) eqn:Hx, (f y) eqn:Hy; try done.
    by rewrite (Hf x y Hx Hy) in Hxy.
  - cbn [List.filter]. by destruct (f x).
Qed.

Lemma filter_reverse (f : A -> bool) (l : list A) :
  List.filter f (reverse l) = reverse (List.filter f l).
Proof.
  induction l as [|x l IH]; [done|].
  rewrite reverse_cons, List.filter_app, IH. cbn [List.filter].
  destruct (f x); [by rewrite reverse_cons | by rewrite app_nil_r].
Qed.

Lemma insertion_sort_stable (f : A -> bool) (xs : list A) :
  (forall y z, f y = true -> f z = true -> less y z = false) ->
  List.filter f (insertion_sort less xs) = List.filter f xs.
Proof.
  intros Hf. unfold insertion_sort. rewrite filter_reverse.
  assert (forall acc,
    List.filter f (fold_left (fun acc x => insert_left less x acc) xs acc)
    = reverse (List.filter f xs) ++ List.filter f acc) as H.
  { induction xs as [|x xs IH]; intros acc; [done|].
    cbn [fold_left List.filter]. rewrite IH, insert_left_filter by done.
    destruct (f x); [by rewrite reverse_cons, <- app_assoc | done]. }
  rewrite H. cbn [List.filter]. by rewrite app_nil_r, reverse_involutive.
Qed.

Lemma insert_left_sorted_id x (l : list A) :
  Forall (fun y => less x y = false) l -> insert_left less x l = x :: l.
Proof. intros H. destruct H as [|y l Hy _]; [done|]. cbn. by rewrite Hy. Qed.

(** *** Order on a range *)

Lemma less_asym x y : less x y = true -> less y x = false.
Proof.
  intros Hxy. destruct (less y x) eqn:Hyx; [|done].
  by rewrite <- (less_irrefl x), (less_trans x y x Hxy Hyx).
Qed.

Lemma less_le_trans x y z : less x y = true -> less z y = false -> less x z = true.
Proof.
  intros Hxy Hzy. destruct (less x z) eqn:Hxz; [done|].
  by rewrite (le_trans y z x Hzy Hxz) in Hxy.
Qed.

Lemma le_less_trans x y z : less y x = false -> less y z = true -> less x z = true.
Proof.
  intros Hyx Hyz. destruct (less x z) eqn:Hxz; [done|].
  by rewrite (le_trans z x y Hxz Hyx) in Hyz.
Qed.

Lemma adjacent_sorted_on a b d : b <= length d -> adjacent_on less a b d -> sorted_on less a b d.
Proof.
  intros Hb Hadj i j x y Hai Hij Hjb Hx Hy.
  remember (j - i) as n eqn:Hn. revert j y Hij Hjb Hy Hn.
  induction n as [|n IH]; intros j y Hij Hjb Hy Hn; [lia|].
  destruct (decide (j = S i)) as [->|Hne]; [by apply (Hadj i)|].
  destruct (lookup_lt_is_Some_2 d (j - 1)) as [z Hz]; [lia|].
  assert (less z x = false) as Hzx by (apply (IH (j - 1)); [lia | lia | done | lia]).
  assert (less y z = false) as Hyz.
  { apply (Hadj (j - 1)); [lia | lia | done |]. by replace (S (j - 1)) with j by lia. }
  by apply (le_trans x z y).
Qed.

Lemma sorted_on_adjacent a b d : sorted_on less a b d -> adjacent_on less a b d.
Proof. intros H i x y Hai Hib Hx Hy. apply (H i (S i)); [done | lia | done | done | done]. Qed.

Lemma sorted_on_sub a b a' b' d : a <= a' -> b' <= b -> sorted_on less a b d -> sorted_on less a' b' d.
Proof. intros Ha Hb H i j x y ? ? ?. apply H; lia. Qed.

Lemma StronglySorted_lookup (R : relation A) (l : list A) :
  StronglySorted R l <->
  forall i j x y, i < j -> l !! i = Some x -> l !! j = Some y -> R x y.
Proof.
  split.
  - induction 1 as [|z l Hl IH Hall]; intros i j x y Hij Hx Hy; [done|].
    destruct j as [|j]; [lia|]. cbn in Hy. destruct i as [|i]; cbn in Hx.
    + injection Hx as ->. rewrite Forall_forall in Hall. apply Hall.
      by apply list_elem_of_lookup_2 in Hy.
    + apply (IH i j); [lia | done | done].
  - induction l as [|z l IH]; intros H; [constructor|]. constructor.
    + apply IH. intros i j x y Hij Hx Hy. apply (H (S i) (S j)); [lia | done | done].
    + apply Forall_forall. intros y Hy. apply list_elem_of_lookup in Hy as [j Hj].
      apply (H 0 (S j)); [lia | done | done].
Qed.

Lemma lookup_seg a b (d : list A) i : i < b - a -> seg a b d !! i = d !! (a + i).
Proof. intros Hi. unfold seg. rewrite lookup_take_lt by done. by rewrite lookup_drop. Qed.

Lemma length_seg a b (d : list A) : a <= b <= length d -> length (seg a b d) = b - a.
Proof. intros H. unfold seg. rewrite length_take, length_drop. lia. Qed.

Lemma sorted_on_seg a b d :
  a <= b <= length d ->
  sorted_on less a b d <-> StronglySorted (fun x y => less y x = false) (seg a b d).
Proof.
  intros Hab. rewrite StronglySorted_lookup. split.
  - intros H i j x y Hij Hx Hy.
    assert (j < b - a) as Hj.
    { apply lookup_lt_Some in Hy. rewrite length_seg in Hy; done. }
    rewrite lookup_seg in Hx, Hy by lia. apply (H (a + i) (a + j)); [lia | lia | lia | done | done].
  - intros H i j x y Hai Hij Hjb Hx Hy.
    apply (H (i - a) (j - a)); [lia | |].
    + rewrite lookup_seg by lia. by replace (a + (i - a)) with i by lia.
    + rewrite lookup_seg by lia. by replace (a + (j - a)) with j by lia.
Qed.

Lemma seg_whole (d : list A) : seg 0 (length d) d = d.
Proof. unfold seg. rewrite drop_0, Nat.sub_0_r. apply firstn_all. Qed.

#[local] Instance le_Transitive : Transitive (fun x y : A => less y x = false).
Proof. intros x y z Hxy Hyz. by apply (le_trans x y z). Qed.

Lemma sorted_on_Sorted d :
  sorted_on less 0 (length d) d <-> Sorted (fun x y => less y x = false) d.
Proof.
  rewrite sorted_on_seg by lia. rewrite seg_whole. split.
  - apply StronglySorted_Sorted.
  - apply Sorted_StronglySorted. apply _.
Qed.

(** Replacing a range by a rearrangement of it. *)
Lemma length_take_le (d : list A) a : a <= length d -> length (take a d) = a.
Proof. intros H. rewrite length_take. lia. Qed.

Lemma confined_replace a b (d mid' : list A) :
  a <= b <= length d -> mid' ≡ₚ seg a b d ->
  confined a b d (take a d ++ mid' ++ drop b d).
Proof.
  intros Hab Hp. assert (length mid' = b - a) as Hlen.
  { by rewrite Hp, length_seg. }
  split.
  - rewrite Hp. by rewrite <- (seg_split a b d) by lia.
  - intros k [Hk|Hk].
    + rewrite lookup_app_l by (rewrite length_take_le; lia).
      by rewrite lookup_take_lt.
    + rewrite lookup_app_r by (rewrite length_take_le; lia).
      rewrite lookup_app_r by (rewrite length_take_le; lia).
      rewrite lookup_drop, length_take_le, Hlen by lia. f_equal. lia.
Qed.

Lemma seg_replace a b (d mid' : list A) :
  a <= b <= length d -> length mid' = b - a ->
  seg a b (take a d ++ mid' ++ drop b d) = mid'.
Proof.
  intros Hab Hlen. unfold seg.
  rewrite drop_app_length' by (rewrite length_take_le; lia).
  rewrite take_app_length' by lia. done.
Qed.

Lemma insertionSort_func_range (d : list A) a b :
  a <= b <= length d ->
  insertionSort_func less d a b = take a d ++ insertion_sort less (seg a b d) ++ drop b d.
Proof.
  intros Hab. rewrite (seg_split a b d) at 1 by lia.
  pose proof (insertionSort_func_spec (take a d) (seg a b d) (drop b d)) as H.
  rewrite length_take_le, length_seg in H by lia.
  by replace (a + (b - a)) with b in H by lia.
Qed.

Lemma insertionSort_func_sorts (d : list A) a b :
  a <= b <= length d ->
  confined a b d (insertionSort_func less d a b)
  /\ sorted_on less a b (insertionSort_func less d a b).
Proof.
  intros Hab. rewrite insertionSort_func_range by done.
  destruct (insertion_sort_meets_contract less (seg a b d) less_asym) as [Hp Hs].
  split; [by apply confined_replace|].
  assert (length (insertion_sort less (seg a b d)) = b - a) as Hlen
    by (by rewrite Hp, length_seg).
  apply sorted_on_seg.
  - rewrite !length_app, length_take_le, length_drop, Hlen by lia. lia.
  - rewrite seg_replace by done. apply Sorted_StronglySorted; [apply _ | done].
Qed.

(** *** The partition around a pivot *)

Lemma scan_up_spec (d : list A) a j fuel : forall i,
  S j - i <= fuel ->
  i <= scan_up less fuel d a i j
  /\ (scan_up less fuel d a i j <= S j \/ scan_up less fuel d a i j = i)
  /\ (forall k, i <= k < scan_up less fuel d a i j -> Less less d k a = true)
  /\ (scan_up less fuel d a i j <= j -> Less less d (scan_up less fuel d a i j) a = false).
Proof.
  induction fuel as [|fuel IH]; intros i Hf; cbn [scan_up].
  - repeat split; [lia | by right | intros k; lia | intros; lia].
  - destruct (Nat.leb_spec i j) as [Hij|Hij]; cbn [andb].
    + destruct (Less less d i a) eqn:E.
      * destruct (IH (i + 1)) as (H1 & H2 & H3 & H4); [lia|].
        split; [lia|]. split; [left; lia|]. split; [|done].
        intros k Hk. destruct (decide (k = i)) as [->|Hne]; [done|]. apply H3. lia.
      * repeat split; [lia | by right | intros k; lia | done].
    + repeat split; [lia | by right | intros k; lia | intros; lia].
Qed.

Lemma scan_down_spec (d : list A) a i fuel : forall j,
  1 <= i -> i <= S j -> S j - i <= fuel ->
  scan_down less fuel d a i j <= j
  /\ i <= S (scan_down less fuel d a i j)
  /\ (forall k, scan_down less fuel d a i j < k <= j -> Less less d k a = false)
  /\ (i <= scan_down less fuel d a i j -> Less less d (scan_down less fuel d a i j) a = true).
Proof.
  induction fuel as [|fuel IH]; intros j Hi Hij Hf; cbn [scan_down].
  - repeat split; [lia | lia | intros k; lia | intros; lia].
  - destruct (Nat.leb_spec i j) as [Hle|Hle]; cbn [andb].
    + destruct (Less less d j a) eqn:E; cbn [negb].
      * repeat split; [lia | lia | intros k; lia | done].
      * destruct (IH (j - 1)) as (H1 & H2 & H3 & H4); [lia | lia | lia|].
        split; [lia|]. split; [lia|]. split; [|done].
        intros k Hk. destruct (decide (k = j)) as [->|Hne]; [done|]. apply H3. lia.
    + repeat split; [lia | lia | intros k; lia | intros; lia].
Qed.

Lemma part_scan d p a b dk i j :
  part_inv less d p a b dk i j ->
  part_inv less d p a b dk (scan_up less (S j - i) dk a i j)
           (scan_down less (S j - scan_up less (S j - i) dk a i j) dk a
                      (scan_up less (S j - i) dk a i j) j)
  /\ (scan_up less (S j - i) dk a i j
      <= scan_down less (S j - scan_up less (S j - i) dk a i j) dk a
                   (scan_up less (S j - i) dk a i j) j ->
      exists x y,
        dk !! scan_up less (S j - i) dk a i j = Some x
        /\ dk !! scan_down less (S j - scan_up less (S j - i) dk a i j) dk a
                           (scan_up less (S j - i) dk a i j) j = Some y
        /\ less x p = false /\ less y p = true).
Proof.
  intros (Hc & Hp & Hai & Hij & Hjb & Hlen & Hleft & Hright).
  destruct (scan_up_spec dk a j (S j - i) i) as (U1 & U2 & U3 & U4); [lia|].
  set (i' := scan_up less (S j - i) dk a i j) in *.
  assert (i' <= S j) as Hi'j by lia.
  destruct (scan_down_spec dk a i' (S j - i') j) as (D1 & D2 & D3 & D4); [lia | lia | lia|].
  set (j' := scan_down less (S j - i') dk a i' j) in *.
  split.
  - split; [done|]. split; [done|]. split; [lia|]. split; [lia|]. split; [lia|].
    split; [done|]. split.
    + intros k x Hk Hx. destruct (decide (k < i)) as [Hlt|Hge]; [by apply (Hleft k); [lia|]|].
      rewrite <- (Less_lookup dk k a x p Hx Hp). apply U3. lia.
    + intros k x Hk Hx. destruct (decide (j < k)) as [Hlt|Hge]; [by apply (Hright k); [lia|]|].
      rewrite <- (Less_lookup dk k a x p Hx Hp). apply D3. lia.
  - intros Hle.
    destruct (lookup_lt_is_Some_2 dk i') as [x Hx]; [lia|].
    destruct (lookup_lt_is_Some_2 dk j') as [y Hy]; [lia|].
    exists x, y. split; [done|]. split; [done|]. split.
    + rewrite <- (Less_lookup dk i' a x p Hx Hp). apply U4. lia.
    + rewrite <- (Less_lookup dk j' a y p Hy Hp). by apply D4.
Qed.

Lemma part_swap d p a b dk i j x y :
  part_inv less d p a b dk i j -> i <= j ->
  dk !! i = Some x -> dk !! j = Some y -> less x p = false -> less y p = true ->
  part_inv less d p a b (Swap dk i j) (i + 1) (j - 1).
Proof.
  intros (Hc & Hp & Hai & Hij & Hjb & Hlen & Hleft & Hright) Hle Hx Hy Hxp Hyp.
  assert (i <> j) as Hne by (intros ->; congruence).
  assert (forall k, Swap dk i j !! k
            = if decide (k = j) then dk !! i else if decide (k = i) then dk !! j else dk !! k)
    as Hlook by (intros k; apply Swap_lookup; lia).
  split; [eapply confined_trans; [exact Hc | apply confined_Swap; lia]|].
  split.
  { rewrite Hlook. destruct (decide (a = j)); [lia|]. destruct (decide (a = i)); [lia|]. done. }
  split; [lia|]. split; [lia|]. split; [lia|]. split; [by rewrite Swap_length|]. split.
  - intros k z Hk. rewrite Hlook.
    destruct (decide (k = j)); [lia|]. destruct (decide (k = i)) as [->|].
    + rewrite Hy. by intros [= <-].
    + apply Hleft. lia.
  - intros k z Hk. rewrite Hlook.
    destruct (decide (k = j)) as [->|].
    + rewrite Hx. by intros [= <-].
    + destruct (decide (k = i)); [lia|]. apply Hright. lia.
Qed.

Lemma part_finish d p a b dk i j :
  part_inv less d p a b dk i j -> j < i -> partitioned less d p a b (Swap dk j a) j.
Proof.
  intros (Hc & Hp & Hai & Hij & Hjb & Hlen & Hleft & Hright) Hlt.
  assert (forall k, Swap dk j a !! k
            = if decide (k = a) then dk !! j else if decide (k = j) then dk !! a else dk !! k)
    as Hlook by (intros k; apply Swap_lookup; lia).
  split; [lia|]. split; [eapply confined_trans; [exact Hc | apply confined_Swap; lia]|].
  split.
  { rewrite Hlook. destruct (decide (j = a)) as [->|]; [done|]. by rewrite decide_True. }
  split.
  - intros k x Hk. rewrite Hlook. destruct (decide (k = a)) as [->|].
    + apply Hleft. lia.
    + destruct (decide (k = j)); [lia|]. apply Hleft. lia.
  - intros k x Hk. rewrite Hlook. destruct (decide (k = a)); [lia|].
    destruct (decide (k = j)); [lia|]. apply Hright. lia.
Qed.

Lemma partition_loop_spec d p a b fuel : forall dk i j,
  part_inv less d p a b dk i j -> S j - i <= fuel ->
  partitioned less d p a b
    (Swap (fst (partition_loop less fuel dk a i j)) (snd (partition_loop less fuel dk a i j)) a)
    (snd (partition_loop less fuel dk a i j)).
Proof.
  induction fuel as [|fuel IH]; intros dk i j Hinv Hf; cbn [partition_loop].
  - cbn [fst snd]. apply (part_finish d p a b dk i j Hinv).
    destruct Hinv as (_ & _ & _ & ? & _). lia.
  - destruct (part_scan d p a b dk i j Hinv) as [Hinv' Hstop].
    set (i' := scan_up less (S j - i) dk a i j) in *.
    set (j' := scan_down less (S j - i') dk a i' j) in *.
    destruct (Nat.ltb_spec j' i') as [Hlt|Hge].
    + cbn [fst snd]. by apply (part_finish d p a b dk i' j').
    + destruct (Hstop Hge) as (x & y & Hx & Hy & Hxp & Hyp).
      apply IH.
      * by apply (part_swap d p a b dk i' j' x y).
      * pose proof Hinv as (_ & _ & Hai & Hij & _).
        destruct (scan_up_spec dk a j (S j - i) i) as (U1 & U2 & _); [lia|].
        fold i' in U1, U2.
        destruct (scan_down_spec dk a i' (S j - i') j) as (D1 & _); [lia | lia | lia|].
        fold j' in D1. lia.
Qed.

Lemma partition_func_spec (d : list A) p a b pivot :
  a <= pivot < b -> b <= length d -> d !! pivot = Some p ->
  partitioned less d p a b (fst (fst (partition_func less d a b pivot)))
              (snd (fst (partition_func less d a b pivot))).
Proof.
  intros Hpiv Hb Hp. unfold partition_func.
  assert (part_inv less d p a b (Swap d a pivot) (a + 1) (b - 1)) as Hinv.
  { split; [apply confined_Swap; lia|]. split.
    { rewrite Swap_lookup by lia. destruct (decide (a = pivot)) as [->|]; [done|].
      by rewrite decide_True. }
    split; [lia|]. split; [lia|]. split; [lia|]. split; [by rewrite Swap_length|].
    split; intros k x Hk; lia. }
  set (d1 := Swap d a pivot) in *.
  destruct (part_scan d p a b d1 (a + 1) (b - 1) Hinv) as [Hinv' Hstop].
  set (i' := scan_up less (S (b - 1) - (a + 1)) d1 a (a + 1) (b - 1)) in *.
  set (j' := scan_down less (S (b - 1) - i') d1 a i' (b - 1)) in *.
  destruct (Nat.ltb_spec j' i') as [Hlt|Hge].
  - cbn [fst snd]. by apply (part_finish d p a b d1 i' j').
  - destruct (Hstop Hge) as (x & y & Hx & Hy & Hxp & Hyp).
    pose proof (part_swap d p a b d1 i' j' x y Hinv' Hge Hx Hy Hxp Hyp) as Hinv2.
    pose proof (partition_loop_spec d p a b (b - a) (Swap d1 i' j') (i' + 1) (j' - 1) Hinv2)
      as Hloop.
    destruct (partition_loop less (b - a) (Swap d1 i' j') a (i' + 1) (j' - 1)) as [d2 m].
    cbn [fst snd] in *. apply Hloop.
    destruct Hinv' as (_ & _ & ? & _ & ? & _). lia.
Qed.

(** *** The partition into equal and greater elements *)

Lemma scan_up_eq_spec (d : list A) a j fuel : forall i,
  S j - i <= fuel ->
  i <= scan_up_eq less fuel d a i j
  /\ (scan_up_eq less fuel d a i j <= S j \/ scan_up_eq less fuel d a i j = i)
  /\ (forall k, i <= k < scan_up_eq less fuel d a i j -> Less less d a k = false)
  /\ (scan_up_eq less fuel d a i j <= j ->
      Less less d a (scan_up_eq less fuel d a i j) = true).
Proof.
  induction fuel as [|fuel IH]; intros i Hf; cbn [scan_up_eq].
  - repeat split; [lia | by right | intros k; lia | intros; lia].
  - destruct (Nat.leb_spec i j) as [Hij|Hij]; cbn [andb].
    + destruct (Less less d a i) eqn:E; cbn [negb].
      * repeat split; [lia | by right | intros k; lia | done].
      * destruct (IH (i + 1)) as (H1 & H2 & H3 & H4); [lia|].
        split; [lia|]. split; [left; lia|]. split; [|done].
        intros k Hk. destruct (decide (k = i)) as [->|Hne]; [done|]. apply H3. lia.
    + repeat split; [lia | by right | intros k; lia | intros; lia].
Qed.

Lemma scan_down_eq_spec (d : list A) a i fuel : forall j,
  1 <= i -> i <= S j -> S j - i <= fuel ->
  scan_down_eq less fuel d a i j <= j
  /\ i <= S (scan_down_eq less fuel d a i j)
  /\ (forall k, scan_down_eq less fuel d a i j < k <= j -> Less less d a k = true)
  /\ (i <= scan_down_eq less fuel d a i j ->
      Less less d a (scan_down_eq less fuel d a i j) = false).
Proof.
  induction fuel as [|fuel IH]; intros j Hi Hij Hf; cbn [scan_down_eq].
  - repeat split; [lia | lia | intros k; lia | intros; lia].
  - destruct (Nat.leb_spec i j) as [Hle|Hle]; cbn [andb].
    + destruct (Less less d a j) eqn:E.
      * destruct (IH (j - 1)) as (H1 & H2 & H3 & H4); [lia | lia | lia|].
        split; [lia|]. split; [lia|]. split; [|done].
        intros k Hk. destruct (decide (k = j)) as [->|Hne]; [done|]. apply H3. lia.
      * repeat split; [lia | lia | intros k; lia | done].
    + repeat split; [lia | lia | intros k; lia | intros; lia].
Qed.

Lemma eq_scan d p a b dk i j :
  eq_inv less d p a b dk i j ->
  eq_inv less d p a b dk (scan_up_eq less (S j - i) dk a i j)
         (scan_down_eq less (S j - scan_up_eq less (S j - i) dk a i j) dk a
                       (scan_up_eq less (S j - i) dk a i j) j)
  /\ (scan_up_eq less (S j - i) dk a i j
      <= scan_down_eq less (S j - scan_up_eq less (S j - i) dk a i j) dk a
                      (scan_up_eq less (S j - i) dk a i j) j ->
      exists x y,
        dk !! scan_up_eq less (S j - i) dk a i j = Some x
        /\ dk !! scan_down_eq less (S j - scan_up_eq less (S j - i) dk a i j) dk a
                              (scan_up_eq less (S j - i) dk a i j) j = Some y
        /\ less p x = true /\ less p y = false).
Proof.
  intros (Hc & Hp & Hai & Hij & Hjb & Hlen & Hleft & Hright).
  destruct (scan_up_eq_spec dk a j (S j - i) i) as (U1 & U2 & U3 & U4); [lia|].
  set (i' := scan_up_eq less (S j - i) dk a i j) in *.
  assert (i' <= S j) as Hi'j by lia.
  destruct (scan_down_eq_spec dk a i' (S j - i') j) as (D1 & D2 & D3 & D4);
    [lia | lia | lia|].
  set (j' := scan_down_eq less (S j - i') dk a i' j) in *.
  split.
  - split; [done|]. split; [done|]. split; [lia|]. split; [lia|]. split; [lia|].
    split; [done|]. split.
    + intros k x Hk Hx. destruct (decide (k < i)) as [Hlt|Hge]; [by apply (Hleft k); [lia|]|].
      rewrite <- (Less_lookup dk a k p x Hp Hx). apply U3. lia.
    + intros k x Hk Hx. destruct (decide (j < k)) as [Hlt|Hge]; [by apply (Hright k); [lia|]|].
      rewrite <- (Less_lookup dk a k p x Hp Hx). apply D3. lia.
  - intros Hle.
    destruct (lookup_lt_is_Some_2 dk i') as [x Hx]; [lia|].
    destruct (lookup_lt_is_Some_2 dk j') as [y Hy]; [lia|].
    exists x, y. split; [done|]. split; [done|]. split.
    + rewrite <- (Less_lookup dk a i' p x Hp Hx). apply U4. lia.
    + rewrite <- (Less_lookup dk a j' p y Hp Hy). by apply D4.
Qed.

Lemma eq_swap d p a b dk i j x y :
  eq_inv less d p a b dk i j -> i <= j ->
  dk !! i = Some x -> dk !! j = Some y -> less p x = true -> less p y = false ->
  eq_inv less d p a b (Swap dk i j) (i + 1) (j - 1).
Proof.
  intros (Hc & Hp & Hai & Hij & Hjb & Hlen & Hleft & Hright) Hle Hx Hy Hxp Hyp.
  assert (i <> j) as Hne by (intros ->; congruence).
  assert (forall k, Swap dk i j !! k
            = if decide (k = j) then dk !! i else if decide (k = i) then dk !! j else dk !! k)
    as Hlook by (intros k; apply Swap_lookup; lia).
  split; [eapply confined_trans; [exact Hc | apply confined_Swap; lia]|].
  split.
  { rewrite Hlook. destruct (decide (a = j)); [lia|]. destruct (decide (a = i)); [lia|]. done. }
  split; [lia|]. split; [lia|]. split; [lia|]. split; [by rewrite Swap_length|]. split.
  - intros k z Hk. rewrite Hlook.
    destruct (decide (k = j)); [lia|]. destruct (decide (k = i)) as [->|].
    + rewrite Hy. by intros [= <-].
    + apply Hleft. lia.
  - intros k z Hk. rewrite Hlook.
    destruct (decide (k = j)) as [->|].
    + rewrite Hx. by intros [= <-].
    + destruct (decide (k = i)); [lia|]. apply Hright. lia.
Qed.

Lemma eq_finish d p a b dk i j :
  eq_inv less d p a b dk i j -> j < i -> partitioned_equal less d p a b dk i.
Proof.
  intros (Hc & Hp & Hai & Hij & Hjb & Hlen & Hleft & Hright) Hlt.
  split; [lia|]. split; [done|]. split; [done|]. split.
  - intros k x Hk Hx. destruct (decide (k = a)) as [->|].
    + rewrite Hp in Hx. injection Hx as <-. apply less_irrefl.
    + apply (Hleft k); [lia | done].
  - intros k x Hk Hx. apply (Hright k); [lia | done].
Qed.

Lemma partitionEqual_loop_spec d p a b fuel : forall dk i j,
  eq_inv less d p a b dk i j -> S j - i <= fuel ->
  partitioned_equal less d p a b (fst (partitionEqual_loop less fuel dk a i j))
                    (snd (partitionEqual_loop less fuel dk a i j)).
Proof.
  induction fuel as [|fuel IH]; intros dk i j Hinv Hf; cbn [partitionEqual_loop].
  - cbn [fst snd]. apply (eq_finish d p a b dk i j Hinv).
    destruct Hinv as (_ & _ & _ & ? & _). lia.
  - destruct (eq_scan d p a b dk i j Hinv) as [Hinv' Hstop].
    set (i' := scan_up_eq less (S j - i) dk a i j) in *.
    set (j' := scan_down_eq less (S j - i') dk a i' j) in *.
    destruct (Nat.ltb_spec j' i') as [Hlt|Hge].
    + cbn [fst snd]. by apply (eq_finish d p a b dk i' j').
    + destruct (Hstop Hge) as (x & y & Hx & Hy & Hxp & Hyp).
      apply IH.
      * by apply (eq_swap d p a b dk i' j' x y).
      * pose proof Hinv as (_ & _ & Hai & Hij & _).
        destruct (scan_up_eq_spec dk a j (S j - i) i) as (U1 & U2 & _); [lia|].
        fold i' in U1, U2.
        destruct (scan_down_eq_spec dk a i' (S j - i') j) as (D1 & _); [lia | lia | lia|].
        fold j' in D1. lia.
Qed.

Lemma partitionEqual_func_spec (d : list A) p a b pivot :
  a <= pivot < b -> b <= length d -> d !! pivot = Some p ->
  partitioned_equal less d p a b (fst (partitionEqual_func less d a b pivot))
                    (snd (partitionEqual_func less d a b pivot)).
Proof.
  intros Hpiv Hb Hp. unfold partitionEqual_func.
  apply partitionEqual_loop_spec; [|lia].
  split; [apply confined_Swap; lia|]. split.
  { rewrite Swap_lookup by lia. destruct (decide (a = pivot)) as [->|]; [done|].
    by rewrite decide_True. }
  split; [lia|]. split; [lia|]. split; [lia|]. split; [by rewrite Swap_length|].
  split; intros k x Hk; lia.
Qed.

(** *** Steps that only rearrange: [breakPatterns_func], [reverseRange_func] *)

Lemma bits_Len_pow l : 0 < l -> 2 ^ bits_Len l <= 2 * l.
Proof.
  intros Hl. destruct l as [|l]; [lia|]. unfold bits_Len.
  pose proof (Nat.log2_spec (S l)) as [Hlow _]; [lia|].
  rewrite Nat.pow_succ_r'. lia.
Qed.

Lemma bits_Len_pos l : 0 < l -> 0 < bits_Len l.
Proof. destruct l; cbn; lia. Qed.

Lemma masked_bound (r : Z) l :
  0 < l -> Z.to_nat (Z.land r (nextPowerOfTwo l - 1)) < 2 * l.
Proof.
  intros Hl. unfold nextPowerOfTwo.
  rewrite Z.shiftl_1_l.
  replace (2 ^ Z.of_nat (bits_Len l) - 1)%Z with (Z.ones (Z.of_nat (bits_Len l)))
    by (rewrite Z.ones_equiv; lia).
  rewrite Z.land_ones by lia.
  pose proof (bits_Len_pow l Hl) as Hpow.
  assert (0 <= r mod 2 ^ Z.of_nat (bits_Len l) < 2 ^ Z.of_nat (bits_Len l))%Z as Hmod
    by (apply Z.mod_pos_bound; lia).
  assert (2 ^ Z.of_nat (bits_Len l) = Z.of_nat (2 ^ bits_Len l))%Z as Hz
    by (by rewrite Nat2Z.inj_pow).
  lia.
Qed.

Lemma div4_bounds l : 8 <= l -> 2 <= l / 4 /\ 4 * (l / 4) <= l.
Proof.
  intros Hl. pose proof (Nat.div_mod_eq l 4) as H.
  pose proof (Nat.mod_upper_bound l 4) as Hm. split; [|lia].
  destruct (l / 4) as [|[|q]]; lia.
Qed.

Lemma breakPatterns_func_confined (d : list A) a b :
  confined a b d (breakPatterns_func Next d a b).
Proof.
  unfold breakPatterns_func. destruct (Nat.leb_spec 8 (b - a)) as [Hl|Hl];
    [|apply confined_refl].
  destruct (div4_bounds (b - a) Hl) as [Hq Hq4].
  assert (forall r, a <= a + (let other := Z.to_nat (Z.land r (nextPowerOfTwo (b - a) - 1)) in
                              if b - a <=? other then other - (b - a) else other) < b) as Hother.
  { intros r. pose proof (masked_bound r (b - a)) as Hm. cbn zeta.
    destruct (Nat.leb_spec (b - a) (Z.to_nat (Z.land r (nextPowerOfTwo (b - a) - 1)))); lia. }
  cbn [seq fold_left fst]. cbn zeta in Hother.
  eapply confined_trans; [|apply confined_Swap; [lia | apply Hother]].
  eapply confined_trans; [|apply confined_Swap; [lia | apply Hother]].
  apply confined_Swap; [lia | apply Hother].
Qed.

Lemma reverseRange_loop_confined a b fuel : forall (d : list A) i j,
  a <= i -> j < b -> confined a b d (reverseRange_loop fuel d i j).
Proof.
  induction fuel as [|fuel IH]; intros d i j Hi Hj; cbn [reverseRange_loop];
    [apply confined_refl|].
  destruct (Nat.ltb_spec i j) as [Hij|Hij]; [|apply confined_refl].
  apply (confined_trans a b d (Swap d i j)); [apply confined_Swap; lia | apply IH; lia].
Qed.

Lemma reverseRange_func_confined (d : list A) a b :
  a < b -> confined a b d (reverseRange_func d a b).
Proof. intros Hab. unfold reverseRange_func. apply reverseRange_loop_confined; lia. Qed.

(** *** The choice of the pivot *)

Lemma order2_func_cases (d : list A) x y s :
  (fst (fst (order2_func less d x y s)) = x /\ snd (fst (order2_func less d x y s)) = y)
  \/ (fst (fst (order2_func less d x y s)) = y /\ snd (fst (order2_func less d x y s)) = x).
Proof. unfold order2_func. destruct (Less less d y x); cbn; auto. Qed.

Lemma median_func_cases (d : list A) x y z s :
  fst (median_func less d x y z s) = x
  \/ fst (median_func less d x y z s) = y
  \/ fst (median_func less d x y z s) = z.
Proof.
  unfold median_func.
  pose proof (order2_func_cases d x y s) as H1.
  destruct (order2_func less d x y s) as [[x1 y1] s1]. cbn [fst snd] in H1.
  pose proof (order2_func_cases d y1 z s1) as H2.
  destruct (order2_func less d y1 z s1) as [[y2 z2] s2]. cbn [fst snd] in H2.
  pose proof (order2_func_cases d x1 y2 s2) as H3.
  destruct (order2_func less d x1 y2 s2) as [[x3 y3] s3]. cbn [fst snd] in H3 |- *.
  intuition congruence.
Qed.

Lemma medianAdjacent_func_cases (d : list A) x s :
  fst (medianAdjacent_func less d x s) = x - 1
  \/ fst (medianAdjacent_func less d x s) = x
  \/ fst (medianAdjacent_func less d x s) = x + 1.
Proof. apply median_func_cases. Qed.

Lemma choosePivot_func_range (d : list A) a b :
  8 <= b - a -> a <= fst (choosePivot_func less d a b) < b.
Proof.
  intros Hl. destruct (div4_bounds (b - a) Hl) as [Hq Hq4].
  unfold choosePivot_func.
  destruct (Nat.leb_spec 8 (b - a)) as [_|?]; [|lia].
  set (q := (b - a) / 4) in *.
  assert (forall j s, a <= j < b ->
            a <= fst (if s =? 0 then (j, increasingHint)
                      else if s =? maxSwaps then (j, decreasingHint)
                      else (j, unknownHint)) < b) as Hret.
  { intros j s Hj. by destruct (s =? 0), (s =? maxSwaps). }
  destruct (Nat.leb_spec shortestNinther (b - a)) as [Hn|Hn].
  - unfold shortestNinther in Hn.
    pose proof (medianAdjacent_func_cases d (a + q * 1) 0) as H1.
    destruct (medianAdjacent_func less d (a + q * 1) 0) as [i1 s1]. cbn [fst] in H1.
    pose proof (medianAdjacent_func_cases d (a + q * 2) s1) as H2.
    destruct (medianAdjacent_func less d (a + q * 2) s1) as [j1 s2]. cbn [fst] in H2.
    pose proof (medianAdjacent_func_cases d (a + q * 3) s2) as H3.
    destruct (medianAdjacent_func less d (a + q * 3) s2) as [k1 s3]. cbn [fst] in H3.
    pose proof (median_func_cases d i1 j1 k1 s3) as H4.
    destruct (median_func less d i1 j1 k1 s3) as [j2 s4]. cbn [fst] in H4.
    apply Hret. lia.
  - pose proof (median_func_cases d (a + q * 1) (a + q * 2) (a + q * 3) 0) as H4.
    destruct (median_func less d (a + q * 1) (a + q * 2) (a + q * 3) 0) as [j2 s4].
    cbn [fst] in H4. apply Hret. lia.
Qed.

(** *** The partial insertion sort *)

Lemma lower_bounded_confined a b d d' :
  a <= b -> confined a b d d' -> lower_bounded less a b d -> lower_bounded less a b d'.
Proof.
  intros Hab Hc [->|(q & Hq & Hall)]; [by left|].
  destruct (decide (a = 0)) as [->|Ha]; [by left|]. right. exists q. split.
  - destruct Hc as [_ Ho]. rewrite Ho; [done | lia].
  - by apply (confined_range a b d d' (fun x => less x q = false)).
Qed.

Lemma lower_bounded_sub a b b' d : b' <= b -> lower_bounded less a b d -> lower_bounded less a b' d.
Proof.
  intros Hb [->|(q & Hq & Hall)]; [by left|]. right. exists q. split; [done|].
  intros k x Hk. apply Hall. lia.
Qed.

Lemma insert_down_zero : forall j (d : list A) a,
  a <= j -> j < length d -> lower_bounded less a (S j) d ->
  insert_down less d 0 j = insert_down less d a j.
Proof.
  induction j as [|j IH]; intros d a Haj Hj Hlow; [by destruct a|].
  cbn [insert_down]. destruct (Nat.ltb_spec a (S j)) as [Hlt|Hge].
  - change (0 <? S j) with true. cbn [andb].
    destruct (Less less d (S j) j) eqn:E; [|done].
    apply IH; [lia | rewrite Swap_length; lia|].
    apply (lower_bounded_sub a (S (S j))); [lia|].
    apply (lower_bounded_confined a (S (S j)) d); [lia | apply confined_Swap; lia | done].
  - assert (a = S j) as -> by lia. change (0 <? S j) with true. cbn [andb].
    destruct Hlow as [?|(q & Hq & Hall)]; [lia|].
    replace (S j - 1) with j in Hq by lia.
    destruct (lookup_lt_is_Some_2 d (S j) Hj) as [x Hx].
    rewrite (Less_lookup d (S j) j x q Hx Hq).
    by rewrite (Hall (S j) x) by (done || lia).
Qed.

Lemma insert_down_range (d : list A) a j x :
  a <= j -> d !! j = Some x ->
  insert_down less d a j
  = take a d ++ reverse (insert_left less x (reverse (seg a j d))) ++ drop (S j) d.
Proof.
  intros Haj Hx. pose proof (lookup_lt_Some _ _ _ Hx) as Hj.
  pose proof (insert_down_spec (take a d) (reverse (seg a j d)) (drop (S j) d) x) as H.
  rewrite reverse_involutive, length_reverse, length_take_le, length_seg in H by lia.
  replace (a + (j - a)) with j in H by lia. rewrite <- H. f_equal.
  rewrite (seg_split a j d) at 1 by lia. f_equal. f_equal.
  by apply drop_S.
Qed.

Lemma insert_down_sorts (d : list A) a j :
  a <= j -> j < length d -> sorted_on less a j d ->
  confined a (S j) d (insert_down less d a j)
  /\ sorted_on less a (S j) (insert_down less d a j).
Proof.
  intros Haj Hj Hs. destruct (lookup_lt_is_Some_2 d j Hj) as [x Hx].
  rewrite (insert_down_range d a j x Haj Hx).
  assert (seg a (S j) d = seg a j d ++ [x]) as Hseg.
  { unfold seg. replace (S j - a) with (S (j - a)) by lia.
    rewrite (take_S_r _ _ x); [done|]. rewrite lookup_drop. by replace (a + (j - a)) with j by lia. }
  assert (reverse (insert_left less x (reverse (seg a j d))) ≡ₚ seg a (S j) d) as Hp.
  { rewrite reverse_Permutation, insert_left_perm, reverse_Permutation, Hseg.
    by rewrite Permutation_app_comm. }
  split; [by apply confined_replace; [lia|]|].
  apply sorted_on_seg.
  - rewrite !length_app, length_take_le, length_drop, Hp, length_seg by lia. lia.
  - rewrite seg_replace; [|lia|by rewrite Hp, length_seg by lia].
    apply Sorted_StronglySorted; [apply _|].
    apply (Sorted_reverse (fun p q => less p q = false)).
    apply insert_left_sorted; [apply less_asym|].
    apply (Sorted_reverse (fun p q => less q p = false)).
    apply StronglySorted_Sorted. apply sorted_on_seg; [lia | done].
Qed.

Lemma scan_sorted_spec (d : list A) b fuel : forall i,
  i <= b -> b - i <= fuel ->
  i <= scan_sorted less fuel d i b <= b
  /\ (forall k, i <= k < scan_sorted less fuel d i b -> Less less d k (k - 1) = false)
  /\ (scan_sorted less fuel d i b < b ->
      Less less d (scan_sorted less fuel d i b) (scan_sorted less fuel d i b - 1) = true).
Proof.
  induction fuel as [|fuel IH]; intros i Hi Hf; cbn [scan_sorted].
  - repeat split; [lia | lia | intros k; lia | intros; lia].
  - destruct (Nat.ltb_spec i b) as [Hlt|Hge]; cbn [andb].
    + destruct (Less less d i (i - 1)) eqn:E; cbn [negb].
      * repeat split; [lia | lia | intros k; lia | done].
      * destruct (IH (i + 1)) as (H1 & H2 & H3); [lia | lia|].
        split; [lia|]. split; [|done].
        intros k Hk. destruct (decide (k = i)) as [->|Hne]; [done|]. apply H2. lia.
    + repeat split; [lia | lia | intros k; lia | intros; lia].
Qed.

Lemma shift_right_confined a b fuel : forall (d : list A) j,
  a < j -> confined a b d (shift_right less fuel d j b).
Proof.
  induction fuel as [|fuel IH]; intros d j Hj; cbn [shift_right]; [apply confined_refl|].
  destruct (Nat.ltb_spec j b) as [Hlt|Hge]; [|apply confined_refl].
  destruct (Less less d j (j - 1)); cbn [negb]; [|apply confined_refl].
  apply (confined_trans a b d (Swap d j (j - 1))); [apply confined_Swap; lia | apply IH; lia].
Qed.

Lemma adjacent_on_confined_left a i b d d' :
  confined i b d d' -> adjacent_on less a i d -> adjacent_on less a i d'.
Proof.
  intros [_ Ho] Hadj k x y Hk Hki Hx Hy.
  rewrite Ho in Hx, Hy by lia. by apply (Hadj k).
Qed.

Lemma partialInsertionSort_loop_spec (d : list A) a b steps : forall dk i,
  a < i -> i <= b -> b <= length dk ->
  confined a b d dk -> lower_bounded less a b dk -> adjacent_on less a i dk ->
  confined a b d (fst (partialInsertionSort_loop less steps dk a b i))
  /\ (snd (partialInsertionSort_loop less steps dk a b i) = true ->
      sorted_on less a b (fst (partialInsertionSort_loop less steps dk a b i))).
Proof.
  induction steps as [|steps IH]; intros dk i Hai Hib Hlen Hc Hlow Hadj;
    cbn [partialInsertionSort_loop]; [by split|].
  destruct (scan_sorted_spec dk b (b - i) i) as (S1 & S2 & S3); [lia | lia|].
  set (i' := scan_sorted less (b - i) dk i b) in *.
  assert (adjacent_on less a i' dk) as Hadj'.
  { intros k x y Hk Hki Hx Hy. destruct (decide (S k < i)) as [Hlt|Hge].
    - by apply (Hadj k).
    - rewrite <- (Less_lookup dk (S k) k y x Hy Hx).
      replace k with (S k - 1) at 2 by lia. apply S2. lia. }
  destruct (Nat.eqb_spec i' b) as [Heq|Hne].
  { cbn [fst snd]. split; [done|]. intros _. apply adjacent_sorted_on; [done|].
    by rewrite <- Heq. }
  destruct (b - a <? shortestShifting); [by split|].
  set (d1 := Swap dk i' (i' - 1)).
  assert (confined a b dk d1) as Hc1 by (apply confined_Swap; lia).
  assert (length d1 = length dk) as Hlen1 by apply Swap_length.
  set (d2 := if 2 <=? i' - a then insert_down less d1 0 (i' - 1) else d1).
  assert (confined a i' d1 d2 /\ adjacent_on less a i' d2) as [Hc2 Hadj2].
  { subst d2. destruct (Nat.leb_spec 2 (i' - a)) as [Hge|Hlt].
    - assert (sorted_on less a (i' - 1) d1) as Hs1.
      { apply adjacent_sorted_on; [lia|].
        intros k x y Hk Hki. unfold d1. rewrite !Swap_lookup by lia.
        destruct (decide (k = i' - 1)); [lia|]. destruct (decide (k = i')); [lia|].
        destruct (decide (S k = i' - 1)); [lia|]. destruct (decide (S k = i')); [lia|].
        apply Hadj'; lia. }
      rewrite (insert_down_zero (i' - 1) d1 a); [|lia|lia|].
      + destruct (insert_down_sorts d1 a (i' - 1)) as [Hc2 Hs2]; [lia | lia | done|].
        replace (S (i' - 1)) with i' in Hc2, Hs2 by lia.
        split; [done | by apply sorted_on_adjacent].
      + replace (S (i' - 1)) with i' by lia.
        apply (lower_bounded_sub a b); [lia|].
        by apply (lower_bounded_confined a b dk); [lia| |].
    - split; [apply confined_refl|]. intros k x y Hk Hki. lia. }
  set (d3 := if 2 <=? b - i' then shift_right less (b - i') d2 (i' + 1) b else d2).
  assert (confined i' b d2 d3) as Hc3.
  { subst d3. destruct (2 <=? b - i'); [|apply confined_refl].
    apply shift_right_confined. lia. }
  assert (confined a b d d3) as Hc'.
  { apply (confined_trans a b d dk); [done|].
    apply (confined_trans a b dk d1); [done|].
    apply (confined_trans a b d1 d2); [apply (confined_widen a i'); [lia | lia | done]|].
    apply (confined_widen i' b); [lia | lia | done]. }
  apply IH; [lia | lia | | done | | ].
  - rewrite (confined_length i' b d2 d3 Hc3), (confined_length a i' d1 d2 Hc2). lia.
  - apply (lower_bounded_confined a b dk); [lia | | done].
    apply (confined_trans a b dk d1); [done|].
    apply (confined_trans a b d1 d2); [apply (confined_widen a i'); [lia | lia | done]|].
    apply (confined_widen i' b); [lia | lia | done].
  - by apply (adjacent_on_confined_left a i' b d2).
Qed.

Lemma partialInsertionSort_func_spec (d : list A) a b :
  a < b -> b <= length d -> lower_bounded less a b d ->
  confined a b d (fst (partialInsertionSort_func less d a b))
  /\ (snd (partialInsertionSort_func less d a b) = true ->
      sorted_on less a b (fst (partialInsertionSort_func less d a b))).
Proof.
  intros Hab Hb Hlow. unfold partialInsertionSort_func.
  apply partialInsertionSort_loop_spec; [lia | lia | done | apply confined_refl | done|].
  intros k x y Hk Hki. lia.
Qed.

(** *** The heap sort *)

Lemma siftDown_loop_spec first lo hi fuel : forall (d : list A) root,
  lo <= root -> hi - root <= fuel -> first + hi <= length d ->
  sift_inv less first lo hi root d ->
  confined (first + lo) (first + hi) d (siftDown_loop less fuel d root hi first)
  /\ heap_from less first lo hi (siftDown_loop less fuel d root hi first).
Proof.
  induction fuel as [|fuel IH]; intros d root Hlo Hf Hlen [Hinv1 Hinv2];
    cbn [siftDown_loop].
  { split; [apply confined_refl|]. intros r c x y Hr Hc Hcc Hx Hy.
    destruct (decide (r = root)) as [->|Hne]; [lia|]. by apply (Hinv1 r c). }
  destruct (Nat.leb_spec hi (2 * root + 1)) as [Hnone|Hsome].
  { split; [apply confined_refl|]. intros r c x y Hr Hc Hcc Hx Hy.
    destruct (decide (r = root)) as [->|Hne]; [lia|]. by apply (Hinv1 r c). }
  set (c0 := 2 * root + 1) in *.
  set (child := if (c0 + 1 <? hi) && Less less d (first + c0) (first + c0 + 1)
                then c0 + 1 else c0).
  destruct (lookup_lt_is_Some_2 d (first + root)) as [xr Hxr]; [lia|].
  destruct (lookup_lt_is_Some_2 d (first + child)) as [yc Hyc].
  { subst child. destruct (Nat.ltb_spec (c0 + 1) hi); cbn [andb];
      [destruct (Less less d (first + c0) (first + c0 + 1))|]; lia. }
  assert ((child = c0 \/ child = c0 + 1) /\ child < hi
          /\ forall c y, c = c0 \/ c = c0 + 1 -> c < hi -> d !! (first + c) = Some y ->
                         less yc y = false) as (Hchild & Hchi & Hmax).
  { subst child. destruct (Nat.ltb_spec (c0 + 1) hi) as [Hr|Hr]; cbn [andb] in *.
    - destruct (lookup_lt_is_Some_2 d (first + c0)) as [yl Hyl]; [lia|].
      destruct (lookup_lt_is_Some_2 d (first + (c0 + 1))) as [yr Hyr]; [lia|].
      replace (first + c0 + 1) with (first + (c0 + 1)) in * by lia.
      rewrite (Less_lookup d _ _ yl yr Hyl Hyr) in *.
      destruct (less yl yr) eqn:Hlr.
      + split; [by right|]. split; [done|]. rewrite Hyr in Hyc. injection Hyc as <-.
        intros c y [->| ->] Hc Hy.
        * rewrite Hyl in Hy. injection Hy as <-. by apply less_asym.
        * rewrite Hyr in Hy. injection Hy as <-. apply less_irrefl.
      + split; [by left|]. split; [lia|]. rewrite Hyl in Hyc. injection Hyc as <-.
        intros c y [->| ->] Hc Hy.
        * rewrite Hyl in Hy. injection Hy as <-. apply less_irrefl.
        * rewrite Hyr in Hy. by injection Hy as <-.
    - split; [by left|]. split; [lia|]. intros c y [->| ->] Hc Hy; [|lia].
      rewrite Hyc in Hy. injection Hy as <-. apply less_irrefl. }
  clearbody child.
  rewrite (Less_lookup d _ _ xr yc Hxr Hyc).
  destruct (less xr yc) eqn:Hless; cbn [negb].
  - assert (forall k, Swap d (first + root) (first + child) !! k
              = if decide (k = first + child) then d !! (first + root)
                else if decide (k = first + root) then d !! (first + child) else d !! k)
      as Hlook by (intros k; apply Swap_lookup; lia).
    destruct (IH (Swap d (first + root) (first + child)) child) as [Hc Hheap];
      [lia | lia | by rewrite Swap_length | |].
    + split.
      * intros r c x y Hr Hne Hc Hcc. rewrite !Hlook.
        destruct (decide (first + r = first + child)) as [?|_]; [lia|].
        destruct (decide (first + c = first + child)) as [Hcch|Hcch].
        { assert (r = root) as -> by lia. rewrite decide_True by done.
          rewrite Hxr, Hyc. intros [= <-] [= <-]. by apply less_asym. }
        destruct (decide (first + c = first + root)) as [Hcr|Hcr].
        { assert (c = root) as -> by lia. rewrite Hyc.
          destruct (decide (first + r = first + root)) as [?|_]; [lia|].
          intros Hx [= <-]. apply (Hinv2 r child x yc); [done | lia | done | lia | done | done]. }
        destruct (decide (first + r = first + root)) as [Hrr|Hrr].
        { assert (r = root) as -> by lia. rewrite Hyc. intros [= <-] Hy.
          apply (Hmax c y); [lia | done | done]. }
        intros Hx Hy. apply (Hinv1 r c x y); [done | lia | done | done | done | done].
      * intros r c x y Hr Hroot Hc Hcc. rewrite !Hlook.
        assert (r = root) as -> by lia.
        destruct (decide (first + root = first + child)) as [?|_]; [lia|].
        rewrite decide_True by done.
        destruct (decide (first + c = first + child)) as [?|_]; [lia|].
        destruct (decide (first + c = first + root)) as [?|_]; [lia|].
        rewrite Hyc. intros [= <-] Hy.
        apply (Hinv1 child c yc y); [lia | lia | done | done | done | done].
    + split; [|done].
      apply (confined_trans _ _ d (Swap d (first + root) (first + child))); [|done].
      apply confined_Swap; lia.
  - split; [apply confined_refl|]. intros r c x y Hr Hc Hcc Hx Hy.
    destruct (decide (r = root)) as [->|Hne]; [|by apply (Hinv1 r c)].
    rewrite Hxr in Hx. injection Hx as <-.
    apply (le_trans y yc xr); [|done]. apply (Hmax c y); [lia | done | done].
Qed.

Lemma siftDown_func_spec first lo hi (d : list A) :
  first + hi <= length d -> heap_from less first (lo + 1) hi d ->
  confined (first + lo) (first + hi) d (siftDown_func less d lo hi first)
  /\ heap_from less first lo hi (siftDown_func less d lo hi first).
Proof.
  intros Hlen Hheap. unfold siftDown_func.
  apply siftDown_loop_spec; [lia | lia | done|]. split.
  - intros r c x y Hr Hne. apply Hheap. lia.
  - intros r c x y Hr Hroot. lia.
Qed.

Lemma reverse_seq_S n : reverse (seq 0 (S n)) = n :: reverse (seq 0 n).
Proof. by rewrite seq_S, reverse_app. Qed.

Lemma heap_build first hi n : forall (d : list A),
  first + hi <= length d -> heap_from less first n hi d ->
  confined first (first + hi) d
    (fold_left (fun data i => siftDown_func less data i hi first) (reverse (seq 0 n)) d)
  /\ heap_from less first 0 hi
       (fold_left (fun data i => siftDown_func less data i hi first) (reverse (seq 0 n)) d).
Proof.
  induction n as [|n IH]; intros d Hlen Hheap; [by split; [apply confined_refl|]|].
  rewrite reverse_seq_S. cbn [fold_left].
  destruct (siftDown_func_spec first n hi d Hlen) as [Hc Hh].
  { by replace (n + 1) with (S n) by lia. }
  destruct (IH (siftDown_func less d n hi first)) as [Hc' Hh']; [|done|].
  { by rewrite (confined_length _ _ _ _ Hc). }
  split; [|done].
  apply (confined_trans _ _ d (siftDown_func less d n hi first)); [|done].
  by apply (confined_widen (first + n) (first + hi)); [lia | lia|].
Qed.

Lemma heap_root_max first n (d : list A) :
  heap_from less first 0 n d -> first + n <= length d ->
  forall r x0 y, r < n -> d !! first = Some x0 -> d !! (first + r) = Some y ->
                 less x0 y = false.
Proof.
  intros Hheap Hlen r. induction r as [r IH] using lt_wf_ind. intros x0 y Hr Hx0 Hy.
  destruct (decide (r = 0)) as [->|Hne].
  { rewrite Nat.add_0_r, Hx0 in Hy. injection Hy as <-. apply less_irrefl. }
  pose proof (Nat.div_mod_eq (r - 1) 2) as Hdiv.
  pose proof (Nat.mod_upper_bound (r - 1) 2) as Hmod.
  set (p := (r - 1) / 2) in *.
  destruct (lookup_lt_is_Some_2 d (first + p)) as [z Hz]; [lia|].
  assert (less x0 z = false) as H1 by (apply (IH p); [lia | lia | done | done]).
  assert (less z y = false) as H2 by (apply (Hheap p r z y); [lia | done | lia | done | done]).
  by apply (le_trans y z x0).
Qed.

Lemma heap_pop first hi n : forall (d : list A),
  n <= hi -> first + hi <= length d -> pop_inv less first hi n d ->
  confined first (first + hi) d
    (fold_left (fun data i => siftDown_func less (Swap data first (first + i)) 0 i first)
               (reverse (seq 0 n)) d)
  /\ sorted_on less first (first + hi)
       (fold_left (fun data i => siftDown_func less (Swap data first (first + i)) 0 i first)
                  (reverse (seq 0 n)) d).
Proof.
  induction n as [|i IH]; intros d Hn Hlen (Hheap & Hsorted & Hle).
  { split; [apply confined_refl|]. by rewrite Nat.add_0_r in Hsorted. }
  rewrite reverse_seq_S. cbn [fold_left].
  set (d1 := Swap d first (first + i)).
  assert (forall k, d1 !! k
            = if decide (k = first + i) then d !! first
              else if decide (k = first) then d !! (first + i) else d !! k)
    as Hlook by (intros k; apply Swap_lookup; lia).
  assert (length d1 = length d) as Hlen1 by apply Swap_length.
  destruct (siftDown_func_spec first 0 i d1) as [Hc2 Hh2]; [lia| |].
  { intros r c x y Hr Hc Hcc. rewrite !Hlook.
    destruct (decide (first + r = first + i)); [lia|].
    destruct (decide (first + r = first)); [lia|].
    destruct (decide (first + c = first + i)); [lia|].
    destruct (decide (first + c = first)); [lia|].
    apply Hheap; [lia | lia | done]. }
  rewrite Nat.add_0_r in Hc2.
  set (d2 := siftDown_func less d1 0 i first) in *.
  assert (length d2 = length d) as Hlen2 by (by rewrite (confined_length _ _ _ _ Hc2)).
  destruct (lookup_lt_is_Some_2 d first) as [M HM]; [lia|].
  assert (forall k, first + i <= k -> d2 !! k = d1 !! k) as Hright.
  { intros k Hk. destruct Hc2 as [_ Ho]. apply Ho. lia. }
  assert (forall r x, r < i -> d2 !! (first + r) = Some x ->
            less M x = false
            /\ forall k y, S i <= k < hi -> d !! (first + k) = Some y -> less y x = false)
    as Hold.
  { intros r x Hr Hx.
    apply (confined_range first (first + i) d1 d2
             (fun x => less M x = false
                       /\ forall k y, S i <= k < hi -> d !! (first + k) = Some y ->
                                      less y x = false)) with (k := first + r);
      [lia | done | | lia | done].
    intros k z Hk. rewrite Hlook.
    destruct (decide (k = first + i)); [lia|].
    destruct (decide (k = first)) as [->|Hkf]; intros Hz.
    - split.
      + apply (heap_root_max first (S i) d Hheap) with (r := i); [lia | lia | done | done].
      + intros k' y Hk' Hy. apply (Hle i k'); [lia | done | done | done].
    - replace k with (first + (k - first)) in Hz by lia. split.
      + apply (heap_root_max first (S i) d Hheap) with (r := k - first);
          [lia | lia | done | done].
      + intros k' y Hk' Hy. apply (Hle (k - first) k'); [lia | done | done | done]. }
  destruct (IH d2) as [Hc3 Hs3]; [lia | lia | |].
  { split; [done|]. split.
    - intros u v x y Hu Huv Hv. rewrite !Hright by lia. rewrite !Hlook.
      destruct (decide (v = first + i)); [lia|].
      destruct (decide (v = first)); [lia|].
      destruct (decide (u = first + i)) as [->|Hui].
      + rewrite HM. intros [= <-] Hy.
        replace v with (first + (v - first)) in Hy by lia.
        apply (Hle 0 (v - first)); [lia | lia | by rewrite Nat.add_0_r | done].
      + destruct (decide (u = first)); [lia|].
        apply Hsorted; lia.
    - intros r k x y Hr Hk Hx. rewrite Hright by lia. rewrite Hlook.
      destruct (Hold r x Hr Hx) as [HMx Hrest].
      destruct (decide (first + k = first + i)) as [?|Hki].
      + rewrite HM. by intros [= <-].
      + destruct (decide (first + k = first)); [lia|].
        apply Hrest. lia. }
  split; [|done].
  apply (confined_trans _ _ d d1); [apply confined_Swap; lia|].
  apply (confined_trans _ _ d1 d2); [|done].
  by apply (confined_widen first (first + i)); [lia | lia|].
Qed.

Lemma heapSort_func_sorts (d : list A) a b :
  a <= b <= length d ->
  confined a b d (heapSort_func less d a b) /\ sorted_on less a b (heapSort_func less d a b).
Proof.
  intros Hab. unfold heapSort_func.
  set (hi := b - a). assert (a + hi = b) as Hb by lia.
  destruct (heap_build a hi ((hi - 1) / 2 + 1) d) as [Hc1 Hh1]; [lia| |].
  { intros r c x y Hr Hc Hcc.
    pose proof (Nat.div_mod_eq (hi - 1) 2) as Hdiv.
    pose proof (Nat.mod_upper_bound (hi - 1) 2) as Hmod. lia. }
  set (d1 := fold_left (fun data i => siftDown_func less data i hi a)
                       (reverse (seq 0 ((hi - 1) / 2 + 1))) d) in *.
  destruct (heap_pop a hi hi d1) as [Hc2 Hs2]; [lia | | |].
  { rewrite (confined_length _ _ _ _ Hc1). lia. }
  { split; [done|]. split; [intros i j x y; lia|]. intros r k x y Hr Hk. lia. }
  rewrite Hb in *. split; [|done].
  by apply (confined_trans a b d d1).
Qed.

(** *** The quicksort *)

Lemma lower_bounded_outside a b a' b' (d d' : list A) :
  confined a' b' d d' -> (a <= a' /\ b <= a') \/ b' <= a - 1 ->
  lower_bounded less a b d -> lower_bounded less a b d'.
Proof.
  intros [_ Ho] Hdis [->|(q & Hq & Hall)]; [by left|].
  destruct (decide (a = 0)) as [->|Ha]; [by left|]. right. exists q. split.
  - rewrite Ho; [done | lia].
  - intros k x Hk. rewrite Ho by lia. by apply Hall.
Qed.

Lemma sorted_on_outside a b a' b' (d d' : list A) :
  confined a' b' d d' -> b <= a' \/ b' <= a -> sorted_on less a b d -> sorted_on less a b d'.
Proof.
  intros [_ Ho] Hdis Hs i j x y Hi Hij Hj. rewrite !Ho by lia. by apply Hs.
Qed.

Lemma range_outside a b a' b' (d d' : list A) (P : A -> Prop) :
  confined a' b' d d' -> b <= a' \/ b' <= a ->
  (forall k x, a <= k < b -> d !! k = Some x -> P x) ->
  forall k x, a <= k < b -> d' !! k = Some x -> P x.
Proof.
  intros [_ Ho] Hdis HP k x Hk. rewrite Ho by lia. by apply HP.
Qed.

Lemma equal_lower a b (d2 d3 : list A) p q pivot mid :
  0 < a -> a <= b -> lower_bounded less a b d2 ->
  d2 !! (a - 1) = Some q -> d2 !! pivot = Some p -> a <= pivot < b -> b <= length d2 ->
  less q p = false ->
  partitioned_equal less d2 p a b d3 mid ->
  (forall k x, a <= k < b -> d3 !! k = Some x -> less x p = false)
  /\ lower_bounded less mid b d3.
Proof.
  intros Ha Hab Hlow Hq Hp Hpiv Hlen Hqp (Hmid & Hc & Hpa & Hleft & Hright).
  destruct Hlow as [?|(q' & Hq' & Hall)]; [lia|].
  rewrite Hq in Hq'. injection Hq' as <-.
  assert (forall k x, a <= k < b -> d3 !! k = Some x -> less x p = false) as Hge.
  { apply (confined_range a b d2 d3 (fun x => less x p = false)); [done | done|].
    intros k x Hk Hx. apply (le_trans p q x); [done|]. by apply (Hall k). }
  split; [done|]. right.
  destruct (lookup_lt_is_Some_2 d3 (mid - 1)) as [q' Hq'].
  { rewrite (confined_length _ _ _ _ Hc). lia. }
  exists q'. split; [done|]. intros k x Hk Hx.
  assert (less p q' = false) as H1 by (apply (Hleft (mid - 1)); [lia | done]).
  assert (less p x = true) as H2 by (apply (Hright k); [lia | done]).
  destruct (less x q') eqn:E; [|done].
  by rewrite (less_trans p x q' H2 E) in H1.
Qed.

Lemma equal_combine a b (d2 d3 d4 : list A) p mid :
  partitioned_equal less d2 p a b d3 mid ->
  (forall k x, a <= k < b -> d3 !! k = Some x -> less x p = false) ->
  confined mid b d3 d4 -> sorted_on less mid b d4 ->
  confined a b d2 d4 /\ sorted_on less a b d4.
Proof.
  intros (Hmid & Hc & Hpa & Hleft & Hright) Hge Hc4 Hs4. split.
  { apply (confined_trans a b d2 d3); [done|].
    by apply (confined_widen mid b); [lia | lia|]. }
  assert (forall k x, mid <= k < b -> d4 !! k = Some x -> less p x = true) as Hright4.
  { by apply (confined_range mid b d3 d4 (fun x => less p x = true)); [lia | |]. }
  assert (forall k, k < mid -> d4 !! k = d3 !! k) as Hsame.
  { intros k Hk. destruct Hc4 as [_ Ho]. apply Ho. lia. }
  intros i j x y Hi Hij Hj Hx Hy.
  destruct (decide (mid <= i)) as [Hmi|Hmi]; [by apply (Hs4 i j); [lia | lia | lia | |]|].
  rewrite Hsame in Hx by lia.
  assert (less p x = false) as Hpx by (apply (Hleft i); [lia | done]).
  destruct (decide (mid <= j)) as [Hmj|Hmj].
  - assert (less p y = true) as Hpy by (apply (Hright4 j); [lia | done]).
    destruct (less y x) eqn:E; [|done].
    by rewrite (less_trans p y x Hpy E) in Hpx.
  - rewrite Hsame in Hy by lia.
    assert (less y p = false) as Hyp by (apply (Hge j); [lia | done]).
    by apply (le_trans x p y).
Qed.

Lemma partition_combine a b (d5 : list A) p mid :
  a <= mid < b ->
  d5 !! mid = Some p ->
  (forall k x, a <= k < mid -> d5 !! k = Some x -> less x p = true) ->
  (forall k x, mid < k < b -> d5 !! k = Some x -> less x p = false) ->
  sorted_on less a mid d5 -> sorted_on less (mid + 1) b d5 ->
  sorted_on less a b d5.
Proof.
  intros Hmid Hp Hleft Hright Hsl Hsr i j x y Hi Hij Hj Hx Hy.
  destruct (decide (j < mid)) as [Hjm|Hjm]; [by apply (Hsl i j)|].
  destruct (decide (mid < i)) as [Him|Him]; [by apply (Hsr i j); [lia | lia | lia | |]|].
  assert (less p x = false) as Hpx.
  { destruct (decide (i = mid)) as [->|Hne].
    - rewrite Hp in Hx. injection Hx as <-. apply less_irrefl.
    - apply less_asym. apply (Hleft i); [lia | done]. }
  assert (less y p = false) as Hyp.
  { destruct (decide (j = mid)) as [->|Hne].
    - rewrite Hp in Hy. injection Hy as <-. apply less_irrefl.
    - apply (Hright j); [lia | done]. }
  by apply (le_trans x p y).
Qed.

(** Two ranges on either side of the pivot, sorted one after the other. *)
Lemma sides_combine a b (d2 d3 d4 d5 : list A) p mid a1 b1 a2 b2 :
  partitioned less d2 p a b d3 mid ->
  (a1 = a /\ b1 = mid /\ a2 = mid + 1 /\ b2 = b)
  \/ (a1 = mid + 1 /\ b1 = b /\ a2 = a /\ b2 = mid) ->
  confined a1 b1 d3 d4 -> sorted_on less a1 b1 d4 ->
  confined a2 b2 d4 d5 -> sorted_on less a2 b2 d5 ->
  confined a b d2 d5 /\ sorted_on less a b d5.
Proof.
  intros (Hmid & Hc & Hp & Hleft & Hright) Hsides Hc4 Hs4 Hc5 Hs5.
  assert (a1 <= b1 /\ a2 <= b2 /\ a <= a1 /\ b1 <= b /\ a <= a2 /\ b2 <= b
          /\ (b1 <= a2 \/ b2 <= a1) /\ ~ (a1 <= mid < b1) /\ ~ (a2 <= mid < b2)) as Hord
    by lia.
  destruct Hord as (H1 & H2 & H3 & H4 & H5 & H6 & Hdis & Hm1 & Hm2).
  split.
  { apply (confined_trans a b d2 d3); [done|].
    apply (confined_trans a b d3 d4); [by apply (confined_widen a1 b1)|].
    by apply (confined_widen a2 b2). }
  assert (d5 !! mid = Some p) as Hp5.
  { destruct Hc4 as [_ Ho4], Hc5 as [_ Ho5]. rewrite Ho5, Ho4 by lia. done. }
  assert (forall (P : A -> Prop) lo hi,
            (lo = a /\ hi = mid) \/ (lo = mid + 1 /\ hi = b) ->
            (forall k x, lo <= k < hi -> d3 !! k = Some x -> P x) ->
            forall k x, lo <= k < hi -> d5 !! k = Some x -> P x) as Hkeep.
  { intros P lo hi Hlh HP.
    assert ((lo = a1 /\ hi = b1) \/ (lo = a2 /\ hi = b2)) as [[-> ->]|[-> ->]] by lia.
    - apply (range_outside a1 b1 a2 b2 d4 d5 P Hc5); [lia|].
      by apply (confined_range a1 b1 d3 d4 P).
    - apply (confined_range a2 b2 d4 d5 P); [done | done|].
      apply (range_outside a2 b2 a1 b1 d3 d4 P Hc4); [lia | done]. }
  assert (sorted_on less a1 b1 d5) as Hs4'
    by (apply (sorted_on_outside a1 b1 a2 b2 d4 d5); [done | lia | done]).
  apply (partition_combine a b d5 p mid); [done | done | | | |].
  - apply (Hkeep (fun x => less x p = true) a mid); [by left|]. done.
  - intros k x Hk. apply (Hkeep (fun x => less x p = false) (mid + 1) b); [by right| |lia].
    intros k' x' Hk'. apply Hright. lia.
  - destruct Hsides as [(-> & -> & _)|(_ & _ & -> & ->)]; done.
  - destruct Hsides as [(_ & _ & -> & ->)|(-> & -> & _)]; done.
Qed.

Lemma pdqsort_func_sorts fuel : forall (d : list A) a b limit wb wp,
  a <= b -> b <= length d -> b - a < fuel -> lower_bounded less a b d ->
  confined a b d (pdqsort_func Next less fuel d a b limit wb wp)
  /\ sorted_on less a b (pdqsort_func Next less fuel d a b limit wb wp).
Proof.
  induction fuel as [|fuel IH]; intros d a b limit wb wp Hab Hlen Hfuel Hlow; [lia|].
  cbn [pdqsort_func].
  destruct (Nat.leb_spec (b - a) maxInsertion) as [Hshort|Hlong];
    [by apply insertionSort_func_sorts|].
  destruct (limit =? 0); [by apply heapSort_func_sorts|].
  unfold maxInsertion in Hlong.
  set (d1 := if wb then d else breakPatterns_func Next d a b).
  assert (confined a b d d1) as Hc1.
  { subst d1. destruct wb; [apply confined_refl | apply breakPatterns_func_confined]. }
  clearbody d1.
  generalize (if wb then limit else limit - 1). intros limit'.
  pose proof (choosePivot_func_range d1 a b) as Hpr.
  destruct (choosePivot_func less d1 a b) as [pivot0 hint0]. cbn [fst] in Hpr.
  specialize (Hpr ltac:(lia)).
  set (pivot := if is_decreasing hint0 then b - 1 - (pivot0 - a) else pivot0).
  assert (a <= pivot < b) as Hpiv by (subst pivot; destruct (is_decreasing hint0); lia).
  clearbody pivot.
  set (d1' := if is_decreasing hint0 then reverseRange_func d1 a b else d1).
  assert (confined a b d1 d1') as Hc1'.
  { subst d1'. destruct (is_decreasing hint0);
      [apply reverseRange_func_confined; lia | apply confined_refl]. }
  clearbody d1'.
  generalize (wb && wp && is_increasing (if is_decreasing hint0 then increasingHint else hint0)).
  intros try_partial.
  assert (confined a b d d1') as Hcd1' by (by apply (confined_trans a b d d1)).
  assert (b <= length d1') as Hlen1' by (by rewrite (confined_length _ _ _ _ Hcd1')).
  assert (lower_bounded less a b d1') as Hlow1'
    by (by apply (lower_bounded_confined a b d)).
  set (R := if try_partial then partialInsertionSort_func less d1' a b else (d1', false)).
  assert (confined a b d1' (fst R) /\ (snd R = true -> sorted_on less a b (fst R))) as [Hc2 Hs2].
  { subst R. destruct try_partial;
      [apply partialInsertionSort_func_spec; [lia | done | done]|].
    split; [apply confined_refl | discriminate]. }
  clearbody R. destruct R as [d2 sorted]. cbn [fst snd] in Hc2, Hs2.
  assert (confined a b d d2) as Hcd2 by (by apply (confined_trans a b d d1')).
  destruct sorted; [by split; [|apply Hs2]|].
  assert (b <= length d2) as Hlen2 by (by rewrite (confined_length _ _ _ _ Hcd2)).
  assert (lower_bounded less a b d2) as Hlow2 by (by apply (lower_bounded_confined a b d)).
  destruct (lookup_lt_is_Some_2 d2 pivot) as [p Hp]; [lia|].
  destruct ((0 <? a) && negb (Less less d2 (a - 1) pivot)) eqn:Heq.
  - apply andb_true_iff in Heq as [Ha Hnl]. apply Nat.ltb_lt in Ha.
    apply negb_true_iff in Hnl.
    destruct (lookup_lt_is_Some_2 d2 (a - 1)) as [q Hq]; [lia|].
    rewrite (Less_lookup d2 (a - 1) pivot q p Hq Hp) in Hnl.
    pose proof (partitionEqual_func_spec d2 p a b pivot Hpiv Hlen2 Hp) as Hpe.
    destruct (partitionEqual_func less d2 a b pivot) as [d3 mid]. cbn [fst snd] in Hpe.
    destruct (equal_lower a b d2 d3 p q pivot mid Ha Hab Hlow2 Hq Hp Hpiv Hlen2 Hnl Hpe)
      as [Hge Hlow3].
    pose proof Hpe as (Hmid & Hc3 & _).
    destruct (IH d3 mid b limit' wb wp) as [Hc4 Hs4]; [lia | | lia | done|].
    { by rewrite (confined_length _ _ _ _ Hc3). }
    destruct (equal_combine a b d2 d3 (pdqsort_func Next less fuel d3 mid b limit' wb wp)
                p mid Hpe Hge Hc4 Hs4) as [Hc Hs].
    split; [by apply (confined_trans a b d d2) | done].
  - clear Heq.
    pose proof (partition_func_spec d2 p a b pivot Hpiv Hlen2 Hp) as Hpart.
    destruct (partition_func less d2 a b pivot) as [[d3 mid] ap]. cbn [fst snd] in Hpart.
    pose proof Hpart as (Hmid & Hc3 & Hp3 & Hleft & Hright).
    assert (length d3 = length d2) as Hlen3 by apply (confined_length _ _ _ _ Hc3).
    assert (lower_bounded less a mid d3) as Hlowl.
    { apply (lower_bounded_sub a b); [lia|].
      by apply (lower_bounded_confined a b d2). }
    assert (lower_bounded less (mid + 1) b d3) as Hlowr.
    { right. exists p. split; [by replace (mid + 1 - 1) with mid by lia|].
      intros k x Hk. apply Hright. lia. }
    destruct (mid - a <? b - mid).
    + generalize ((b - a) / 8 <=? mid - a). intros wb'.
      destruct (IH d3 a mid limit' true true) as [Hc4 Hs4]; [lia | lia | lia | done|].
      set (d4 := pdqsort_func Next less fuel d3 a mid limit' true true) in *.
      destruct (IH d4 (mid + 1) b limit' wb' ap) as [Hc5 Hs5]; [lia | | lia | |].
      { rewrite (confined_length _ _ _ _ Hc4). lia. }
      { apply (lower_bounded_outside (mid + 1) b a mid d3 d4); [done | lia | done]. }
      set (d5 := pdqsort_func Next less fuel d4 (mid + 1) b limit' wb' ap) in *.
      destruct (sides_combine a b d2 d3 d4 d5 p mid a mid (mid + 1) b Hpart) as [Hc Hs];
        [by left | done | done | done | done|].
      split; [by apply (confined_trans a b d d2) | done].
    + generalize ((b - a) / 8 <=? b - mid). intros wb'.
      destruct (IH d3 (mid + 1) b limit' true true) as [Hc4 Hs4]; [lia | lia | lia | done|].
      set (d4 := pdqsort_func Next less fuel d3 (mid + 1) b limit' true true) in *.
      destruct (IH d4 a mid limit' wb' ap) as [Hc5 Hs5]; [lia | | lia | |].
      { rewrite (confined_length _ _ _ _ Hc4). lia. }
      { apply (lower_bounded_outside a mid (mid + 1) b d3 d4); [done | lia | done]. }
      set (d5 := pdqsort_func Next less fuel d4 a mid limit' wb' ap) in *.
      destruct (sides_combine a b d2 d3 d4 d5 p mid (mid + 1) b a mid Hpart) as [Hc Hs];
        [by right | done | done | done | done|].
      split; [by apply (confined_trans a b d d2) | done].
Qed.

Lemma lower_bounded_0 b (d : list A) : lower_bounded less 0 b d.
Proof. by left. Qed.

(** [sort.Slice] returns the slice sorted: a rearrangement of its elements
    in which none is less than one before it. *)
Lemma Slice_sorts (x : list A) : sort_Slice less x (Slice Next less x).
Proof.
  unfold Slice.
  destruct (pdqsort_func_sorts (S (length x)) x 0 (length x) (bits_Len (length x)) true true)
    as [[Hp _] Hs]; [lia | lia | lia | by left|].
  split; [done|]. apply sorted_on_Sorted.
  by rewrite (Permutation_length Hp).
Qed.

(** *** Short slices and sorted slices *)

Lemma Slice_short (x : list A) :
  length x <= 12 -> Slice Next less x = insertion_sort less x.
Proof.
  intros Hlen. unfold Slice. cbn [pdqsort_func]. rewrite Nat.sub_0_r.
  destruct (Nat.leb_spec (length x) maxInsertion) as [_|Hgt]; [|unfold maxInsertion in Hgt; lia].
  pose proof (insertionSort_func_spec [] x []) as H.
  cbn [app length] in H. rewrite app_nil_r in H. by rewrite app_nil_r in H.
Qed.

Lemma insertion_sort_sorted (xs : list A) :
  Sorted (fun x y => less y x = false) xs -> insertion_sort less xs = xs.
Proof.
  intros Hs. unfold insertion_sort.
  assert (forall rest acc,
            StronglySorted (fun x y => less y x = false) (reverse acc ++ rest) ->
            fold_left (fun acc x => insert_left less x acc) rest acc = reverse rest ++ acc) as H.
  { induction rest as [|x rest IH]; intros acc Hacc; [done|].
    cbn [fold_left].
    assert (insert_left less x acc = x :: acc) as ->.
    { destruct acc as [|y acc]; [done|]. cbn [insert_left].
      rewrite StronglySorted_lookup in Hacc.
      rewrite (Hacc (length acc) (S (length acc)) y x); [done | lia | |].
      - rewrite reverse_cons, <- app_assoc, lookup_app_r by (rewrite length_reverse; lia).
        by rewrite length_reverse, Nat.sub_diag.
      - rewrite reverse_cons, <- app_assoc, lookup_app_r by (rewrite length_reverse; lia).
        rewrite length_reverse. by replace (S (length acc) - length acc) with 1 by lia. }
    rewrite IH; [by rewrite reverse_cons, <- app_assoc|].
    by rewrite reverse_cons, <- app_assoc. }
  rewrite H; [by rewrite app_nil_r, reverse_involutive|].
  rewrite reverse_nil. cbn [app]. apply Sorted_StronglySorted; [apply _ | done].
Qed.

Lemma order2_func_sorted (d : list A) a b x y s :
  sorted_on less a b d -> b <= length d -> a <= x -> x < y -> y < b ->
  order2_func less d x y s = (x, y, s).
Proof.
  intros Hs Hlen Hx Hxy Hy. unfold order2_func.
  destruct (lookup_lt_is_Some_2 d x) as [u Hu]; [lia|].
  destruct (lookup_lt_is_Some_2 d y) as [v Hv]; [lia|].
  by rewrite (Less_lookup d y x v u Hv Hu), (Hs x y u v Hx Hxy Hy Hu Hv).
Qed.

Lemma median_func_sorted (d : list A) a b x y z s :
  sorted_on less a b d -> b <= length d -> a <= x -> x < y -> y < z -> z < b ->
  median_func less d x y z s = (y, s).
Proof.
  intros Hs Hlen Hx Hxy Hyz Hz. unfold median_func.
  rewrite (order2_func_sorted d a b x y s) by (done || lia).
  rewrite (order2_func_sorted d a b y z s) by (done || lia).
  by rewrite (order2_func_sorted d a b x y s) by (done || lia).
Qed.

Lemma choosePivot_func_sorted (d : list A) a b :
  sorted_on less a b d -> b <= length d -> 8 <= b - a ->
  snd (choosePivot_func less d a b) = increasingHint.
Proof.
  intros Hs Hlen Hl. destruct (div4_bounds (b - a) Hl) as [Hq Hq4].
  unfold choosePivot_func.
  destruct (Nat.leb_spec 8 (b - a)) as [_|?]; [|lia].
  set (q := (b - a) / 4) in *.
  destruct (Nat.leb_spec shortestNinther (b - a)) as [Hn|Hn].
  - unfold medianAdjacent_func.
    rewrite (median_func_sorted d a b (a + q * 1 - 1) (a + q * 1) (a + q * 1 + 1) 0)
      by (done || lia).
    rewrite (median_func_sorted d a b (a + q * 2 - 1) (a + q * 2) (a + q * 2 + 1) 0)
      by (done || lia).
    rewrite (median_func_sorted d a b (a + q * 3 - 1) (a + q * 3) (a + q * 3 + 1) 0)
      by (done || lia).
    by rewrite (median_func_sorted d a b (a + q * 1) (a + q * 2) (a + q * 3) 0)
      by (done || lia).
  - by rewrite (median_func_sorted d a b (a + q * 1) (a + q * 2) (a + q * 3) 0)
      by (done || lia).
Qed.

Lemma partialInsertionSort_loop_sorted (d : list A) a b steps :
  sorted_on less a b d -> a < b -> b <= length d ->
  partialInsertionSort_loop less (S steps) d a b (a + 1) = (d, true).
Proof.
  intros Hs Hab Hlen. cbn [partialInsertionSort_loop].
  destruct (scan_sorted_spec d b (b - (a + 1)) (a + 1)) as (S1 & S2 & S3); [lia | lia|].
  set (i := scan_sorted less (b - (a + 1)) d (a + 1) b) in *.
  assert (i = b) as ->.
  { destruct (decide (i < b)) as [Hlt|Hge]; [|lia]. specialize (S3 Hlt).
    destruct (lookup_lt_is_Some_2 d i) as [y Hy]; [lia|].
    destruct (lookup_lt_is_Some_2 d (i - 1)) as [x Hx]; [lia|].
    rewrite (Less_lookup d i (i - 1) y x Hy Hx) in S3.
    by rewrite (Hs (i - 1) i x y) in S3 by (done || lia). }
  by rewrite Nat.eqb_refl.
Qed.

Lemma partialInsertionSort_func_sorted (d : list A) a b :
  sorted_on less a b d -> a < b -> b <= length d ->
  partialInsertionSort_func less d a b = (d, true).
Proof. apply (partialInsertionSort_loop_sorted d a b 4). Qed.

(** A sorted slice is returned as it is. *)
Lemma Slice_sorted (x : list A) :
  Sorted (fun x y => less y x = false) x -> Slice Next less x = x.
Proof.
  intros Hs. destruct (decide (length x <= 12)) as [Hshort|Hlong].
  { rewrite Slice_short by done. by apply insertion_sort_sorted. }
  assert (sorted_on less 0 (length x) x) as Hon by (by apply sorted_on_Sorted).
  unfold Slice. cbn [pdqsort_func]. rewrite Nat.sub_0_r.
  destruct (Nat.leb_spec (length x) maxInsertion) as [Hle|_];
    [unfold maxInsertion in Hle; lia|].
  assert ((bits_Len (length x) =? 0) = false) as ->.
  { apply Nat.eqb_neq. pose proof (bits_Len_pos (length x)). lia. }
  pose proof (choosePivot_func_sorted x 0 (length x) Hon) as Hhint.
  destruct (choosePivot_func less x 0 (length x)) as [pivot hint]. cbn [snd] in Hhint.
  rewrite Hhint by lia. cbn [is_decreasing is_increasing andb].
  by rewrite (partialInsertionSort_func_sorted x 0 (length x)) by (done || lia).
Qed.

(** Sorting twice is sorting once. *)
Lemma Slice_idempotent (x : list A) :
  Slice Next less (Slice Next less x) = Slice Next less x.
Proof. apply Slice_sorted. apply Slice_sorts. Qed.

(** Up to twelve elements are sorted by insertion, which keeps the order of
    elements of which none is less than another. *)
Lemma Slice_short_stable (f : A -> bool) (x : list A) :
  length x <= 12 ->
  (forall y z, f y = true -> f z = true -> less y z = false) ->
  List.filter f (Slice Next less x) = List.filter f x.
Proof. intros Hlen Hf. rewrite Slice_short by done. by apply insertion_sort_stable. Qed.

End SortFacts.

(** ** [sortSessions] as it runs *)

Lemma session_less_irrefl x : session_less x x = false.
Proof. rewrite session_less_key. apply key_lt_irrefl. Qed.

Lemma session_less_trans x y z :
  session_less x y = true -> session_less y z = true -> session_less x z = true.
Proof. rewrite !session_less_key. apply key_lt_trans. Qed.

Lemma session_le_trans x y z :
  session_less y x = false -> session_less z y = false -> session_less z x = false.
Proof.
  rewrite !session_less_key. intros H1 H2.
  exact (key_le_trans (sort_key x) (sort_key y) (sort_key z) H1 H2).
Qed.

(** What [sortSessions] computes is a result that the contract of
    [sort.Slice] admits. *)
Lemma sortSessions_run_meets_contract xs : sortSessions xs (Deterministic.sortSessions xs).
Proof.
  apply Slice_sorts;
    [apply session_less_irrefl | apply session_less_trans | apply session_le_trans].
Qed.

Lemma with_key_not_less k y z :
  String.eqb (AI y) (fst k) && String.eqb (Title y) (snd k) = true ->
  String.eqb (AI z) (fst k) && String.eqb (Title z) (snd k) = true ->
  session_less y z = false.
Proof.
  intros [Hy1 Hy2]%andb_true_iff [Hz1 Hz2]%andb_true_iff.
  apply String.eqb_eq in Hy1, Hy2, Hz1, Hz2. unfold session_less.
  rewrite Hy1, Hz1, Hy2, Hz2, String.eqb_refl. apply string_ltb_irrefl.
Qed.

(** C4 (as amended).  [sortSessions] returns a rearrangement of its input in
    which each session stands before all sessions with a greater AI name
    and, among equal AI names, before all with a greater title; any two
    sessions are comparable in that order.  Sorting the result again returns
    it unchanged.  Up to twelve sessions are sorted by insertion, and the
    sessions of one AI name and one title then keep the order of their
    discovery.  The result is one that the contract of [sort.Slice] admits. *)
Theorem sortSessions_ordered (xs : list session) :
  Deterministic.sortSessions xs ≡ₚ xs
  /\ StronglySorted in_order (Deterministic.sortSessions xs)
  /\ (forall a b, in_order a b \/ in_order b a)
  /\ Deterministic.sortSessions (Deterministic.sortSessions xs)
     = Deterministic.sortSessions xs
  /\ ((length xs <= 12)%nat ->
      forall k, with_key k (Deterministic.sortSessions xs) = with_key k xs)
  /\ sortSessions xs (Deterministic.sortSessions xs).
Proof.
  pose proof (sortSessions_run_meets_contract xs) as Hrun.
  destruct (sortSessions_contract_ordered xs _ Hrun) as (Hperm & Hsorted & Htotal & _).
  split; [exact Hperm|]. split; [exact Hsorted|]. split; [exact Htotal|].
  split; [|split; [|exact Hrun]].
  - apply Slice_idempotent;
      [apply session_less_irrefl | apply session_less_trans | apply session_le_trans].
  - intros Hlen k. unfold with_key, Deterministic.sortSessions.
    apply Slice_short_stable; [exact Hlen|].
    intros y z. apply with_key_not_less.
Qed.

Lemma sortSessions_ordered_witness :
  with_key ("claude", "claude") (Deterministic.sortSessions tied_sessions)
  = with_key ("claude", "claude") tied_sessions.
Proof.
  destruct (sortSessions_ordered tied_sessions) as (_ & _ & _ & _ & Hstable & _).
  apply Hstable. simpl. lia.
Defined.

(** On the fourteen windows no partition is unbalanced, so the result does
    not depend on the pseudo-random generator. *)
Lemma fourteen_sessions_any_generator (Next : Z -> Z) :
  GoSort.Slice Next session_less fourteen_sessions
  = Deterministic.sortSessions fourteen_sessions.
Proof. vm_compute. reflexivity. Qed.

(** Fourteen windows, discovered in the order of their ids at a first poll:
    the quicksort puts the one titled "a" first and, on the way, moves the
    seventh window before the first six, which carry the same AI name and
    the same title as it. *)
Lemma sortSessions_reorders_ties :
  fst (collectSessions (terminal fourteen_windows []) default_prefixes 200 ∅ 1
         (listing fourteen_windows)) = fourteen_sessions
  /\ map WindowID (Deterministic.sortSessions fourteen_sessions)
     = [8; 7; 3; 4; 5; 6; 1; 2; 9; 10; 11; 12; 13; 14]
  /\ map WindowID (with_key ("claude", "b") fourteen_sessions)
     = [1; 2; 3; 4; 5; 6; 7; 9; 10; 11; 12; 13; 14]
  /\ map WindowID (with_key ("claude", "b") (Deterministic.sortSessions fourteen_sessions))
     = [7; 3; 4; 5; 6; 1; 2; 9; 10; 11; 12; 13; 14]
  /\ with_key ("claude", "b") (Deterministic.sortSessions fourteen_sessions)
     <> with_key ("claude", "b") fourteen_sessions.
Proof.
  split; [vm_compute; reflexivity|]. split; [vm_compute; reflexivity|].
  split; [vm_compute; reflexivity|]. split; [vm_compute; reflexivity|].
  intros H. apply (f_equal (map WindowID)) in H. vm_compute in H. discriminate H.
Qed.
